(** * obsidian-ai-tags: the tag generation service

    A shallow embedding of [src/services/AIService.ts] (class [AIService])
    and of [AutoTaggerPlugin.analyzeTags] from [main.ts], with the
    properties of the tag reconciler, the response parser, the request
    builder and the request executor.

    Conventions.
    - A JavaScript string is the sequence of its UTF-16 code units
      ([list N]); [js "abc"] writes an ASCII literal.
    - [Set] is the insertion-ordered collection of the language: a list
      without repetition, grown by [Set_add].
    - The similarity score is a quotient of two set sizes.  It is kept as
      an exact rational: the double the program computes is the correctly
      rounded value of that rational, a set of code units has at most
      2^16 elements, two such quotients that differ are at least 2^-32
      apart, and the literal 0.7 denotes the double nearest to 7/10; so
      every comparison the program makes ([>] against 0.7 and against the
      running maximum) has the outcome of the same comparison on
      rationals.
    - Promises are run to completion: an [async] function is a function
      from the state of the world to an outcome and a new state. *)

From Stdlib Require Import QArith.
From stdpp Require Import gmap list strings.

(* ================================================================== *)
(** * Strings *)
(* ================================================================== *)

Abbreviation code_unit := N.
Abbreviation jsstring := (list N).

(** An ASCII literal as a sequence of code units. *)
Definition js (s : string) : jsstring :=
  map (λ a, Ascii.N_of_ascii a) (String.list_ascii_of_string s).

(** [String.prototype.toLowerCase] is the Unicode mapping of the host; the
    service only relies on it being a function on strings that sends the
    empty string, and nothing else, to the empty string. *)
Class LowerCase := {
  toLowerCase : jsstring → jsstring;
  toLowerCase_empty : ∀ s, toLowerCase s = [] ↔ s = []
}.

(** The mapping on the ASCII range (A-Z to a-z, every other code unit
    kept), which is what [toLowerCase] does on strings of code units
    below 128. *)
Definition ascii_lower_unit (c : code_unit) : code_unit :=
  if (65 <=? c)%N && (c <=? 90)%N then (c + 32)%N else c.

#[global] Instance ascii_lower : LowerCase.
Proof.
  refine {| toLowerCase := map ascii_lower_unit |}.
  intros s. destruct s; simpl; split; congruence.
Defined.

(* ================================================================== *)
(** * Sets of code units ([new Set(...)], [has], [size]) *)
(* ================================================================== *)

Definition Set_has (s : list N) (x : N) : bool := bool_decide (x ∈ s).

Definition Set_add (s : list N) (x : N) : list N :=
  if Set_has s x then s else s ++ [x].

Definition new_Set (l : list N) : list N := foldl Set_add [] l.

Definition Set_size (s : list N) : Z := Z.of_nat (length s).

(** Size of the intersection of the sets of two strings, built as the
    program builds it: the first set filtered by membership in the second. *)
Definition inter_size (l1 l2 : list N) : nat :=
  length (new_Set (filter (λ x, Set_has (new_Set l2) x = true) (new_Set l1))).

(* ================================================================== *)
(** * Tag reconciliation (AIService.ts, lines 67-95 and 111-114) *)
(* ================================================================== *)

Definition Qgtb (a b : Q) : bool := negb (Qle_bool a b).

Section Reconciler.
Context `{LowerCase}.

(** [calculateSimilarity], lines 67-77. *)
Definition calculateSimilarity (str1 str2 : jsstring) : Q :=
  let str1 := toLowerCase str1 in
  let str2 := toLowerCase str2 in
  if bool_decide (str1 = str2) then 1%Q
  else
    let set1 := new_Set str1 in
    let set2 := new_Set str2 in
    let intersection := new_Set (filter (λ x, Set_has set2 x = true) set1) in
    (inject_Z (Set_size intersection)
     / inject_Z (Z.max (Set_size set1) (Set_size set2)))%Q.

Definition similarityThreshold : Q := 7 # 10.

(** One iteration of the loop of [findSimilarExistingTag] on the pair
    ([mostSimilarTag], [highestSimilarity]). *)
Definition similar_step (newTag : jsstring)
    (st : option jsstring * Q) (existingTag : jsstring) : option jsstring * Q :=
  let similarity := calculateSimilarity newTag existingTag in
  if Qgtb similarity similarityThreshold && Qgtb similarity (snd st)
  then (Some existingTag, similarity)
  else st.

(** [findSimilarExistingTag], lines 79-95.  [existingTags] is the
    optional field of the configuration; [None] is JavaScript's [null]. *)
Definition findSimilarExistingTag
    (existingTags : option (list jsstring)) (newTag : jsstring) : option jsstring :=
  match existingTags with
  | None | Some [] => None
  | Some tags => fst (foldl (similar_step newTag) (None, 0%Q) tags)
  end.

(** [similarTag || tag]: [null] and the empty string are falsy. *)
Definition or_tag (similarTag : option jsstring) (tag : jsstring) : jsstring :=
  match similarTag with
  | Some (c :: t) => c :: t
  | Some [] | None => tag
  end.

(** The final [map] of [generateTags], lines 111-114. *)
Definition reconcile
    (existingTags : option (list jsstring)) (generatedTags : list jsstring)
    : list jsstring :=
  map (λ tag, or_tag (findSimilarExistingTag existingTags tag) tag) generatedTags.

(** The score in the words of the specification: sets of unique
    characters, |intersection| / max(|set1|, |set2|), identical
    (lowercased) strings scoring 1. *)
Definition similarity_spec (a b : jsstring) : Q :=
  let la := toLowerCase a in
  let lb := toLowerCase b in
  let sa : gset N := list_to_set la in
  let sb : gset N := list_to_set lb in
  if decide (la = lb) then 1%Q
  else (inject_Z (Z.of_nat (size (sa ∩ sb)))
        / inject_Z (Z.of_nat (size sa `max` size sb)))%Q.

(** What the loop of [findSimilarExistingTag] has established after a
    prefix [tags] of the existing tags. *)
Inductive scanned (c : jsstring) (tags : list jsstring) : option jsstring * Q → Prop :=
| scanned_none :
    (∀ e, e ∈ tags → (calculateSimilarity c e <= similarityThreshold)%Q) →
    scanned c tags (None, 0%Q)
| scanned_some i e :
    tags !! i = Some e →
    (similarityThreshold < calculateSimilarity c e)%Q →
    (∀ j e', j < i → tags !! j = Some e' →
       (calculateSimilarity c e' < calculateSimilarity c e)%Q) →
    (∀ e', e' ∈ tags → (calculateSimilarity c e' <= calculateSimilarity c e)%Q) →
    scanned c tags (Some e, calculateSimilarity c e).
End Reconciler.

(* ================================================================== *)
(** * String operations used by the adapter *)
(* ================================================================== *)

(** White space and line terminators of the language: what [trim] strips
    and what the pattern [\s] matches. *)
Definition is_space (c : code_unit) : bool :=
  bool_decide (c ∈ [9; 10; 11; 12; 13; 32; 160; 5760; 8232; 8233; 8239;
                    8287; 12288; 65279]%N)
  || ((8192 <=? c)%N && (c <=? 8202)%N).

Fixpoint trimStart (s : jsstring) : jsstring :=
  match s with
  | c :: r => if is_space c then trimStart r else s
  | [] => []
  end.

Definition trimEnd (s : jsstring) : jsstring := reverse (trimStart (reverse s)).

(** [String.prototype.trim]. *)
Definition trim (s : jsstring) : jsstring := trimStart (trimEnd s).

(** [s.split(sep)] for a separator of one code unit: the pieces between
    the separators, in order; never an empty array. *)
Fixpoint split (sep : code_unit) (s : jsstring) : list jsstring :=
  match s with
  | [] => [[]]
  | c :: r =>
      if bool_decide (c = sep) then [] :: split sep r
      else match split sep r with
           | p :: ps => (c :: p) :: ps
           | [] => [[c]]
           end
  end.

(** [tag.replace(/\s+/g, '')]: every run of white space removed. *)
Definition remove_spaces (s : jsstring) : jsstring :=
  filter (λ c, is_space c = false) s.

(** A string is truthy when it is not empty. *)
Definition truthy_string (s : jsstring) : bool :=
  match s with [] => false | _ :: _ => true end.

(** [hay.includes(needle)]. *)
Fixpoint starts_with (needle hay : jsstring) : bool :=
  match needle, hay with
  | [], _ => true
  | _ :: _, [] => false
  | a :: n, b :: h => bool_decide (a = b) && starts_with n h
  end.

Fixpoint includes (hay needle : jsstring) : bool :=
  starts_with needle hay ||
  match hay with
  | [] => false
  | _ :: h => includes h needle
  end.

Definition comma : code_unit := 44%N.

(** Lines 181-185 of [parseResponse]: split on commas, trim every piece,
    drop the empty ones, remove the white space left inside. *)
Definition split_tags (tagsText : jsstring) : list jsstring :=
  map remove_spaces
    (filter (λ tag, truthy_string tag = true)
       (map trim (split comma tagsText))).

(* ================================================================== *)
(** * JSON values and property access *)
(* ================================================================== *)

(** What [JSON.parse] (and so [response.json()]) can produce.  An object
    is the list of its own properties, keys distinct. *)
#[warnings="-register-all"]
Inductive json :=
| JNull
| JBool (b : bool)
| JNum (q : Q)
| JStr (s : jsstring)
| JArr (items : list json)
| JObj (fields : list (jsstring * json)).

(** A JavaScript value read out of such a structure: [None] is
    [undefined]. *)
Abbreviation value := (option json).

Fixpoint own_property (fields : list (jsstring * json)) (k : jsstring) : value :=
  match fields with
  | [] => None
  | (k', v) :: rest => if bool_decide (k = k') then Some v else own_property rest k
  end.

(** [v.k] on a value that is neither [null] nor [undefined], for the
    property names the service reads ([choices], [message], [content],
    [candidates], [parts], [text], [error]); none of them is a built-in
    property of strings, numbers, booleans or arrays. *)
Definition get_named (v : json) (k : jsstring) : value :=
  match v with
  | JObj fields => own_property fields k
  | _ => None
  end.

(** [v[0]] on a value that is neither [null] nor [undefined]. *)
Definition get_first (v : json) : value :=
  match v with
  | JArr items => head items
  | JStr (c :: _) => Some (JStr [c])
  | JObj fields => own_property fields (js "0")
  | _ => None
  end.

Definition nullish (v : value) : bool :=
  match v with None | Some JNull => true | Some _ => false end.

(** Optional chaining: [v?.k] and [v?.[0]]. *)
Definition opt_named (v : value) (k : jsstring) : value :=
  match v with
  | None | Some JNull => None
  | Some x => get_named x k
  end.

Definition opt_first (v : value) : value :=
  match v with
  | None | Some JNull => None
  | Some x => get_first x
  end.

(** Truthiness of a JSON value. *)
Definition truthy (v : value) : bool :=
  match v with
  | None | Some JNull | Some (JBool false) | Some (JStr []) => false
  | Some (JNum q) => negb (Qeq_bool q 0)
  | Some _ => true
  end.

(* ================================================================== *)
(** * Errors and outcomes *)
(* ================================================================== *)

(** Values the service throws or lets through.
    [RequestError] is the class imported from [../errors/RequestError]
    (its constructor takes the message and the HTTP status, and the
    service reads [status] back); an instance is not named "AbortError".
    [ErrorFrom prefix cause] is [new Error(`<prefix>${cause.message}`)]. *)
Inductive exn :=
| RequestError (message : json) (status : Z)
| AbortError
| TypeError
| SyntaxError
| Error (message : jsstring)
| ErrorFrom (prefix : jsstring) (cause : exn)
| ThrownUndefined.

Inductive outcome (A : Type) :=
| Ok (a : A)
| Throw (e : exn).
Arguments Ok {A} a.
Arguments Throw {A} e.

Definition is_ok {A} (o : outcome A) : bool :=
  match o with Ok _ => true | Throw _ => false end.

(** Message literals of the sources. *)
Definition msg_request_failed : jsstring := [35831; 27714; 22833; 36133]%N.
Definition msg_timeout : jsstring := [35831; 27714; 36229; 26102]%N.
Definition msg_parse_failed : jsstring :=
  [35299; 26512; 32; 65; 73; 32; 21709; 24212; 22833; 36133]%N.
Definition msg_missing_key : jsstring :=
  [35831; 20808; 22312; 35774; 32622; 20013; 37197; 32622; 32; 65; 80; 73;
   32; 23494; 38053]%N.
Definition msg_generate_failed : jsstring :=
  [29983; 25104; 26631; 31614; 22833; 36133; 65306]%N.

(* ================================================================== *)
(** * Provider adapter (AIService.ts, lines 117-189) *)
(* ================================================================== *)

(** [AIServiceConfig], lines 3-8. *)
Record AIServiceConfig := {
  apiKey : jsstring;
  apiUrl : jsstring;
  model : jsstring;
  existingTags : option (list jsstring)
}.

(** [AIService.SYSTEM_PROMPT], line 16. *)
Definition SYSTEM_PROMPT : jsstring :=
  [20320; 26159; 19968; 20010; 25991; 26723; 26631; 31614; 29983; 25104;
   22120; 12290; 35831; 26681; 25454; 25991; 26723; 20869; 23481; 29983;
   25104; 26368; 22810; 32; 51; 32; 20010; 30456; 20851; 30340; 26631;
   31614; 12290; 21482; 38656; 36820; 22238; 26631; 31614; 65292; 29992;
   36887; 21495; 20998; 38548; 65292; 19981; 35201; 21253; 21547; 20854;
   20182; 35299; 37322; 25110; 35828; 26126; 65292; 31105; 27490; 25991;
   26412; 20013; 21253; 21547; 31354; 26684; 12290]%N.

Definition gemini_host : jsstring := js "generativelanguage.googleapis.com".

(** [getProviderFromUrl], lines 117-122. *)
Definition getProviderFromUrl (config : AIServiceConfig) : jsstring :=
  if includes (apiUrl config) gemini_host then js "gemini" else js "openai".

(** [getFullApiUrl], lines 124-129. *)
Definition getFullApiUrl (config : AIServiceConfig) (provider : jsstring) : jsstring :=
  if bool_decide (provider = js "gemini")
  then apiUrl config ++ model config ++ js ":generateContent?key=" ++ apiKey config
  else apiUrl config.

(** [getHeaders], lines 131-141. *)
Definition getHeaders (config : AIServiceConfig) (provider : jsstring)
    : gmap jsstring jsstring :=
  let headers : gmap jsstring jsstring :=
    {[ js "Content-Type" := js "application/json" ]} in
  if negb (bool_decide (provider = js "gemini")) && truthy_string (apiKey config)
  then <[ js "Authorization" := js "Bearer " ++ apiKey config ]> headers
  else headers.

(** [getRequestBody], lines 143-170: the value handed to
    [JSON.stringify]. *)
Definition getRequestBody (config : AIServiceConfig)
    (content : jsstring) (provider : jsstring) : json :=
  if bool_decide (provider = js "gemini")
  then
    JObj [ (js "contents",
            JArr [ JObj [ (js "parts",
                           JArr [ JObj [ (js "text", JStr SYSTEM_PROMPT) ];
                                  JObj [ (js "text", JStr content) ] ]) ] ]) ]
  else
    JObj [ (js "model", JStr (model config));
           (js "messages",
            JArr [ JObj [ (js "role", JStr (js "system"));
                          (js "content", JStr SYSTEM_PROMPT) ];
                   JObj [ (js "role", JStr (js "user"));
                          (js "content", JStr content) ] ]) ].

(** The outbound call: the arguments [generateTags] gives to
    [makeRequest], the body before serialisation. *)
Record request := {
  url : jsstring;
  method : jsstring;
  headers : gmap jsstring jsstring;
  body : json
}.

Definition buildRequest (config : AIServiceConfig) (content : jsstring) : request :=
  let provider := getProviderFromUrl config in
  {| url := getFullApiUrl config provider;
     method := js "POST";
     headers := getHeaders config provider;
     body := getRequestBody config content provider |}.

(** [data.k]: reading a property of [null] throws. *)
Definition member (data : json) (k : jsstring) : outcome value :=
  match data with
  | JNull => Throw TypeError
  | _ => Ok (get_named data k)
  end.

(** [v?.trim()]: skipped on [null] and [undefined], the string method on
    a string, and a [TypeError] on anything else (no callable [trim]). *)
Definition opt_trim (v : value) : outcome (option jsstring) :=
  match v with
  | None | Some JNull => Ok None
  | Some (JStr s) => Ok (Some (trim s))
  | Some _ => Throw TypeError
  end.

(** [... || '']. *)
Definition or_empty (s : option jsstring) : jsstring :=
  match s with
  | Some (c :: r) => c :: r
  | Some [] | None => []
  end.

(** The field the text is read from, lines 176 and 178, before [trim]. *)
Definition text_field (data : json) (provider : jsstring) : outcome value :=
  if bool_decide (provider = js "gemini")
  then
    match member data (js "candidates") with
    | Throw e => Throw e
    | Ok candidates =>
        Ok (opt_named (opt_first (opt_named (opt_named (opt_first candidates)
                                     (js "content")) (js "parts"))) (js "text"))
    end
  else
    match member data (js "choices") with
    | Throw e => Throw e
    | Ok choices =>
        Ok (opt_named (opt_named (opt_first choices) (js "message")) (js "content"))
    end.

(** [parseResponse], lines 172-189. *)
Definition parseResponse (data : json) (provider : jsstring) : outcome (list jsstring) :=
  let tagsText :=
    match text_field data provider with
    | Throw e => Throw e
    | Ok v =>
        match opt_trim v with
        | Throw e => Throw e
        | Ok t => Ok (or_empty t)
        end
    end in
  match tagsText with
  | Ok text => Ok (split_tags text)
  | Throw _ => Throw (Error msg_parse_failed)
  end.

(** A path into a JSON structure, [choices[0].message.content] and the
    like, and the value found there, if any. *)
Inductive step :=
| Field (k : jsstring)
| First.

Fixpoint json_at (path : list step) (v : json) : value :=
  match path with
  | [] => Some v
  | Field k :: rest =>
      match get_named v k with
      | Some x => json_at rest x
      | None => None
      end
  | First :: rest =>
      match get_first v with
      | Some x => json_at rest x
      | None => None
      end
  end.

(** The response extraction path of each provider. *)
Definition expected_path (provider : jsstring) : list step :=
  if bool_decide (provider = js "gemini")
  then [Field (js "candidates"); First; Field (js "content");
        Field (js "parts"); First; Field (js "text")]
  else [Field (js "choices"); First; Field (js "message"); Field (js "content")].

(* ================================================================== *)
(** * Request executor (AIService.ts, lines 17-65) *)
(* ================================================================== *)

Definition TIMEOUT : N := 30000.
Definition MAX_RETRIES : nat := 2.

(** A [Response] as the service uses it: its status, and what
    [response.json()] settles to (a rejection with [SyntaxError] when the
    body is not JSON).  [ok] is the status being in 200-299. *)
Record Response := {
  status : Z;
  json_body : outcome json
}.

Definition ok (r : Response) : bool :=
  (200 <=? status r)%Z && (status r <=? 299)%Z.

(** How one [fetch] call behaves when left alone: it settles after some
    milliseconds, with a response or with a rejection, or it never does. *)
Inductive fetch_behaviour :=
| Settles (latency : N) (result : outcome Response)
| Hangs.

(** The network: the behaviour of the [k]-th call, given the request. *)
Abbreviation network := (nat → request → fetch_behaviour).

(** The state of the world around the service: the clock (milliseconds),
    the requests sent so far and the pauses taken so far. *)
Record world := {
  now : N;
  calls : list request;
  slept : list N
}.

Definition initial_world : world := {| now := 0; calls := []; slept := [] |}.

(** An asynchronous computation run to completion. *)
Abbreviation async W A := (W → outcome A * W).

(** [await new Promise(resolve => setTimeout(resolve, ms))]. *)
Class Sleep (W : Type) := sleep : N → W → W.

#[global] Instance world_sleep : Sleep world := λ ms w,
  {| now := (now w + ms)%N; calls := calls w; slept := slept w ++ [ms] |}.

(** [fetch(url, {...options, signal})] under the timer of [makeRequest]:
    the call is recorded; if it settles before the timer fires, that is
    its result; otherwise the timer aborts it after [TIMEOUT]
    milliseconds and it rejects with an [AbortError]. *)
Definition fetch (net : network) (req : request) : async world Response := λ w,
  let sent := {| now := now w; calls := calls w ++ [req]; slept := slept w |} in
  let elapse ms := {| now := (now w + ms)%N; calls := calls sent; slept := slept w |} in
  match net (length (calls w)) req with
  | Settles latency result =>
      if (latency <? TIMEOUT)%N then (result, elapse latency)
      else (Throw AbortError, elapse TIMEOUT)
  | Hangs => (Throw AbortError, elapse TIMEOUT)
  end.

(** [error.name === 'AbortError']. *)
Definition is_abort (e : exn) : bool :=
  match e with AbortError => true | _ => false end.

(** The [try] block of [makeRequest] once [fetch] has resolved, lines
    34-39. *)
Definition check_response (response : Response) : outcome Response :=
  if ok response then Ok response
  else
    match json_body response with
    | Throw e => Throw e
    | Ok error =>
        match member error (js "error") with
        | Throw e => Throw e
        | Ok err =>
            let message := opt_named err (js "message") in
            Throw (RequestError
                     (match message with
                      | Some m => if truthy message then m else JStr msg_request_failed
                      | None => JStr msg_request_failed
                      end)
                     (status response))
        end
    end.

(** [makeRequest], lines 24-48. *)
Definition makeRequest (net : network) (req : request) : async world Response := λ w,
  let '(fetched, w') := fetch net req w in
  let attempt :=
    match fetched with
    | Ok response => check_response response
    | Throw e => Throw e
    end in
  match attempt with
  | Ok response => (Ok response, w')
  | Throw e =>
      if is_abort e then (Throw (RequestError (JStr msg_timeout) 408), w')
      else (Throw e, w')
  end.

(** [error instanceof RequestError && error.status >= 500], line 57. *)
Definition retryable (e : exn) : bool :=
  match e with
  | RequestError _ st => (500 <=? st)%Z
  | _ => false
  end.

(** The loop of [retryRequest], lines 52-64, entered with counter [i],
    [remaining] iterations before [i] exceeds [MAX_RETRIES], and the last
    error caught so far. *)
Fixpoint retry_loop {W} `{Sleep W} (fn : async W Response)
    (remaining : nat) (i : N) (lastError : option exn) : async W Response := λ w,
  match remaining with
  | O => (Throw (default ThrownUndefined lastError), w)
  | S remaining' =>
      match fn w with
      | (Ok response, w') => (Ok response, w')
      | (Throw e, w') =>
          if retryable e
          then retry_loop fn remaining' (i + 1)%N (Some e)
                 (sleep (2 ^ i * 1000)%N w')
          else (Throw e, w')
      end
  end.

(** [retryRequest], lines 50-65. *)
Definition retryRequest {W} `{Sleep W} (fn : async W Response) : async W Response :=
  retry_loop fn (S MAX_RETRIES) 0%N None.

(** A thunk whose successive calls have prescribed outcomes, with the
    record of how often it was called and of the pauses around it. *)
Record trial := {
  attempts : nat;
  delays : list N
}.

#[global] Instance trial_sleep : Sleep trial := λ ms t,
  {| attempts := attempts t; delays := delays t ++ [ms] |}.

Definition scripted (script : nat → outcome Response) : async trial Response := λ t,
  (script (attempts t), {| attempts := S (attempts t); delays := delays t |}).

Definition fresh_trial : trial := {| attempts := 0; delays := [] |}.

(* ================================================================== *)
(** * Orchestration *)
(* ================================================================== *)

(** [generateTags], AIService.ts lines 97-115, with the body of the
    response at hand as soon as its headers are: the read of line 108
    takes no time here.  [Streamed.generateTags] below has that read as
    the wait it is. *)
Definition generateTags `{LowerCase} (net : network) (config : AIServiceConfig)
    (content : jsstring) : async world (list jsstring) := λ w,
  let provider := getProviderFromUrl config in
  match makeRequest net (buildRequest config content) w with
  | (Throw e, w') => (Throw e, w')
  | (Ok response, w') =>
      match json_body response with
      | Throw e => (Throw e, w')
      | Ok data =>
          match parseResponse data provider with
          | Throw e => (Throw e, w')
          | Ok generatedTags =>
              (Ok (reconcile (existingTags config) generatedTags), w')
          end
      end
  end.

(** Plugin settings, main.ts lines 5-15. *)
Record ProviderSettings := {
  ps_apiKey : jsstring;
  ps_apiUrl : jsstring;
  ps_model : jsstring
}.

Record AutoTaggerSettings := {
  provider : jsstring;
  providerSettings : gmap jsstring ProviderSettings;
  customPrompt : jsstring
}.

(** [AutoTaggerPlugin.analyzeTags], main.ts lines 123-144.  The
    configuration it builds also carries [customPrompt], which this
    service does not read, and no [existingTags]. *)
Definition analyzeTags `{LowerCase} (net : network) (settings : AutoTaggerSettings)
    (content : jsstring) : async world (list jsstring) := λ w,
  match providerSettings settings !! provider settings with
  | None => (Throw (Error msg_missing_key), w)
  | Some providerConfig =>
      if negb (truthy_string (ps_apiKey providerConfig))
      then (Throw (Error msg_missing_key), w)
      else
        let config := {| apiKey := ps_apiKey providerConfig;
                         apiUrl := ps_apiUrl providerConfig;
                         model := ps_model providerConfig;
                         existingTags := None |} in
        match generateTags net config content w with
        | (Ok tags, w') => (Ok tags, w')
        | (Throw error, w') => (Throw (ErrorFrom msg_generate_failed error), w')
        end
  end.

(** Bodies used as examples. *)
Definition openai_body (text : jsstring) : json :=
  JObj [ (js "choices",
          JArr [ JObj [ (js "message", JObj [ (js "content", JStr text) ]) ] ]) ].

Definition gemini_body (text : jsstring) : json :=
  JObj [ (js "candidates",
          JArr [ JObj [ (js "content",
                         JObj [ (js "parts",
                                 JArr [ JObj [ (js "text", JStr text) ] ]) ]) ] ]) ].

(** An outcome after which [retryRequest] tries again. *)
Definition transient (o : outcome Response) : bool :=
  match o with
  | Throw e => retryable e
  | Ok _ => false
  end.

(** Scripts and networks used as examples. *)
Definition unavailable (st : Z) : exn :=
  RequestError (JStr (js "upstream unavailable")) st.

Definition good_response : Response :=
  {| status := 200;
     json_body := Ok (openai_body (js "ai, tags")) |}.

Definition error_response (st : Z) : Response :=
  {| status := st;
     json_body :=
       Ok (JObj [ (js "error",
                   JObj [ (js "message", JStr (js "upstream unavailable")) ]) ]) |}.

Definition script_503_503_ok (k : nat) : outcome Response :=
  match k with
  | 0 | 1 => Throw (unavailable 503)
  | _ => Ok good_response
  end.

Definition script_404 (k : nat) : outcome Response := Throw (unavailable 404).

Definition net_503_503_ok : network := λ k _,
  Settles 120 (Ok (if k <? 2 then error_response 503 else good_response)).

Definition net_404 : network := λ _ _, Settles 120 (Ok (error_response 404)).

Definition sample_request : request :=
  {| url := js "https://api.openai.com/v1/chat/completions";
     method := js "POST";
     headers := {[ js "Content-Type" := js "application/json" ]};
     body := JObj [] |}.

(** [PROVIDER_CONFIGS.ollama] of the plugin: the default endpoint and
    model of the local provider. *)
Definition ollama_defaultUrl : jsstring := js "http://localhost:11434/v1/chat/completions".
Definition ollama_defaultModel : jsstring := js "llama3".

(** The later revision of the service (the one with [testConnection]),
    which tells four providers apart: its [getProviderFromUrl] and
    [getHeaders]. *)
Module LaterRevision.
Definition getProviderFromUrl (config : AIServiceConfig) : jsstring :=
  if includes (apiUrl config) gemini_host then js "gemini"
  else if includes (apiUrl config) (js "anthropic.com") then js "claude"
  else if includes (apiUrl config) (js "localhost:11434")
          || includes (apiUrl config) (js "ollama") then js "ollama"
  else js "openai".

Definition getHeaders (config : AIServiceConfig) (provider : jsstring)
    : gmap jsstring jsstring :=
  let headers : gmap jsstring jsstring :=
    {[ js "Content-Type" := js "application/json" ]} in
  if truthy_string (apiKey config) then
    if bool_decide (provider = js "gemini")
    then <[ js "x-goog-api-key" := apiKey config ]> headers
    else if bool_decide (provider = js "claude")
    then <[ js "x-api-key" := apiKey config ]> headers
    else if bool_decide (provider = js "openai")
    then <[ js "Authorization" := js "Bearer " ++ apiKey config ]> headers
    else headers
  else headers.
End LaterRevision.

(** Settings used as examples: the provider whose default model is the
    empty string, with a key filled in. *)
Definition volcano_settings : AutoTaggerSettings :=
  {| provider := js "volcano";
     providerSettings :=
       {[ js "volcano" :=
            {| ps_apiKey := js "ak-1";
               ps_apiUrl := js "https://ark.cn-beijing.volces.com/api/v3/chat/completions";
               ps_model := [] |} ]};
     customPrompt := SYSTEM_PROMPT |}.

Definition openai_settings_without_key : AutoTaggerSettings :=
  {| provider := js "openai";
     providerSettings :=
       {[ js "openai" :=
            {| ps_apiKey := [];
               ps_apiUrl := js "https://api.openai.com/v1/chat/completions";
               ps_model := js "gpt-4o-mini" |} ]};
     customPrompt := SYSTEM_PROMPT |}.


(* ================================================================== *)
(** * The body of a response as a wait of its own *)
(* ================================================================== *)

(** [fetch] resolves when the headers of the response are there; the body
    follows, and [response.json()] waits for it.  When the body of a
    response arrives, counted from the arrival of its headers: after some
    milliseconds, or never. *)
Inductive arrival :=
| Arrives (ms : N)
| Never.

(** An awaited promise: settled, or pending for ever. *)
Inductive awaited (A : Type) :=
| Settled (a : A)
| Pending.

Arguments Settled {A} a.
Arguments Pending {A}.

(** The world [ms] milliseconds later, and the world at the time [t]. *)
Definition later (ms : N) (w : world) : world :=
  {| now := (now w + ms)%N; calls := calls w; slept := slept w |}.

Definition at_time (t : N) (w : world) : world :=
  {| now := t; calls := calls w; slept := slept w |}.

Module Streamed.
(** The bodies of the network: when the body of the response to the
    [k]-th call arrives. *)
Definition bodies := nat → request → arrival.

(** [makeRequest], lines 24-48, with the reads of the body as the
    waits they are.  The body of a response that is not [ok] is read at
    line 35, inside the [try] and so while the timer is armed: the
    read ends when the body has arrived, or with the abort at the
    deadline, [TIMEOUT] after the call began.  A response that is [ok]
    is returned as soon as [fetch] has resolved, its body unread, and
    the [finally] of lines 45-47 clears the timer. *)
Definition makeRequest (net : network) (body : bodies) (req : request)
    : async world Response := λ w,
  let '(fetched, w') := fetch net req w in
  let deadline := (now w + TIMEOUT)%N in
  let '(attempt, w'') :=
    match fetched with
    | Ok response =>
        if ok response then (Ok response, w')
        else
          match body (length (calls w)) req with
          | Arrives ms =>
              if (now w' + ms <? deadline)%N
              then (check_response response, later ms w')
              else (Throw AbortError, at_time deadline w')
          | Never => (Throw AbortError, at_time deadline w')
          end
    | Throw e => (Throw e, w')
    end in
  match attempt with
  | Ok response => (Ok response, w'')
  | Throw e =>
      if is_abort e then (Throw (RequestError (JStr msg_timeout) 408), w'')
      else (Throw e, w'')
  end.

(** [generateTags], lines 97-115.  The body of the response that
    [makeRequest] returned is read at line 108, after the timer was
    cleared: nothing ends the wait for a body that does not arrive. *)
Definition generateTags `{LowerCase} (net : network) (body : bodies)
    (config : AIServiceConfig) (content : jsstring)
    : world → awaited (outcome (list jsstring) * world) := λ w,
  let provider := getProviderFromUrl config in
  let req := buildRequest config content in
  match makeRequest net body req w with
  | (Throw e, w') => Settled (Throw e, w')
  | (Ok response, w') =>
      match body (length (calls w)) req with
      | Never => Pending
      | Arrives ms =>
          let w'' := later ms w' in
          match json_body response with
          | Throw e => Settled (Throw e, w'')
          | Ok data =>
              match parseResponse data provider with
              | Throw e => Settled (Throw e, w'')
              | Ok generatedTags =>
                  Settled (Ok (reconcile (existingTags config) generatedTags), w'')
              end
          end
      end
  end.
End Streamed.

(** A configuration, a server that answers every request with the
    headers of a 200 response after 120 ms, and bodies that never
    arrive, used as examples. *)
Definition openai_config : AIServiceConfig :=
  {| apiKey := js "sk-1";
     apiUrl := js "https://api.openai.com/v1/chat/completions";
     model := js "gpt-4o-mini";
     existingTags := None |}.

Definition net_200 : network := λ _ _, Settles 120 (Ok good_response).

Definition stalled_bodies : Streamed.bodies := λ _ _, Never.
(* ================================================================== *)
(** * The tag selection dialog (main.ts, lines 181-245) *)
(* ================================================================== *)

Module Modal.
(** One row of the dialog: the state of its checkbox and the text of its
    input field, both owned by the browser. *)
Record row := {
  checked : bool;
  value : jsstring
}.

(** [TagSelectionModal]: the tags it was opened with, its rows, and the
    array [selectedTags] ([None] is [null]). *)
Record state := {
  tags : list jsstring;
  rows : list row;
  selectedTags : list (option jsstring)
}.

(** The constructor followed by [onOpen]: a checked row per tag, and
    [selectedTags] a copy of the tags. *)
Definition open (tags : list jsstring) : state :=
  {| tags := tags;
     rows := map (λ tag, {| checked := true; value := tag |}) tags;
     selectedTags := map Some tags |}.

(** What the user does: click the checkbox of a row, or edit the text
    of a row. *)
Inductive event :=
| Click (index : nat)
| Edit (index : nat) (text : jsstring).

(** The listener for [change] of the checkbox of row [index]. *)
Definition on_change (index : nat) (m : state) : state :=
  match rows m !! index with
  | Some r =>
      {| tags := tags m; rows := rows m;
         selectedTags :=
           <[index := if checked r then Some (value r) else None]> (selectedTags m) |}
  | None => m
  end.

(** The listener for [input] of the text field of row [index]. *)
Definition on_input (index : nat) (m : state) : state :=
  match rows m !! index with
  | Some r =>
      if checked r
      then {| tags := tags m; rows := rows m;
              selectedTags := <[index := Some (value r)]> (selectedTags m) |}
      else m
  | None => m
  end.

(** The browser updates the control, then runs the listener. *)
Definition handle (m : state) (ev : event) : state :=
  match ev with
  | Click index =>
      on_change index
        {| tags := tags m;
           rows := alter (λ r, {| checked := negb (checked r); value := value r |})
                     index (rows m);
           selectedTags := selectedTags m |}
  | Edit index text =>
      on_input index
        {| tags := tags m;
           rows := alter (λ r, {| checked := checked r; value := text |})
                     index (rows m);
           selectedTags := selectedTags m |}
  end.

(** The listener of the confirm button: the argument it gives to
    [onSubmit], [selectedTags.filter(tag => tag !== null)]. *)
Definition submit (m : state) : list jsstring := omap id (selectedTags m).

(** [selectedTags] mirrors the rows: the text of a checked row, [null]
    for an unchecked one. *)
Definition mirrors (m : state) : Prop :=
  selectedTags m
  = map (λ r, if checked r then Some (value r) else None) (rows m).
End Modal.

(* ================================================================== *)
(** * Writing the tags into the front matter (main.ts, lines 146-178) *)
(* ================================================================== *)

Definition nl : jsstring := [10]%N.

(** Line terminators: what [.] does not match and after which [^]
    matches under the [m] flag. *)
Definition is_line_terminator (c : code_unit) : bool :=
  bool_decide (c ∈ [10; 13; 8232; 8233]%N).

(** The first occurrence of [needle] in [hay]: the text before it and the
    text after it. *)
Fixpoint find_first (needle hay : jsstring) : option (jsstring * jsstring) :=
  if starts_with needle hay then Some ([], drop (length needle) hay)
  else match hay with
       | [] => None
       | c :: h =>
           match find_first needle h with
           | Some (before, after) => Some (c :: before, after)
           | None => None
           end
       end.

Definition yaml_open : jsstring := js "---" ++ nl.
Definition yaml_close : jsstring := nl ++ js "---".

(** [yamlRegex] (three dashes and a line feed at the start of the
    text, a lazy group of any characters, a line feed and three dashes)
    on [content]: the match starts at index 0, and the lazy group ends at
    the first line feed followed by three dashes after the opening line.
    Result: the group and the text after the match. *)
Definition match_yaml (content : jsstring) : option (jsstring * jsstring) :=
  if starts_with yaml_open content
  then find_first yaml_close (drop (length yaml_open) content)
  else None.

(** The text up to the first line terminator. *)
Fixpoint first_line (s : jsstring) : jsstring :=
  match s with
  | [] => []
  | c :: r => if is_line_terminator c then [] else c :: first_line r
  end.

(** Index of the last occurrence of a code unit. *)
Fixpoint last_index_of (x : code_unit) (s : jsstring) : option nat :=
  match s with
  | [] => None
  | c :: r =>
      match last_index_of x r with
      | Some k => Some (S k)
      | None => if bool_decide (c = x) then Some 0 else None
      end
  end.

(** [tagsRegex] (at a line start: "tags:", any white space, an opening
    bracket, a greedy group of characters other than line terminators, a
    closing bracket; flag [m]) tried at the start of [s], a position
    where [^] holds: "tags:", all the white space that follows (a shorter
    run would leave white space where the bracket is required), the
    opening bracket, then the group, which runs to the last closing
    bracket of the line.  Result: the group and the text after the
    match. *)
Definition match_tags_here (s : jsstring) : option (jsstring * jsstring) :=
  if starts_with (js "tags:") s then
    match trimStart (drop 5 s) with
    | c :: rest =>
        if bool_decide (c = 91%N) then
          match last_index_of 93%N (first_line rest) with
          | Some k => Some (take k rest, drop (S k) rest)
          | None => None
          end
        else None
    | [] => None
    end
  else None.

(** The first match of [tagsRegex] in [s]: the text before the match, the
    matched text, the group and the text after the match.  [line_start]
    tells whether [^] holds at the start of [s]. *)
Fixpoint search_tags (line_start : bool) (s : jsstring)
    : option (jsstring * jsstring * jsstring * jsstring) :=
  match (if line_start then match_tags_here s else None) with
  | Some (group, after) =>
      Some ([], take (length s - length after) s, group, after)
  | None =>
      match s with
      | [] => None
      | c :: r =>
          match search_tags (is_line_terminator c) r with
          | Some (before, matched, group, after) =>
              Some (c :: before, matched, group, after)
          | None => None
          end
      end
  end.

Definition is_digit (c : code_unit) : bool := (48 <=? c)%N && (c <=? 57)%N.

(** The replacement text of [String.prototype.replace] for a pattern with
    one capture group and no named groups.  In the template a dollar
    sign followed by a dollar sign is one dollar sign; followed by an
    ampersand, the matched text; followed by a backquote or an
    apostrophe, the text before or after the match; followed by 1 or 01,
    the group; a two-digit reference above 1 is read as a one-digit
    reference followed by a digit; anything else is kept as it is. *)
Fixpoint GetSubstitution (matched before after group template : jsstring) : jsstring :=
  match template with
  | [] => []
  | c :: r =>
      if bool_decide (c = 36%N) then
        match r with
        | [] => [36%N]
        | d :: r' =>
            if bool_decide (d = 36%N) then 36%N :: GetSubstitution matched before after group r'
            else if bool_decide (d = 38%N) then matched ++ GetSubstitution matched before after group r'
            else if bool_decide (d = 96%N) then before ++ GetSubstitution matched before after group r'
            else if bool_decide (d = 39%N) then after ++ GetSubstitution matched before after group r'
            else if is_digit d then
              let one_digit :=
                if bool_decide (d = 49%N)
                then group ++ GetSubstitution matched before after group r'
                else 36%N :: d :: GetSubstitution matched before after group r' in
              match r' with
              | d2 :: r'' =>
                  if is_digit d2 then
                    if bool_decide (d = 48%N) && bool_decide (d2 = 49%N)
                    then group ++ GetSubstitution matched before after group r''
                    else if bool_decide (d = 48%N) && bool_decide (d2 = 48%N)
                    then 36%N :: d :: d2 :: GetSubstitution matched before after group r''
                    else one_digit
                  else one_digit
              | [] => one_digit
              end
            else 36%N :: GetSubstitution matched before after group r
        end
      else c :: GetSubstitution matched before after group r
  end.

(** [content.replace(tagsRegex, template)]. *)
Definition replace_tags (content template : jsstring) : jsstring :=
  match search_tags true content with
  | Some (before, matched, group, after) =>
      before ++ GetSubstitution matched before after group template ++ after
  | None => content
  end.

(** [content.replace(yamlRegex, template)]. *)
Definition replace_yaml (content template : jsstring) : jsstring :=
  match match_yaml content with
  | Some (yaml, after) =>
      GetSubstitution (yaml_open ++ yaml ++ yaml_close) [] after yaml template ++ after
  | None => content
  end.

(** [list.join(sep)]. *)
Fixpoint join (sep : jsstring) (l : list jsstring) : jsstring :=
  match l with
  | [] => []
  | x :: r =>
      match r with
      | [] => x
      | _ :: _ => x ++ sep ++ join sep r
      end
  end.

(** [[...new Set(list)]] for strings: the first occurrence of each. *)
Definition StringSet_add (s : list jsstring) (x : jsstring) : list jsstring :=
  if bool_decide (x ∈ s) then s else s ++ [x].

Definition new_StringSet (l : list jsstring) : list jsstring := foldl StringSet_add [] l.

(** The tags of a [tags: [...]] line, lines 160-163. *)
Definition parse_tag_list (existingTagsStr : jsstring) : list jsstring :=
  filter (λ tag, tag ≠ []) (map trim (split comma existingTagsStr)).

Definition tags_line (l : list jsstring) : jsstring :=
  js "tags: [" ++ join (js ", ") l ++ js "]".

(** [updateFileFrontMatter], lines 146-178: from the content read from
    the file and the new tags to the content written back. *)
Definition updateFileFrontMatter (content : jsstring) (newTags : list jsstring) : jsstring :=
  match match_yaml content with
  | Some (yaml, _) =>
      match search_tags true yaml with
      | Some (_, _, existingTagsStr, _) =>
          let existingTags := parse_tag_list existingTagsStr in
          let allTags := new_StringSet (existingTags ++ newTags) in
          replace_tags content (tags_line allTags)
      | None =>
          replace_yaml content
            (js "---" ++ nl ++ yaml ++ nl ++ tags_line newTags ++ nl ++ js "---")
      end
  | None =>
      js "---" ++ nl ++ tags_line newTags ++ nl ++ js "---" ++ nl ++ nl ++ content
  end.

(** A tag that survives being written into a [tags: [...]] line and read
    back: not empty, no white space at either end, and no comma, line
    terminator or dollar sign inside. *)
Definition plain_tag (t : jsstring) : Prop :=
  t ≠ [] ∧ trim t = t ∧ (comma ∉ t) ∧ (36 ∉ t)%N ∧
  (∀ c, c ∈ t → is_line_terminator c = false).

(** No closing line of a front matter starts within the first [n]
    positions of [s]. *)
Definition no_close_before (n : nat) (s : jsstring) : Prop :=
  ∀ k, k < n → starts_with yaml_close (drop k s) = false.

(** Notes used as examples. *)
Definition note_plain : jsstring := js "hello".

Definition note_with_title : jsstring :=
  js "---" ++ nl ++ js "title: x" ++ nl ++ js "---" ++ nl ++ js "body".

Definition note_with_tags : jsstring :=
  js "---" ++ nl ++ js "title: x" ++ nl ++ js "tags:  [x, a ] # c" ++ nl
  ++ js "---" ++ nl ++ js "body".

(* ================================================================== *)
(** * Existing tags that are relevant to a document *)
(* ================================================================== *)

(** The separators of [findRelevantExistingTags]: the class of white
    space, and the comma, full stop, exclamation mark, question mark,
    semicolon and colon, each in its ASCII and in its full-width form. *)
Definition is_separator (c : code_unit) : bool :=
  is_space c
  || bool_decide (c ∈ [44; 65292; 46; 12290; 33; 65281; 63; 65311;
                       59; 65307; 58; 65306]%N).

(** [s.split(separators)]: the pieces between single separators, in
    order, the empty pieces included; never an empty array. *)
Fixpoint split_words (s : jsstring) : list jsstring :=
  match s with
  | [] => [[]]
  | c :: r =>
      if is_separator c then [] :: split_words r
      else match split_words r with
           | p :: ps => (c :: p) :: ps
           | [] => [[c]]
           end
  end.

Section Relevance.
Context `{LowerCase}.

(** The test of the loop: the tag occurs in the content, or some word
    of the content occurs in the tag, all in lower case. *)
Definition relevant (contentLower : jsstring) (words : list jsstring)
    (tag : jsstring) : bool :=
  let tagLower := toLowerCase tag in
  includes contentLower tagLower
  || existsb (λ word, includes tagLower word) words.

(** The loop over [this.existingTags], a set walked in insertion
    order, with the tags pushed so far. *)
Fixpoint relevant_loop (contentLower : jsstring) (words : list jsstring)
    (existingTags relevantTags : list jsstring) : list jsstring :=
  match existingTags with
  | [] => relevantTags
  | tag :: rest =>
      if relevant contentLower words tag
      then
        let relevantTags' := relevantTags ++ [tag] in
        if (2 <=? length relevantTags')%nat then relevantTags'
        else relevant_loop contentLower words rest relevantTags'
      else relevant_loop contentLower words rest relevantTags
  end.

(** [findRelevantExistingTags] of the later revision of the plugin. *)
Definition findRelevantExistingTags (existingTags : list jsstring)
    (content : jsstring) : list jsstring :=
  let contentLower := toLowerCase content in
  let words := split_words contentLower in
  relevant_loop contentLower words existingTags [].
End Relevance.

(** A vault's tags used as an example. *)
Definition vault_tags : list jsstring := [js "physics"; js "travel"; js "music"].

(* ================================================================== *)
(** * The settings tab *)
(* ================================================================== *)

Module SettingTab.
(** An entry of [PROVIDER_CONFIGS], main.ts lines 49-75. *)
Record ProviderConfig := {
  defaultUrl : jsstring;
  defaultModel : jsstring;
  models : list jsstring
}.

Definition PROVIDER_CONFIGS : gmap jsstring ProviderConfig :=
  <[ js "openai" :=
       {| defaultUrl := js "https://api.openai.com/v1/chat/completions";
          defaultModel := js "gpt-4o-mini";
          models := [js "gpt-4o-mini"; js "gpt-4o"; js "gpt-3.5-turbo"] |} ]>
  (<[ js "gemini" :=
       {| defaultUrl := js "https://generativelanguage.googleapis.com";
          defaultModel := js "gemini-1.5-flash";
          models := [js "gemini-1.5-flash"; js "gemini-2.0-flash"] |} ]>
  (<[ js "claude" :=
       {| defaultUrl := js "https://api.anthropic.com/v1/messages";
          defaultModel := js "claude-3-5-sonnet";
          models := [js "claude-3-5-sonnet"; js "claude-3-7-sonnet";
                     js "claude-3-opus"; js "claude-3-haiku"] |} ]>
  (<[ js "deepseek" :=
       {| defaultUrl := js "https://api.deepseek.com/v1/chat/completions";
          defaultModel := js "deepseek-chat";
          models := [js "deepseek-chat"; js "deepseek-reasoner"] |} ]>
  (<[ js "volcano" :=
       {| defaultUrl := js "https://ark.cn-beijing.volces.com/api/v3/chat/completions";
          defaultModel := [];
          models := [[]] |} ]> ∅)))).

(** [defaultPrompt] of [display], line 494. *)
Definition defaultPrompt : jsstring :=
  [20320; 26159; 19968; 20010; 25991; 26723; 26631; 31614; 29983; 25104;
   22120; 65292; 35831; 26681; 25454; 25991; 26723; 20869; 23481; 29983;
   25104; 26368; 22810; 32; 51; 32; 20010; 30456; 20851; 30340; 26631;
   31614; 12290; 21482; 38656; 36820; 22238; 26631; 31614; 65292; 29992;
   36887; 21495; 20998; 38548; 65292; 19981; 35201; 21253; 21547; 20854;
   20182; 35299; 37322; 25110; 35828; 26126; 12290]%N.

(** What the user does in the tab: one constructor for each control
    of [display] that writes to the settings.  The model keeps what
    the handlers read from and write to the settings.  What they do to
    the page (the loading class and the icon of a button,
    [showProviderInfo], [display]) and [saveSettings] is left out: a
    handler can stop or fail there, and then its writes to the
    settings have all been done or none has. *)
Inductive event :=
| SelectProvider (value : jsstring)
| InputApiKey (value : jsstring)
| InputApiUrl (value : jsstring)
| ResetApiUrl
| SelectPresetModel (value : jsstring)
| InputCustomModel (value : jsstring)
| InputCustomPrompt (value : jsstring)
| ResetCustomPrompt.

Definition set_provider (value : jsstring) (s : AutoTaggerSettings) : AutoTaggerSettings :=
  {| provider := value;
     providerSettings := providerSettings s;
     customPrompt := customPrompt s |}.

Definition set_customPrompt (value : jsstring) (s : AutoTaggerSettings) : AutoTaggerSettings :=
  {| provider := provider s;
     providerSettings := providerSettings s;
     customPrompt := value |}.

Definition set_entry (k : jsstring) (entry : ProviderSettings)
    (s : AutoTaggerSettings) : AutoTaggerSettings :=
  {| provider := provider s;
     providerSettings := <[ k := entry ]> (providerSettings s);
     customPrompt := customPrompt s |}.

(** [settings.providerSettings[settings.provider].field = ...]: the
    entry of the current provider is changed in place; a
    [TypeError] when there is no such entry. *)
Definition update_current (f : ProviderSettings → ProviderSettings)
    (s : AutoTaggerSettings) : outcome () * AutoTaggerSettings :=
  match providerSettings s !! provider s with
  | Some entry => (Ok (), set_entry (provider s) (f entry) s)
  | None => (Throw TypeError, s)
  end.

(** The provider drop-down, lines 330-350: the provider is switched
    first, then an entry is made from the defaults if there is none. *)
Definition select_provider (value : jsstring) (s : AutoTaggerSettings)
    : outcome () * AutoTaggerSettings :=
  let s := set_provider value s in
  match providerSettings s !! value with
  | Some _ => (Ok (), s)
  | None =>
      match PROVIDER_CONFIGS !! value with
      | Some config =>
          (Ok (), set_entry value {| ps_apiKey := [];
                                     ps_apiUrl := defaultUrl config;
                                     ps_model := defaultModel config |} s)
      | None => (Throw TypeError, s)
      end
  end.

(** The button that restores the default address, lines 426-427. *)
Definition reset_apiUrl (s : AutoTaggerSettings) : outcome () * AutoTaggerSettings :=
  match PROVIDER_CONFIGS !! provider s with
  | Some config =>
      update_current (λ entry, {| ps_apiKey := ps_apiKey entry;
                                  ps_apiUrl := defaultUrl config;
                                  ps_model := ps_model entry |}) s
  | None => (Throw TypeError, s)
  end.

Definition with_model (value : jsstring) (entry : ProviderSettings) : ProviderSettings :=
  {| ps_apiKey := ps_apiKey entry; ps_apiUrl := ps_apiUrl entry; ps_model := value |}.

(** The handlers, as far as the settings go.  An entry has no
    [customModel] (it is not a field of
    [ProviderSettings] and nothing assigns it), so the drop-down of
    preset models, lines 469-476, reads it as the empty string and
    stores the preset; the text field, lines 487-491, stores what was
    typed, trimmed. *)
Definition handle (e : event) (s : AutoTaggerSettings) : outcome () * AutoTaggerSettings :=
  match e with
  | SelectProvider value => select_provider value s
  | InputApiKey value =>
      update_current (λ entry, {| ps_apiKey := value;
                                  ps_apiUrl := ps_apiUrl entry;
                                  ps_model := ps_model entry |}) s
  | InputApiUrl value =>
      update_current (λ entry, {| ps_apiKey := ps_apiKey entry;
                                  ps_apiUrl := value;
                                  ps_model := ps_model entry |}) s
  | ResetApiUrl => reset_apiUrl s
  | SelectPresetModel value => update_current (with_model value) s
  | InputCustomModel value => update_current (with_model (trim value)) s
  | InputCustomPrompt value => (Ok (), set_customPrompt value s)
  | ResetCustomPrompt => (Ok (), set_customPrompt defaultPrompt s)
  end.

(** A session in the tab: the events whose handlers reached the
    settings, handled one after the other; an access that fails does
    not stop the later handlers.  The result is the errors of the
    accesses to the settings and the settings at the end. *)
Fixpoint run (events : list event) (s : AutoTaggerSettings)
    : list exn * AutoTaggerSettings :=
  match events with
  | [] => ([], s)
  | e :: rest =>
      let '(result, s') := handle e s in
      let '(errors, s'') := run rest s' in
      (match result with Throw x => x :: errors | Ok _ => errors end, s'')
  end.

Definition is_select (e : event) : bool :=
  match e with SelectProvider _ => true | _ => false end.

(** The drop-down offers the keys of [PROVIDER_CONFIGS] only. *)
Definition offered (e : event) : bool :=
  match e with
  | SelectProvider value => bool_decide (is_Some (PROVIDER_CONFIGS !! value))
  | _ => true
  end.

(** What the handlers keep: the current provider is one of
    [PROVIDER_CONFIGS] and has an entry. *)
Definition well_formed (s : AutoTaggerSettings) : Prop :=
  is_Some (PROVIDER_CONFIGS !! provider s) ∧
  is_Some (providerSettings s !! provider s).
End SettingTab.

(** Settings used as an example: the OpenAI provider selected, with a
    key filled in. *)
Definition openai_settings_with_key : AutoTaggerSettings :=
  {| provider := js "openai";
     providerSettings :=
       {[ js "openai" :=
            {| ps_apiKey := js "sk-1";
               ps_apiUrl := js "https://api.openai.com/v1/chat/completions";
               ps_model := js "gpt-4o-mini" |} ]};
     customPrompt := SettingTab.defaultPrompt |}.

(* ================================================================== *)
(** * Properties *)
(* ================================================================== *)

Lemma Qgtb_true a b : Qgtb a b = true ↔ (b < a)%Q.
Proof.
  unfold Qgtb. rewrite negb_true_iff, <- not_true_iff_false, Qle_bool_iff.
  split; [apply Qnot_le_lt | apply Qlt_not_le].
Qed.

Lemma Qgtb_false a b : Qgtb a b = false ↔ (a <= b)%Q.
Proof.
  unfold Qgtb. rewrite negb_false_iff. apply Qle_bool_iff.
Qed.

Section SetFacts.
Implicit Types l acc : list N.

Lemma Set_has_true s x : Set_has s x = true ↔ x ∈ s.
Proof. unfold Set_has. apply bool_decide_eq_true. Qed.

Lemma elem_of_foldl_Set_add l : ∀ acc x,
  x ∈ foldl Set_add acc l ↔ x ∈ acc ∨ x ∈ l.
Proof.
  induction l as [|y l IH]; intros acc x; simpl.
  - rewrite elem_of_nil. tauto.
  - rewrite IH, elem_of_cons. unfold Set_add.
    destruct (Set_has acc y) eqn:E.
    + apply Set_has_true in E. split; [tauto|].
      intros [?|[->|?]]; auto.
    + rewrite elem_of_app, list_elem_of_singleton. tauto.
Qed.

Lemma NoDup_foldl_Set_add l : ∀ acc, NoDup acc → NoDup (foldl Set_add acc l).
Proof.
  induction l as [|y l IH]; intros acc Hacc; simpl; [done|].
  apply IH. unfold Set_add. destruct (Set_has acc y) eqn:E; [done|].
  apply NoDup_app. split_and!; [done| |apply NoDup_singleton].
  intros x Hx ->%list_elem_of_singleton.
  apply Set_has_true in Hx. congruence.
Qed.

Lemma elem_of_new_Set l x : x ∈ new_Set l ↔ x ∈ l.
Proof.
  unfold new_Set. rewrite elem_of_foldl_Set_add, elem_of_nil. tauto.
Qed.

Lemma NoDup_new_Set l : NoDup (new_Set l).
Proof. apply NoDup_foldl_Set_add, NoDup_nil_2. Qed.

Lemma new_Set_nil_inv l : new_Set l = [] → l = [].
Proof.
  destruct l as [|x l]; [done|]. intros E.
  assert (x ∈ new_Set (x :: l)) as Hx by (apply elem_of_new_Set; left).
  rewrite E in Hx. by apply elem_of_nil in Hx.
Qed.

Lemma size_new_Set l : length (new_Set l) = size (list_to_set l : gset N).
Proof.
  rewrite <- (size_list_to_set (C:=gset N) (new_Set l)) by apply NoDup_new_Set.
  f_equal. apply set_eq. intros x.
  by rewrite !elem_of_list_to_set, elem_of_new_Set.
Qed.

Lemma inter_size_gset l1 l2 :
  inter_size l1 l2 = size ((list_to_set l1 : gset N) ∩ list_to_set l2).
Proof.
  unfold inter_size. rewrite size_new_Set. f_equal.
  apply set_eq. intros x.
  rewrite elem_of_list_to_set, list_elem_of_filter, Set_has_true,
    !elem_of_new_Set, elem_of_intersection, !elem_of_list_to_set.
  tauto.
Qed.

Lemma inter_size_comm l1 l2 : inter_size l1 l2 = inter_size l2 l1.
Proof. rewrite !inter_size_gset. f_equal. set_solver. Qed.

Lemma inter_size_le_l l1 l2 : inter_size l1 l2 ≤ length (new_Set l1).
Proof.
  rewrite inter_size_gset, size_new_Set.
  apply subseteq_size. set_solver.
Qed.
End SetFacts.

Section ReconcilerFacts.
Context `{LowerCase}.
Implicit Types a b c e : jsstring.

Lemma calculateSimilarity_eq a b :
  calculateSimilarity a b =
    if bool_decide (toLowerCase a = toLowerCase b) then 1%Q
    else (inject_Z (Z.of_nat (inter_size (toLowerCase a) (toLowerCase b)))
          / inject_Z (Z.max (Set_size (new_Set (toLowerCase a)))
                            (Set_size (new_Set (toLowerCase b)))))%Q.
Proof. reflexivity. Qed.

(** The division is never 0/0: the sets are both empty only when the
    lowercased strings are equal, and that case returned 1.0 before. *)
Lemma calculateSimilarity_divisor_pos a b :
  toLowerCase a ≠ toLowerCase b →
  (0 < Z.max (Set_size (new_Set (toLowerCase a)))
             (Set_size (new_Set (toLowerCase b))))%Z.
Proof.
  intros Hne. unfold Set_size.
  destruct (new_Set (toLowerCase a)) as [|x s1] eqn:E1;
    destruct (new_Set (toLowerCase b)) as [|y s2] eqn:E2; simpl; try lia.
  apply new_Set_nil_inv in E1, E2. congruence.
Qed.

Lemma calculateSimilarity_refl a : calculateSimilarity a a = 1%Q.
Proof. rewrite calculateSimilarity_eq. by rewrite bool_decide_eq_true_2. Qed.

Lemma calculateSimilarity_sym a b :
  calculateSimilarity a b = calculateSimilarity b a.
Proof.
  rewrite !calculateSimilarity_eq.
  destruct (decide (toLowerCase a = toLowerCase b)) as [E|N].
  - by rewrite !bool_decide_eq_true_2.
  - rewrite !bool_decide_eq_false_2 by congruence.
    by rewrite inter_size_comm, Z.max_comm.
Qed.

Lemma calculateSimilarity_range a b :
  (0 <= calculateSimilarity a b)%Q ∧ (calculateSimilarity a b <= 1)%Q.
Proof.
  rewrite calculateSimilarity_eq. case_bool_decide as E.
  - split; by compute.
  - pose proof (calculateSimilarity_divisor_pos a b E) as Hpos.
    pose proof (inter_size_le_l (toLowerCase a) (toLowerCase b)) as Hle.
    set (n := inter_size _ _) in *.
    set (m := Z.max _ _) in *.
    assert (Z.of_nat n ≤ m)%Z as Hnm by (unfold m, Set_size; lia).
    assert (0 < inject_Z m)%Q as HmQ by (unfold Qlt; simpl; lia).
    split.
    + apply Qle_shift_div_l; [done|]. rewrite Qmult_0_l.
      unfold Qle; simpl; lia.
    + apply Qle_shift_div_r; [done|]. rewrite Qmult_1_l.
      unfold Qle; simpl; lia.
Qed.

Lemma calculateSimilarity_spec a b :
  calculateSimilarity a b = similarity_spec a b.
Proof.
  rewrite calculateSimilarity_eq. unfold similarity_spec, Set_size.
  rewrite inter_size_gset, !size_new_Set.
  case_bool_decide; case_decide; try done.
  by rewrite Nat2Z.inj_max.
Qed.
End ReconcilerFacts.

(** C2.  The similarity score is reflexive (a string scores 1 against
    itself), symmetric, and lies in the closed interval [0,1]; it is the
    score of the specification: both strings lowercased, the sets of their
    unique characters built, |intersection| / max(|set1|,|set2|) returned,
    and identical strings scoring 1. *)
Theorem calculateSimilarity_reflexive_symmetric_bounded `{LowerCase} :
  (∀ a : jsstring, calculateSimilarity a a = 1%Q) ∧
  (∀ a b : jsstring, calculateSimilarity a b = calculateSimilarity b a) ∧
  (∀ a b : jsstring,
     (0 <= calculateSimilarity a b)%Q ∧ (calculateSimilarity a b <= 1)%Q) ∧
  (∀ a b : jsstring, calculateSimilarity a b = similarity_spec a b).
Proof.
  split_and!.
  - apply calculateSimilarity_refl.
  - apply calculateSimilarity_sym.
  - apply calculateSimilarity_range.
  - apply calculateSimilarity_spec.
Qed.

Section FindSimilarFacts.
Context `{LowerCase}.
Implicit Types c e : jsstring.
Implicit Types tags : list jsstring.

Lemma threshold_pos : (0 < similarityThreshold)%Q.
Proof. reflexivity. Qed.

Lemma scanned_step c tags st x :
  scanned c tags st → scanned c (tags ++ [x]) (similar_step c st x).
Proof.
  intros Hst. unfold similar_step.
  destruct (Qgtb (calculateSimilarity c x) similarityThreshold) eqn:Ethr;
    [apply Qgtb_true in Ethr | apply Qgtb_false in Ethr]; simpl.
  - destruct (Qgtb (calculateSimilarity c x) (snd st)) eqn:Ehi;
      [apply Qgtb_true in Ehi | apply Qgtb_false in Ehi].
    + (* the new tag becomes the running maximum *)
      apply (scanned_some c (tags ++ [x]) (length tags) x); [|done| |].
      * by rewrite lookup_app_r, Nat.sub_diag by lia.
      * intros j e' Hj Hlook. rewrite lookup_app_l in Hlook by done.
        apply list_elem_of_lookup_2 in Hlook.
        destruct Hst as [Hall|i e _ _ _ Hall]; simpl in Ehi.
        -- eapply Qle_lt_trans; [by apply Hall|done].
        -- eapply Qle_lt_trans; [by apply Hall|done].
      * intros e' [Hin| ->%list_elem_of_singleton]%elem_of_app;
          [|apply Qle_refl].
        destruct Hst as [Hall|i e _ _ _ Hall]; simpl in Ehi.
        -- apply Qlt_le_weak. eapply Qle_lt_trans; [by apply Hall|done].
        -- apply Qlt_le_weak. eapply Qle_lt_trans; [by apply Hall|done].
    + (* above the threshold but not above the running maximum *)
      destruct Hst as [Hall|i e Hi Hthr Hbefore Hall]; simpl in Ehi.
      * exfalso. apply (Qlt_irrefl 0).
        eapply Qlt_le_trans; [|exact Ehi].
        eapply Qlt_trans; [apply threshold_pos|done].
      * apply (scanned_some c (tags ++ [x]) i e); [|done|..].
        -- rewrite lookup_app_l; [done|]. by eapply lookup_lt_Some.
        -- intros j e' Hj Hlook. apply (Hbefore j e' Hj).
           rewrite lookup_app_l in Hlook; [done|].
           apply lookup_lt_Some in Hi. lia.
        -- intros e' [Hin| ->%list_elem_of_singleton]%elem_of_app; auto.
  - (* not above the threshold *)
    destruct Hst as [Hall|i e Hi Hthr Hbefore Hall].
    + apply scanned_none.
      intros e' [Hin| ->%list_elem_of_singleton]%elem_of_app; auto.
    + apply (scanned_some c (tags ++ [x]) i e); [|done|..].
      * rewrite lookup_app_l; [done|]. by eapply lookup_lt_Some.
      * intros j e' Hj Hlook. apply (Hbefore j e' Hj).
        rewrite lookup_app_l in Hlook; [done|].
        apply lookup_lt_Some in Hi. lia.
      * intros e' [Hin| ->%list_elem_of_singleton]%elem_of_app; auto.
        apply Qlt_le_weak. eapply Qle_lt_trans; done.
Qed.

Lemma scanned_foldl c tags :
  scanned c tags (foldl (similar_step c) (None, 0%Q) tags).
Proof.
  induction tags as [|x tags IH] using rev_ind.
  - apply scanned_none. intros e Hin. by apply elem_of_nil in Hin.
  - rewrite foldl_app. simpl. by apply scanned_step.
Qed.

Lemma findSimilarExistingTag_foldl c tags :
  findSimilarExistingTag (Some tags) c
  = fst (foldl (similar_step c) (None, 0%Q) tags).
Proof. by destruct tags. Qed.

(** No existing tag above the threshold: the loop finds nothing. *)
Lemma findSimilarExistingTag_None c tags :
  (∀ e, e ∈ tags → (calculateSimilarity c e <= similarityThreshold)%Q) →
  findSimilarExistingTag (Some tags) c = None.
Proof.
  intros Hall. rewrite findSimilarExistingTag_foldl.
  destruct (scanned_foldl c tags) as [_|i e Hi Hthr _ _]; [done|].
  exfalso. apply (Qlt_irrefl similarityThreshold).
  eapply Qlt_le_trans; [done|]. apply Hall. by eapply list_elem_of_lookup_2.
Qed.

(** Some existing tag above the threshold: the loop returns the first
    tag that attains the maximum. *)
Lemma findSimilarExistingTag_Some c tags e0 :
  e0 ∈ tags → (similarityThreshold < calculateSimilarity c e0)%Q →
  ∃ i e, findSimilarExistingTag (Some tags) c = Some e ∧
    tags !! i = Some e ∧
    (similarityThreshold < calculateSimilarity c e)%Q ∧
    (∀ j e', j < i → tags !! j = Some e' →
       (calculateSimilarity c e' < calculateSimilarity c e)%Q) ∧
    (∀ e', e' ∈ tags → (calculateSimilarity c e' <= calculateSimilarity c e)%Q).
Proof.
  intros Hin Hthr. rewrite findSimilarExistingTag_foldl.
  destruct (scanned_foldl c tags) as [Hall|i e Hi Hthr' Hbefore Hall].
  - exfalso. apply (Qlt_irrefl similarityThreshold).
    eapply Qlt_le_trans; [done|]. by apply Hall.
  - by exists i, e.
Qed.

(** Only the empty candidate is similar to the empty existing tag. *)
Lemma similar_to_empty c :
  (similarityThreshold < calculateSimilarity c [])%Q → c = [].
Proof.
  rewrite calculateSimilarity_eq. case_bool_decide as E.
  - intros _. apply toLowerCase_empty. rewrite E. by apply toLowerCase_empty.
  - intros Hlt. exfalso.
    replace (toLowerCase []) with (@nil N) in Hlt
      by (symmetry; by apply toLowerCase_empty).
    assert (inter_size (toLowerCase c) [] = 0) as E0.
    { rewrite inter_size_gset. simpl.
      by rewrite intersection_empty_r_L, size_empty. }
    rewrite E0 in Hlt. unfold Qdiv in Hlt. rewrite Qmult_0_l in Hlt. by compute in Hlt.
Qed.

Lemma or_tag_found c e :
  (similarityThreshold < calculateSimilarity c e)%Q → or_tag (Some e) c = e.
Proof.
  destruct e as [|u e]; [|done]. by intros ->%similar_to_empty.
Qed.
End FindSimilarFacts.

(** C1.  Reconciliation maps every candidate on its own and in order (the
    output has the candidates' length, position by position).  A candidate
    for which some existing tag scores strictly above 0.7 is replaced, at
    its position, by an existing tag whose score is the maximum over all
    existing tags; a candidate for which no existing tag scores above 0.7
    is kept unchanged.  On candidates ["Golang","databases"] and existing
    tags ["golang","storage"] the output is ["golang","databases"]. *)
Theorem reconcile_substitutes_most_similar `{LowerCase} :
  (∀ (existing candidates : list jsstring),
     length (reconcile (Some existing) candidates) = length candidates ∧
     ∀ i c, candidates !! i = Some c →
       ((∃ e, e ∈ existing ∧ (similarityThreshold < calculateSimilarity c e)%Q) →
        ∃ e, reconcile (Some existing) candidates !! i = Some e ∧
             e ∈ existing ∧
             (similarityThreshold < calculateSimilarity c e)%Q ∧
             ∀ e', e' ∈ existing →
               (calculateSimilarity c e' <= calculateSimilarity c e)%Q) ∧
       ((∀ e, e ∈ existing →
           ¬ (similarityThreshold < calculateSimilarity c e)%Q) →
        reconcile (Some existing) candidates !! i = Some c)) ∧
  reconcile (H := ascii_lower) (Some [js "golang"; js "storage"])
    [js "Golang"; js "databases"] = [js "golang"; js "databases"].
Proof.
  split; [|by vm_compute].
  intros existing candidates. unfold reconcile at 1.
  split; [by rewrite length_map|].
  intros i c Hc. unfold reconcile. rewrite list_lookup_fmap, Hc.
  change (?f <$> Some c) with (Some (f c)). cbv beta.
  split.
  - intros (e0 & Hin & Hthr).
    destruct (findSimilarExistingTag_Some c existing e0 Hin Hthr)
      as (k & e & -> & Hk & Hthr' & _ & Hmax).
    exists e. rewrite or_tag_found by done.
    split_and!; try done. by eapply list_elem_of_lookup_2.
  - intros Hnone. rewrite findSimilarExistingTag_None; [done|].
    intros e Hin. apply Qnot_lt_le. by apply Hnone.
Qed.

Lemma reconcile_substitutes_most_similar_witness :
  reconcile (H := ascii_lower) (Some [js "golang"; js "storage"])
    [js "Golang"; js "databases"] !! 1 = Some (js "databases").
Proof.
  destruct (proj1 (reconcile_substitutes_most_similar (H := ascii_lower))
              [js "golang"; js "storage"] [js "Golang"; js "databases"])
    as [_ Hat].
  apply (Hat 1 (js "databases") eq_refl).
  intros e Hin. rewrite !elem_of_cons, elem_of_nil in Hin.
  destruct Hin as [->|[->|[]]]; by vm_compute.
Defined.

(** C10.  When several existing tags attain the maximal similarity, and
    that maximum is strictly above 0.7, the tag substituted for the
    candidate is the earliest of them in the order of the list: the tag at
    the first index whose score is the maximum.  A later tag with the same
    score never displaces it. *)
Theorem findSimilarExistingTag_earliest_maximum `{LowerCase}
    (c : jsstring) (existing : list jsstring) (i : nat) (e : jsstring) :
  existing !! i = Some e →
  (similarityThreshold < calculateSimilarity c e)%Q →
  (∀ e', e' ∈ existing →
     (calculateSimilarity c e' <= calculateSimilarity c e)%Q) →
  (∀ j e', j < i → existing !! j = Some e' →
     ¬ (calculateSimilarity c e' == calculateSimilarity c e)%Q) →
  findSimilarExistingTag (Some existing) c = Some e ∧
  reconcile (Some existing) [c] = [e].
Proof.
  intros Hi Hthr Hmax Hfirst.
  assert (findSimilarExistingTag (Some existing) c = Some e) as Hfound.
  { destruct (findSimilarExistingTag_Some c existing e) as
      (k & e0 & -> & Hk & _ & Hbefore & Hmax0); [|done|].
    { by eapply list_elem_of_lookup_2. }
    f_equal.
    destruct (Nat.lt_trichotomy k i) as [Hlt|[->|Hgt]].
    - exfalso. apply (Hfirst k e0 Hlt Hk). apply Qle_antisym.
      + apply Hmax. by eapply list_elem_of_lookup_2.
      + apply Hmax0. by eapply list_elem_of_lookup_2.
    - congruence.
    - exfalso. apply (Qlt_irrefl (calculateSimilarity c e)).
      eapply Qlt_le_trans; [by apply (Hbefore i e)|].
      apply Hmax. by eapply list_elem_of_lookup_2. }
  split; [done|].
  unfold reconcile. cbn [map]. rewrite Hfound. by rewrite or_tag_found.
Qed.

(** Two existing tags with the candidate's character set both score 1.0;
    the first one is taken. *)
Lemma findSimilarExistingTag_earliest_maximum_witness :
  findSimilarExistingTag (H := ascii_lower) (Some [js "xyz"; js "cab"; js "bca"]) (js "abc")
    = Some (js "cab") ∧
  reconcile (H := ascii_lower) (Some [js "xyz"; js "cab"; js "bca"]) [js "abc"]
    = [js "cab"].
Proof.
  apply (findSimilarExistingTag_earliest_maximum (js "abc")
           [js "xyz"; js "cab"; js "bca"] 1 (js "cab")).
  - reflexivity.
  - by vm_compute.
  - intros e' Hin. rewrite !elem_of_cons, elem_of_nil in Hin.
    destruct Hin as [->|[->|[->|[]]]]; by vm_compute.
  - intros j e' Hj Hlook. destruct j as [|[|j]]; [|lia|lia].
    injection Hlook as <-. by vm_compute.
Defined.

(* ------------------------------------------------------------------ *)
(** ** Splitting and trimming *)

Section StringFacts.
Implicit Types s p q r : jsstring.

Lemma is_space_comma : is_space comma = false.
Proof. reflexivity. Qed.

Lemma trimStart_all_space p :
  forallb is_space p = true → trimStart p = [].
Proof.
  induction p as [|c p IH]; simpl; [done|].
  destruct (is_space c); [exact IH|done].
Qed.

Lemma trimStart_app p q :
  trimStart (p ++ q) =
    if forallb is_space p then trimStart q else trimStart p ++ q.
Proof.
  induction p as [|c p IH]; simpl; [done|].
  destruct (is_space c); simpl; [exact IH|done].
Qed.

Lemma trim_cons_space x p : is_space x = true → trim (x :: p) = trim p.
Proof.
  intros Hx. unfold trim, trimEnd.
  rewrite reverse_cons, trimStart_app.
  destruct (forallb is_space (reverse p)) eqn:E.
  - rewrite (trimStart_all_space _ E). simpl. by rewrite Hx.
  - rewrite reverse_app. simpl. by rewrite Hx.
Qed.

Lemma trim_snoc_space x p : is_space x = true → trim (p ++ [x]) = trim p.
Proof.
  intros Hx. unfold trim, trimEnd.
  rewrite reverse_app. simpl. by rewrite Hx.
Qed.

Lemma split_cons_other sep c s :
  c ≠ sep →
  ∃ p ps, split sep s = p :: ps ∧ split sep (c :: s) = (c :: p) :: ps.
Proof.
  intros Hc. simpl. rewrite bool_decide_eq_false_2 by done.
  destruct s as [|d s]; simpl; [by eexists _, _|].
  case_bool_decide; [by eexists _, _|].
  destruct (split sep s) as [|p ps]; by eexists _, _.
Qed.

Lemma split_snoc sep s x :
  x ≠ sep →
  ∃ ps p, split sep s = ps ++ [p] ∧ split sep (s ++ [x]) = ps ++ [p ++ [x]].
Proof.
  intros Hx. induction s as [|c s (ps & p & E1 & E2)].
  - exists [], []. simpl. by rewrite bool_decide_eq_false_2.
  - simpl. rewrite E1, E2. case_bool_decide.
    + by exists ([] :: ps), p.
    + destruct ps as [|q qs]; simpl.
      * by exists [], (c :: p).
      * by exists ((c :: q) :: qs), p.
Qed.

Lemma map_trim_split_cons_space x s :
  is_space x = true →
  map trim (split comma (x :: s)) = map trim (split comma s).
Proof.
  intros Hx.
  destruct (split_cons_other comma x s) as (p & ps & -> & ->).
  { intros ->. by rewrite is_space_comma in Hx. }
  simpl. by rewrite trim_cons_space.
Qed.

Lemma map_trim_split_snoc_space x s :
  is_space x = true →
  map trim (split comma (s ++ [x])) = map trim (split comma s).
Proof.
  intros Hx.
  destruct (split_snoc comma s x) as (ps & p & -> & ->).
  { intros ->. by rewrite is_space_comma in Hx. }
  rewrite !map_app. simpl. by rewrite trim_snoc_space.
Qed.

Lemma map_trim_split_trimStart s :
  map trim (split comma (trimStart s)) = map trim (split comma s).
Proof.
  induction s as [|c s IH]; [done|].
  cbn [trimStart]. destruct (is_space c) eqn:E; [|done].
  by rewrite map_trim_split_cons_space.
Qed.

Lemma map_trim_split_trimEnd s :
  map trim (split comma (trimEnd s)) = map trim (split comma s).
Proof.
  unfold trimEnd. rewrite <- (reverse_involutive s) at 2.
  induction (reverse s) as [|c r IH]; [done|].
  cbn [trimStart]. destruct (is_space c) eqn:E; [|done].
  by rewrite reverse_cons, map_trim_split_snoc_space.
Qed.

(** Trimming the whole text first changes nothing: the outer white
    space would be trimmed off the first and the last piece anyway. *)
Lemma split_tags_trim s : split_tags (trim s) = split_tags s.
Proof.
  unfold split_tags, trim.
  by rewrite map_trim_split_trimStart, map_trim_split_trimEnd.
Qed.

Lemma split_no_sep sep s p : p ∈ split sep s → sep ∉ p.
Proof.
  revert p. induction s as [|c s IH]; intros p; simpl.
  - intros ->%list_elem_of_singleton. apply not_elem_of_nil.
  - case_bool_decide as Hc.
    + intros [->|Hin]%elem_of_cons; [apply not_elem_of_nil|by apply IH].
    + destruct (split sep s) as [|q qs].
      * intros ->%list_elem_of_singleton.
        rewrite list_elem_of_singleton. congruence.
      * intros [->|Hin]%elem_of_cons.
        -- rewrite not_elem_of_cons. split; [congruence|].
           apply IH. left.
        -- apply IH. by right.
Qed.

Lemma trimStart_elem c s : c ∈ trimStart s → c ∈ s.
Proof.
  induction s as [|d s IH]; simpl; [done|].
  destruct (is_space d); [|done]. intros ?. right. by apply IH.
Qed.

Lemma trim_elem c s : c ∈ trim s → c ∈ s.
Proof.
  unfold trim, trimEnd. intros Hc%trimStart_elem.
  rewrite elem_of_reverse in Hc. apply trimStart_elem in Hc.
  by rewrite elem_of_reverse in Hc.
Qed.

Lemma trimStart_head s :
  trimStart s = [] ∨ ∃ c r, trimStart s = c :: r ∧ is_space c = false.
Proof.
  induction s as [|d s IH]; simpl; [by left|].
  destruct (is_space d) eqn:E; [exact IH|]. right. by exists d, s.
Qed.

(** Every tag produced is non-empty and free of white space and of
    commas. *)
Lemma split_tags_clean text tag :
  tag ∈ split_tags text →
  tag ≠ [] ∧ ∀ c, c ∈ tag → is_space c = false ∧ c ≠ comma.
Proof.
  unfold split_tags.
  intros (t & -> & Ht)%list_elem_of_fmap.
  apply list_elem_of_filter in Ht as [Htruthy Ht].
  apply list_elem_of_fmap in Ht as (p & -> & Hp).
  split.
  - destruct (trimStart_head (trimEnd p)) as [E|(c & r & E & Hc)];
      fold (trim p) in E; rewrite E in Htruthy |- *; [done|].
    unfold remove_spaces. by rewrite filter_cons_True.
  - intros c [Hsp Hc]%list_elem_of_filter. split; [done|].
    intros ->. by apply (split_no_sep comma text p Hp), trim_elem.
Qed.
End StringFacts.

(* ------------------------------------------------------------------ *)
(** ** Parsing the response *)

Section ParseFacts.
Implicit Types data : json.
Implicit Types provider text : jsstring.

Lemma opt_named_get (v : value) k :
  opt_named v k = match v with Some x => get_named x k | None => None end.
Proof. by destruct v as [[]|]. Qed.

Lemma opt_first_get (v : value) :
  opt_first v = match v with Some x => get_first x | None => None end.
Proof. by destruct v as [[]|]. Qed.

(** On a body that is not [null], the optional chain of [parseResponse]
    reads the value at the provider's extraction path. *)
Lemma text_field_json_at data provider :
  data ≠ JNull →
  text_field data provider = Ok (json_at (expected_path provider) data).
Proof.
  intros Hdata. unfold text_field, expected_path.
  case_bool_decide.
  - assert (member data (js "candidates") = Ok (get_named data (js "candidates")))
      as -> by by destruct data.
    f_equal. cbn [json_at].
    rewrite !opt_named_get, !opt_first_get.
    repeat (match goal with
            | |- context [get_named ?a ?k] => destruct (get_named a k)
            | |- context [get_first ?a] => destruct (get_first a)
            end; try done).
  - assert (member data (js "choices") = Ok (get_named data (js "choices")))
      as -> by by destruct data.
    f_equal. cbn [json_at].
    rewrite !opt_named_get, !opt_first_get.
    repeat (match goal with
            | |- context [get_named ?a ?k] => destruct (get_named a k)
            | |- context [get_first ?a] => destruct (get_first a)
            end; try done).
Qed.

Lemma json_at_null provider : json_at (expected_path provider) JNull = None.
Proof. unfold expected_path. by case_bool_decide. Qed.

Lemma split_tags_empty : split_tags [] = [].
Proof. reflexivity. Qed.

Lemma or_empty_Some s : or_empty (Some s) = s.
Proof. by destruct s. Qed.

Lemma parseResponse_string data provider text :
  json_at (expected_path provider) data = Some (JStr text) →
  parseResponse data provider = Ok (split_tags text).
Proof.
  intros Hat. unfold parseResponse.
  rewrite text_field_json_at, Hat.
  - cbn [opt_trim]. by rewrite or_empty_Some, split_tags_trim.
  - intros ->. by rewrite json_at_null in Hat.
Qed.

Lemma parseResponse_absent data provider :
  data ≠ JNull →
  nullish (json_at (expected_path provider) data) = true →
  parseResponse data provider = Ok [].
Proof.
  intros Hdata Hat. unfold parseResponse.
  rewrite text_field_json_at by done.
  by destruct (json_at _ data) as [[]|].
Qed.

Lemma parseResponse_null provider :
  parseResponse JNull provider = Throw (Error msg_parse_failed).
Proof. unfold parseResponse, text_field. by case_bool_decide. Qed.

Lemma parseResponse_not_string data provider x :
  json_at (expected_path provider) data = Some x →
  x ≠ JNull → (∀ s, x ≠ JStr s) →
  parseResponse data provider = Throw (Error msg_parse_failed).
Proof.
  intros Hat Hnull Hstr. unfold parseResponse.
  rewrite text_field_json_at, Hat.
  - destruct x; try done. by destruct (Hstr s).
  - intros ->. by rewrite json_at_null in Hat.
Qed.

Lemma parseResponse_throws data provider e :
  parseResponse data provider = Throw e → e = Error msg_parse_failed.
Proof.
  unfold parseResponse.
  destruct (text_field data provider) as [v|]; [|congruence].
  destruct (opt_trim v); congruence.
Qed.
End ParseFacts.

(** C5.  When the provider's text field holds a string, [parseResponse]
    returns that text split on commas, each piece trimmed, the empty
    pieces dropped and the white space inside the remaining pieces
    removed; so every tag returned is non-empty and contains neither
    white space nor a comma.  The body
    {"choices":[{"message":{"content":"ai, tags, golang"}}]} gives
    ["ai","tags","golang"], and the text "machine learning, nlp" gives
    ["machinelearning","nlp"], in the OpenAI and in the Gemini shape. *)
Theorem parseResponse_splits_trims_strips :
  (∀ (data : json) (provider text : jsstring),
     json_at (expected_path provider) data = Some (JStr text) →
     parseResponse data provider
       = Ok (map remove_spaces
               (filter (λ piece, piece ≠ [])
                  (map trim (split comma text)))) ∧
     ∀ tags tag, parseResponse data provider = Ok tags → tag ∈ tags →
       tag ≠ [] ∧ ∀ c, c ∈ tag → is_space c = false ∧ c ≠ comma) ∧
  parseResponse (openai_body (js "ai, tags, golang")) (js "openai")
    = Ok [js "ai"; js "tags"; js "golang"] ∧
  parseResponse (openai_body (js "machine learning, nlp")) (js "openai")
    = Ok [js "machinelearning"; js "nlp"] ∧
  parseResponse (gemini_body (js "machine learning, nlp")) (js "gemini")
    = Ok [js "machinelearning"; js "nlp"].
Proof.
  split_and!; try by vm_compute.
  intros data provider text Hat.
  rewrite (parseResponse_string _ _ _ Hat). split.
  - unfold split_tags. do 2 f_equal.
    induction (map trim (split comma text)) as [|p l IH]; [done|].
    destruct p; [by rewrite !filter_cons_False by (simpl; congruence)|].
    rewrite !filter_cons_True by done. by rewrite IH.
  - intros tags tag [= <-]. apply split_tags_clean.
Qed.

Lemma parseResponse_splits_trims_strips_witness :
  parseResponse (openai_body (js " go lang ,, web dev ")) (js "openai")
    = Ok [js "golang"; js "webdev"].
Proof.
  destruct (proj1 parseResponse_splits_trims_strips
              (openai_body (js " go lang ,, web dev ")) (js "openai")
              (js " go lang ,, web dev ") eq_refl) as [-> _].
  by vm_compute.
Defined.

(* ------------------------------------------------------------------ *)
(** ** The executor and the orchestrator *)

Section ExecutorFacts.
Implicit Types w : world.
Implicit Types net : network.

Lemma fetch_world net req w :
  let w' := snd (fetch net req w) in
  calls w' = calls w ++ [req] ∧ slept w' = slept w ∧
  (now w ≤ now w')%N ∧ (now w' ≤ now w + TIMEOUT)%N.
Proof.
  unfold fetch. destruct (net _ req) as [latency result|]; simpl.
  - destruct (latency <? TIMEOUT)%N eqn:E; simpl; split_and!; try done; try lia.
    apply N.ltb_lt in E. lia.
  - split_and!; try done; lia.
Qed.

Lemma makeRequest_world net req w :
  snd (makeRequest net req w) = snd (fetch net req w).
Proof.
  unfold makeRequest. destruct (fetch net req w) as [fetched w'].
  destruct fetched as [response|e]; simpl.
  - destruct (check_response response) as [|e]; [done|]. by destruct (is_abort e).
  - by destruct (is_abort e).
Qed.

Lemma generateTags_world `{LowerCase} net config content w :
  snd (generateTags net config content w)
  = snd (fetch net (buildRequest config content) w).
Proof.
  unfold generateTags. rewrite <- makeRequest_world.
  destruct (makeRequest net _ w) as [[response|e] w']; [|done].
  destruct (json_body response) as [data|]; [|done].
  by destruct (parseResponse data _).
Qed.

Lemma retryable_inv e :
  retryable e = true → ∃ m st, e = RequestError m st ∧ (500 ≤ st)%Z.
Proof.
  destruct e as [m st| | | | | |]; try done.
  intros Hst%Z.leb_le. by exists m, st.
Qed.

Lemma fetch_expired net req w :
  (net (length (calls w)) req = Hangs ∨
   ∃ latency result, net (length (calls w)) req = Settles latency result ∧
                     (TIMEOUT < latency)%N) →
  fetch net req w =
    (Throw AbortError,
     {| now := (now w + TIMEOUT)%N; calls := calls w ++ [req]; slept := slept w |}).
Proof.
  unfold fetch. intros [->|(latency & result & -> & Hlate)]; [done|].
  by rewrite (proj2 (N.ltb_ge latency TIMEOUT)) by lia.
Qed.
End ExecutorFacts.

(** A body without the expected field, in either shape, is not an error. *)
Lemma parseResponse_absent_field_not_failure :
  json_at (expected_path (js "openai")) (JObj []) = None ∧
  parseResponse (JObj []) (js "openai") = Ok [] ∧
  json_at (expected_path (js "gemini")) (JObj [(js "candidates", JArr [])]) = None ∧
  parseResponse (JObj [(js "candidates", JArr [])]) (js "gemini") = Ok [] ∧
  ¬ (∀ data provider,
       json_at (expected_path provider) data = None →
       ∃ e, parseResponse data provider = Throw e).
Proof.
  split_and!; try by vm_compute.
  intros Hclaim.
  destruct (Hclaim (JObj []) (js "openai") eq_refl) as [e He].
  by vm_compute in He.
Qed.

(** C4, as the code has it.  On a body other than [null] whose expected
    text field is absent (nothing at [choices[0].message.content], or at
    [candidates[0].content.parts[0].text] for Gemini), [parseResponse]
    returns the empty list of tags and raises nothing.  It fails on the
    body [null], and every failure of [parseResponse] is the one error
    "解析 AI 响应失败", which is not a retryable error; [generateTags]
    sends exactly one request and takes no pause, whatever comes back. *)
Theorem parseResponse_absent_field_no_tags `{LowerCase} :
  (∀ (data : json) (provider : jsstring),
     data ≠ JNull →
     json_at (expected_path provider) data = None →
     parseResponse data provider = Ok []) ∧
  (∀ provider : jsstring,
     parseResponse JNull provider = Throw (Error msg_parse_failed)) ∧
  (∀ (data : json) (provider : jsstring) (e : exn),
     parseResponse data provider = Throw e →
     e = Error msg_parse_failed ∧ retryable e = false) ∧
  (∀ (net : network) config content (w : world),
     let w' := snd (generateTags net config content w) in
     calls w' = calls w ++ [buildRequest config content] ∧ slept w' = slept w).
Proof.
  split_and!.
  - intros data provider Hdata Hat. apply parseResponse_absent; [done|].
    by rewrite Hat.
  - apply parseResponse_null.
  - intros data provider e ->%parseResponse_throws. done.
  - intros net config content w. cbv zeta. rewrite generateTags_world.
    destruct (fetch_world net (buildRequest config content) w) as (? & ? & _).
    done.
Qed.

Lemma parseResponse_absent_field_no_tags_witness :
  parseResponse (JObj [(js "choices", JArr [JObj [(js "message", JNum 7)]])])
    (js "openai") = Ok [].
Proof.
  apply (proj1 (parseResponse_absent_field_no_tags (H := ascii_lower))).
  - discriminate.
  - reflexivity.
Defined.

(** C3.  [retryRequest] calls the thunk again only after a failure that
    is a [RequestError] with status at least 500; it makes at most 2
    further attempts after the first, 3 in all; it pauses 1000 ms before
    the second attempt and 2000 ms before the third; any other outcome, a
    success or another failure (a 4xx status, malformed JSON, a timeout),
    ends the loop at once and is what the caller gets.  Two failures with
    status 503 followed by a success make exactly 3 attempts with pauses
    of 1 s and 2 s, and a failure with status 404 makes exactly 1 attempt;
    the same holds with [makeRequest] as the thunk, counting requests. *)
Theorem retryRequest_retries_only_server_errors :
  (∀ (script : nat → outcome Response) res t,
     retryRequest (scripted script) fresh_trial = (res, t) →
     (1 ≤ attempts t ∧ attempts t ≤ 3) ∧
     (∀ k, S k < attempts t →
        ∃ m st, script k = Throw (RequestError m st) ∧ (500 ≤ st)%Z) ∧
     (∀ k, S k < attempts t → delays t !! k = [1000; 2000]%N !! k) ∧
     (∀ k, k < 3 →
        (∀ j, j < k → transient (script j) = true) →
        transient (script k) = false →
        attempts t = S k ∧ res = script k ∧ delays t = take k [1000; 2000]%N)) ∧
  retryRequest (scripted script_503_503_ok) fresh_trial
    = (Ok good_response, {| attempts := 3; delays := [1000; 2000]%N |}) ∧
  retryRequest (scripted script_404) fresh_trial
    = (Throw (unavailable 404), {| attempts := 1; delays := [] |}) ∧
  (let '(res, w) := retryRequest (makeRequest net_503_503_ok sample_request)
                      initial_world in
   res = Ok good_response ∧ length (calls w) = 3 ∧ slept w = [1000; 2000]%N) ∧
  (let '(res, w) := retryRequest (makeRequest net_404 sample_request)
                      initial_world in
   res = Throw (unavailable 404) ∧ length (calls w) = 1 ∧ slept w = []).
Proof.
  split_and!; try by vm_compute.
  intros script res t.
  unfold retryRequest, MAX_RETRIES, scripted, fresh_trial.
  cbn [retry_loop attempts delays sleep trial_sleep app].
  destruct (script 0) as [r0|e0] eqn:E0; cbn [transient];
    [|destruct (retryable e0) eqn:R0;
      [destruct (script 1) as [r1|e1] eqn:E1;
       [|destruct (retryable e1) eqn:R1;
         [destruct (script 2) as [r2|e2] eqn:E2;
          [|destruct (retryable e2) eqn:R2]|]]|]];
    intros [= <- <-]; unfold sleep, trial_sleep; cbn [attempts delays app];
    change (2 ^ 0 * 1000)%N with 1000%N;
    change (2 ^ (0 + 1) * 1000)%N with 2000%N;
    (split; [lia|]); split_and!.
  all: try (intros k Hk;
            destruct k as [|[|k]]; try lia;
            rewrite ?E0, ?E1;
            first [ done
                  | destruct (retryable_inv _ R0) as (m & st & -> & ?);
                    by exists m, st
                  | destruct (retryable_inv _ R1) as (m & st & -> & ?);
                    by exists m, st ]).
  all: intros k Hk Hbefore Hlast.
  all: destruct k as [|[|[|k]]]; try lia.
  all: try (pose proof (Hbefore 0 ltac:(lia)) as H0; rewrite E0 in H0; simpl in H0).
  all: try (pose proof (Hbefore 1 ltac:(lia)) as H1; rewrite E1 in H1; simpl in H1).
  all: rewrite ?E0, ?E1, ?E2 in Hlast; simpl in Hlast.
  all: try congruence.
  all: by rewrite ?E0, ?E1, ?E2.
Qed.

Lemma retryRequest_retries_only_server_errors_witness :
  attempts (snd (retryRequest (scripted script_503_503_ok) fresh_trial)) = 3 ∧
  fst (retryRequest (scripted script_503_503_ok) fresh_trial) = script_503_503_ok 2.
Proof.
  destruct (proj1 retryRequest_retries_only_server_errors script_503_503_ok
              _ _ eq_refl) as (_ & _ & _ & Hstop).
  destruct (Hstop 2) as (Ha & Hr & _).
  - lia.
  - intros j Hj. destruct j as [|[|j]]; [reflexivity|reflexivity|lia].
  - reflexivity.
  - split; [exact Ha|exact Hr].
Defined.

Section StreamedFacts.
Implicit Types net : network.
Implicit Types body : Streamed.bodies.

Lemma later_0 (w : world) : later 0 w = w.
Proof. destruct w as [t c p]. unfold later. cbn. by rewrite N.add_0_r. Qed.

(** With every body at hand as soon as the headers are, the reads cost
    no time and cannot be aborted: the executor and the service are the
    ones defined before. *)
Lemma Streamed_makeRequest_at_once net req w :
  Streamed.makeRequest net (λ _ _, Arrives 0) req w = makeRequest net req w.
Proof.
  unfold Streamed.makeRequest, makeRequest, fetch.
  destruct (net (length (calls w)) req) as [latency result|]; [|done].
  destruct (N.ltb_spec latency TIMEOUT) as [Hlat|Hlat]; [|done].
  destruct result as [response|e]; [|done].
  unfold check_response at 2. destruct (ok response) eqn:Hok; [done|].
  cbn [now]. rewrite (proj2 (N.ltb_lt _ _)) by lia.
  rewrite later_0. unfold check_response. by rewrite Hok.
Qed.

Lemma Streamed_generateTags_at_once `{LowerCase} net config content w :
  Streamed.generateTags net (λ _ _, Arrives 0) config content w
  = Settled (generateTags net config content w).
Proof.
  unfold Streamed.generateTags, generateTags. cbv zeta.
  rewrite Streamed_makeRequest_at_once.
  destruct (makeRequest net (buildRequest config content) w) as [[response|e] w'];
    [|done].
  rewrite later_0. destruct (json_body response) as [data|e]; [|done].
  by destruct (parseResponse data (getProviderFromUrl config)).
Qed.

Lemma Streamed_makeRequest_bound net body req w :
  (now (snd (Streamed.makeRequest net body req w)) ≤ now w + TIMEOUT)%N.
Proof.
  unfold Streamed.makeRequest.
  pose proof (fetch_world net req w) as (_ & _ & _ & Hnow). cbv zeta in Hnow.
  destruct (fetch net req w) as [[response|e] w']; cbn [snd] in Hnow.
  - destruct (ok response); [done|].
    destruct (body (length (calls w)) req) as [ms|].
    + destruct (N.ltb_spec (now w' + ms) (now w + TIMEOUT)) as [Hin|Hout].
      * destruct (check_response response) as [r|e]; cbn; [lia|].
        destruct (is_abort e); cbn; lia.
      * cbn. lia.
    + cbn. lia.
  - by destruct (is_abort e).
Qed.

Lemma Streamed_makeRequest_expired net body req w :
  (net (length (calls w)) req = Hangs ∨
   ∃ latency result, net (length (calls w)) req = Settles latency result ∧
                     (TIMEOUT < latency)%N) →
  Streamed.makeRequest net body req w
  = (Throw (RequestError (JStr msg_timeout) 408),
     {| now := (now w + TIMEOUT)%N; calls := calls w ++ [req]; slept := slept w |}).
Proof.
  intros Hlate. unfold Streamed.makeRequest.
  by rewrite (fetch_expired net req w Hlate).
Qed.

Lemma Streamed_makeRequest_headers net body req w latency response :
  net (length (calls w)) req = Settles latency (Ok response) →
  (latency < TIMEOUT)%N →
  ok response = true →
  Streamed.makeRequest net body req w
  = (Ok response,
     {| now := (now w + latency)%N; calls := calls w ++ [req]; slept := slept w |}).
Proof.
  intros Hnet Hlat Hok. unfold Streamed.makeRequest, fetch.
  rewrite Hnet, (proj2 (N.ltb_lt _ _) Hlat). by rewrite Hok.
Qed.

Lemma Streamed_makeRequest_error_body_stalled net body req w latency response :
  net (length (calls w)) req = Settles latency (Ok response) →
  (latency < TIMEOUT)%N →
  ok response = false →
  body (length (calls w)) req = Never →
  Streamed.makeRequest net body req w
  = (Throw (RequestError (JStr msg_timeout) 408),
     {| now := (now w + TIMEOUT)%N; calls := calls w ++ [req]; slept := slept w |}).
Proof.
  intros Hnet Hlat Hok Hbody. unfold Streamed.makeRequest, fetch.
  rewrite Hnet, (proj2 (N.ltb_lt _ _) Hlat). by rewrite Hok, Hbody.
Qed.

Lemma retryRequest_once (fn : async world Response) (w : world) e w' :
  fn w = (Throw e, w') → retryable e = false →
  retryRequest fn w = (Throw e, w').
Proof.
  intros Hfn He. unfold retryRequest, MAX_RETRIES. cbn [retry_loop].
  by rewrite Hfn, He.
Qed.
End StreamedFacts.

(** C9, evaluated on the code.  The timer of [makeRequest] is 30 000 ms
    and [makeRequest] never takes longer.  A call whose headers have not
    arrived by the deadline fails with the [RequestError] "请求超时" of
    status 408, 30 000 ms after it began, and so does the read of the body
    of an error response, which is under the timer; neither is retried by
    [retryRequest], and [generateTags] hands the error on.  The body of a
    successful response is read by [generateTags] after [makeRequest] has
    cleared the timer: when the headers of a 2xx response arrive in time
    and the body never does, [makeRequest] returns the response and
    [generateTags] stays pending for ever, with no timeout error. *)
Theorem timeout_not_armed_for_success_body `{LowerCase} :
  TIMEOUT = 30000%N ∧
  (∀ (net : network) (body : Streamed.bodies) req (w : world),
     (now (snd (Streamed.makeRequest net body req w)) ≤ now w + 30000)%N) ∧
  (∀ (net : network) (body : Streamed.bodies) req (w : world),
     (net (length (calls w)) req = Hangs ∨
      ∃ latency result, net (length (calls w)) req = Settles latency result ∧
                        (30000 < latency)%N) →
     let expired := {| now := (now w + 30000)%N;
                       calls := calls w ++ [req];
                       slept := slept w |} in
     Streamed.makeRequest net body req w
       = (Throw (RequestError (JStr msg_timeout) 408), expired) ∧
     retryRequest (Streamed.makeRequest net body req) w
       = (Throw (RequestError (JStr msg_timeout) 408), expired) ∧
     ∀ config content, req = buildRequest config content →
       Streamed.generateTags net body config content w
         = Settled (Throw (RequestError (JStr msg_timeout) 408), expired)) ∧
  (∀ (net : network) (body : Streamed.bodies) req (w : world) latency response,
     net (length (calls w)) req = Settles latency (Ok response) →
     (latency < 30000)%N →
     body (length (calls w)) req = Never →
     let headers_in := {| now := (now w + latency)%N;
                          calls := calls w ++ [req];
                          slept := slept w |} in
     let expired := {| now := (now w + 30000)%N;
                       calls := calls w ++ [req];
                       slept := slept w |} in
     (ok response = false →
      Streamed.makeRequest net body req w
        = (Throw (RequestError (JStr msg_timeout) 408), expired) ∧
      retryRequest (Streamed.makeRequest net body req) w
        = (Throw (RequestError (JStr msg_timeout) 408), expired)) ∧
     (ok response = true →
      Streamed.makeRequest net body req w = (Ok response, headers_in) ∧
      ∀ config content, req = buildRequest config content →
        Streamed.generateTags net body config content w = Pending)) ∧
  Streamed.generateTags net_200 stalled_bodies openai_config (js "notes") initial_world
  = Pending.
Proof.
  split_and!; [done| | | |].
  - intros net body req w. apply Streamed_makeRequest_bound.
  - intros net body req w Hlate. cbv zeta.
    pose proof (Streamed_makeRequest_expired net body req w Hlate) as Hmake.
    split_and!; [done| |].
    + by apply retryRequest_once.
    + intros config content ->. unfold Streamed.generateTags. cbv zeta.
      by rewrite Hmake.
  - intros net body req w latency response Hnet Hlat Hbody. cbv zeta. split.
    + intros Hok.
      pose proof (Streamed_makeRequest_error_body_stalled net body req w
                    latency response Hnet Hlat Hok Hbody) as Hmake.
      split; [done|]. by apply retryRequest_once.
    + intros Hok.
      pose proof (Streamed_makeRequest_headers net body req w
                    latency response Hnet Hlat Hok) as Hmake.
      split; [done|].
      intros config content ->. unfold Streamed.generateTags. cbv zeta.
      by rewrite Hmake, Hbody.
  - by vm_compute.
Qed.

Lemma timeout_not_armed_for_success_body_witness :
  Streamed.makeRequest net_200 stalled_bodies
    (buildRequest openai_config (js "notes")) initial_world
  = (Ok good_response,
     {| now := 120; calls := [buildRequest openai_config (js "notes")];
        slept := [] |}) ∧
  Streamed.generateTags (H := ascii_lower) net_200 stalled_bodies
    openai_config (js "notes") initial_world
  = Pending.
Proof.
  destruct (timeout_not_armed_for_success_body (H := ascii_lower))
    as (_ & _ & _ & Hbody & _).
  destruct (Hbody net_200 stalled_bodies (buildRequest openai_config (js "notes"))
              initial_world 120%N good_response) as [_ Hsuccess].
  - reflexivity.
  - by vm_compute.
  - reflexivity.
  - destruct Hsuccess as [Hmake Hpending]; [by vm_compute|].
    split; [exact Hmake|]. by apply Hpending.
Defined.

(* ------------------------------------------------------------------ *)
(** ** Building the request *)

Section BuildFacts.
Implicit Types hay needle : jsstring.

Lemma starts_with_spec needle hay :
  starts_with needle hay = true ↔ ∃ post, hay = needle ++ post.
Proof.
  revert hay. induction needle as [|a n IH]; intros hay; simpl.
  - split; [by exists hay|done].
  - destruct hay as [|b h].
    + split; [done|]. by intros [post ?].
    + rewrite andb_true_iff, bool_decide_eq_true, IH. split.
      * intros [-> [post ->]]. by exists post.
      * intros [post [= -> ->]]. split; [done|by exists post].
Qed.

(** [includes] is containment as a contiguous substring. *)
Lemma includes_spec hay needle :
  includes hay needle = true ↔ ∃ pre post, hay = pre ++ needle ++ post.
Proof.
  induction hay as [|b h IH].
  - simpl. rewrite orb_false_r, starts_with_spec. split.
    + intros [post ->]. by exists [], post.
    + intros (pre & post & E). symmetry in E.
      apply app_eq_nil in E as [-> E]. by exists post.
  - cbn [includes]. rewrite orb_true_iff, starts_with_spec, IH. split.
    + intros [[post ->]|(pre & post & ->)].
      * by exists [], post.
      * by exists (b :: pre), post.
    + intros (pre & post & E). destruct pre as [|c pre].
      * left. by exists post.
      * right. injection E as -> ->. by exists pre, post.
Qed.

Lemma authorization_not_content_type : js "Authorization" ≠ js "Content-Type".
Proof. by vm_compute. Qed.
End BuildFacts.

(** C6.  Building the request is a total function of the configuration.
    When [apiUrl] contains the Gemini host, the request is a POST to
    [apiUrl] followed by the model and ":generateContent", with the key
    as the [key=] query parameter, the prompt and the document as two
    consecutive text parts, and no Authorization header.  For every other
    [apiUrl] the request has the OpenAI-compatible shape: a POST to
    [apiUrl] with a system and a user message, and an
    [Authorization: Bearer <apiKey>] header exactly when [apiKey] is not
    empty. *)
Theorem buildRequest_gemini_else_openai (config : AIServiceConfig) (content : jsstring) :
  let at_gemini := ∃ pre post, apiUrl config = pre ++ gemini_host ++ post in
  let request := buildRequest config content in
  method request = js "POST" ∧
  headers request !! js "Content-Type" = Some (js "application/json") ∧
  (at_gemini →
     url request
       = apiUrl config ++ model config ++ js ":generateContent?key=" ++ apiKey config ∧
     body request
       = JObj [ (js "contents",
                 JArr [ JObj [ (js "parts",
                                JArr [ JObj [ (js "text", JStr SYSTEM_PROMPT) ];
                                       JObj [ (js "text", JStr content) ] ]) ] ]) ] ∧
     headers request !! js "Authorization" = None) ∧
  (¬ at_gemini →
     url request = apiUrl config ∧
     body request
       = JObj [ (js "model", JStr (model config));
                (js "messages",
                 JArr [ JObj [ (js "role", JStr (js "system"));
                               (js "content", JStr SYSTEM_PROMPT) ];
                        JObj [ (js "role", JStr (js "user"));
                               (js "content", JStr content) ] ]) ] ∧
     (apiKey config ≠ [] →
        headers request !! js "Authorization" = Some (js "Bearer " ++ apiKey config)) ∧
     (apiKey config = [] → headers request !! js "Authorization" = None)).
Proof.
  cbv zeta. unfold buildRequest, getProviderFromUrl. cbn [method url body headers].
  destruct (includes (apiUrl config) gemini_host) eqn:E.
  - apply includes_spec in E.
    unfold getFullApiUrl, getHeaders, getRequestBody.
    rewrite !bool_decide_eq_true_2 by done. cbn [negb andb].
    by split_and!.
  - assert (¬ ∃ pre post, apiUrl config = pre ++ gemini_host ++ post) as Hnot.
    { intros Hin%includes_spec. congruence. }
    unfold getFullApiUrl, getHeaders, getRequestBody.
    rewrite !bool_decide_eq_false_2 by (by vm_compute). cbn [negb andb].
    split_and!; try done.
    + destruct (apiKey config); cbn [truthy_string]; [done|].
      rewrite lookup_insert_ne; [done|]. apply authorization_not_content_type.
    + intros _. split_and!; try done.
      * intros Hkey. destruct (apiKey config); [done|]. cbn [truthy_string].
        apply lookup_insert_eq.
      * intros ->. cbn [truthy_string].
        apply lookup_singleton_ne, not_eq_sym, authorization_not_content_type.
Qed.

Lemma buildRequest_gemini_else_openai_witness :
  url (buildRequest
         {| apiKey := js "k1";
            apiUrl := js "https://generativelanguage.googleapis.com/v1beta/models/";
            model := js "gemini-1.5-flash";
            existingTags := None |} (js "notes"))
  = js "https://generativelanguage.googleapis.com/v1beta/models/gemini-1.5-flash:generateContent?key=k1"
  ∧
  headers (buildRequest
             {| apiKey := js "k2";
                apiUrl := js "https://api.deepseek.com/v1/chat/completions";
                model := js "deepseek-chat";
                existingTags := None |} (js "notes")) !! js "Authorization"
  = Some (js "Bearer k2").
Proof.
  split.
  - destruct (buildRequest_gemini_else_openai
                {| apiKey := js "k1";
                   apiUrl := js "https://generativelanguage.googleapis.com/v1beta/models/";
                   model := js "gemini-1.5-flash";
                   existingTags := None |} (js "notes"))
      as (_ & _ & Hgemini & _).
    destruct Hgemini as (-> & _).
    + exists (js "https://"), (js "/v1beta/models/"). reflexivity.
    + reflexivity.
  - destruct (buildRequest_gemini_else_openai
                {| apiKey := js "k2";
                   apiUrl := js "https://api.deepseek.com/v1/chat/completions";
                   model := js "deepseek-chat";
                   existingTags := None |} (js "notes"))
      as (_ & _ & _ & Hother).
    destruct Hother as (_ & _ & Hkey & _).
    + intros Hin%includes_spec. by vm_compute in Hin.
    + apply Hkey. discriminate.
Defined.

(** C7, evaluated on the code.  A configuration that points at the local
    Ollama endpoint is taken for the OpenAI-compatible provider: the
    request goes to the configured URL with the chat-style body, and it
    carries [Authorization: Bearer <apiKey>] whenever the key field is
    filled in; with the key "sk-local" the header is "Bearer sk-local".
    The later revision of the service classifies the same URL as "ollama"
    and sends no such header. *)
Theorem ollama_request_carries_authorization (key model content : jsstring) :
  let config := {| apiKey := key; apiUrl := ollama_defaultUrl;
                   model := model; existingTags := None |} in
  getProviderFromUrl config = js "openai" ∧
  url (buildRequest config content) = ollama_defaultUrl ∧
  headers (buildRequest config content) !! js "Authorization"
    = (if truthy_string key then Some (js "Bearer " ++ key) else None) ∧
  headers (buildRequest {| apiKey := js "sk-local"; apiUrl := ollama_defaultUrl;
                           model := ollama_defaultModel; existingTags := None |}
             content) !! js "Authorization"
    = Some (js "Bearer sk-local") ∧
  LaterRevision.getProviderFromUrl config = js "ollama" ∧
  LaterRevision.getHeaders config (LaterRevision.getProviderFromUrl config)
    !! js "Authorization" = None.
Proof.
  cbv zeta.
  assert (getProviderFromUrl {| apiKey := key; apiUrl := ollama_defaultUrl;
                                model := model; existingTags := None |}
          = js "openai") as Hprov by by vm_compute.
  assert (LaterRevision.getProviderFromUrl
            {| apiKey := key; apiUrl := ollama_defaultUrl;
               model := model; existingTags := None |}
          = js "ollama") as Hlater by by vm_compute.
  split_and!.
  - exact Hprov.
  - unfold buildRequest. rewrite Hprov. reflexivity.
  - unfold buildRequest. rewrite Hprov. cbn [headers].
    unfold getHeaders. cbn [apiKey].
    rewrite bool_decide_eq_false_2 by (by vm_compute). cbn [negb andb].
    destruct key as [|c key]; cbn [truthy_string].
    + apply lookup_singleton_ne, not_eq_sym, authorization_not_content_type.
    + apply lookup_insert_eq.
  - by vm_compute.
  - exact Hlater.
  - rewrite Hlater. unfold LaterRevision.getHeaders. cbn [apiKey].
    rewrite !bool_decide_eq_false_2 by (by vm_compute).
    destruct (truthy_string key);
      apply lookup_singleton_ne, not_eq_sym, authorization_not_content_type.
Qed.

(** C8, evaluated on the code.  [analyzeTags] fails with the error
    "请先在设置中配置 API 密钥" and leaves the world untouched (no request
    is sent) when the provider has no settings or its key is empty.  It
    checks nothing else: with a key filled in, the request is built and
    sent whatever [apiUrl] and [model] are, also when they are empty, as
    for the provider whose default model is the empty string. *)
Theorem analyzeTags_checks_key_only `{LowerCase}
    (net : network) (settings : AutoTaggerSettings) (content : jsstring) (w : world) :
  ((providerSettings settings !! provider settings = None ∨
    ∃ pc, providerSettings settings !! provider settings = Some pc ∧
          ps_apiKey pc = []) →
   analyzeTags net settings content w = (Throw (Error msg_missing_key), w)) ∧
  (∀ pc, providerSettings settings !! provider settings = Some pc →
         ps_apiKey pc ≠ [] →
         calls (snd (analyzeTags net settings content w))
         = calls w ++ [buildRequest {| apiKey := ps_apiKey pc;
                                       apiUrl := ps_apiUrl pc;
                                       model := ps_model pc;
                                       existingTags := None |} content]) ∧
  calls (snd (analyzeTags net volcano_settings content w))
  = calls w ++ [ {| url := js "https://ark.cn-beijing.volces.com/api/v3/chat/completions";
                    method := js "POST";
                    headers := {[ js "Content-Type" := js "application/json";
                                  js "Authorization" := js "Bearer ak-1" ]};
                    body :=
                      JObj [ (js "model", JStr []);
                             (js "messages",
                              JArr [ JObj [ (js "role", JStr (js "system"));
                                            (js "content", JStr SYSTEM_PROMPT) ];
                                     JObj [ (js "role", JStr (js "user"));
                                            (js "content", JStr content) ] ]) ] |} ].
Proof.
  split_and!.
  - unfold analyzeTags. intros [->|(pc & -> & ->)]; done.
  - intros pc Hpc Hkey. unfold analyzeTags. rewrite Hpc.
    destruct (ps_apiKey pc) eqn:Ek; [done|]. cbn [truthy_string negb].
    rewrite <- Ek.
    pose proof (generateTags_world net
      {| apiKey := ps_apiKey pc; apiUrl := ps_apiUrl pc; model := ps_model pc;
         existingTags := None |} content w) as Hw.
    destruct (generateTags _ _ _ _) as [[tags|e] w']; simpl in *; rewrite Hw;
      by destruct (fetch_world net (buildRequest
           {| apiKey := ps_apiKey pc; apiUrl := ps_apiUrl pc;
              model := ps_model pc; existingTags := None |} content) w)
        as (-> & _).
  - unfold analyzeTags, volcano_settings. cbn [providerSettings provider].
    rewrite lookup_singleton_eq. cbn [ps_apiKey truthy_string negb js].
    pose proof (generateTags_world net
      {| apiKey := js "ak-1";
         apiUrl := js "https://ark.cn-beijing.volces.com/api/v3/chat/completions";
         model := []; existingTags := None |} content w) as Hw.
    cbn [ps_apiUrl ps_model].
    destruct (generateTags _ _ _ _) as [[tags|e] w']; simpl in Hw |- *; rewrite Hw;
      destruct (fetch_world net (buildRequest
           {| apiKey := js "ak-1";
              apiUrl := js "https://ark.cn-beijing.volces.com/api/v3/chat/completions";
              model := []; existingTags := None |} content) w)
        as (-> & _); f_equal; f_equal; unfold buildRequest; f_equal;
        by vm_compute.
Qed.

Lemma analyzeTags_checks_key_only_witness :
  analyzeTags (H := ascii_lower) net_404 openai_settings_without_key (js "notes")
    initial_world
  = (Throw (Error msg_missing_key), initial_world).
Proof.
  apply (proj1 (analyzeTags_checks_key_only (H := ascii_lower) net_404
                  openai_settings_without_key (js "notes") initial_world)).
  right. eexists. split; [by vm_compute|reflexivity].
Defined.

(* ================================================================== *)
(** * Further properties of the service *)
(* ================================================================== *)

Section SimilarityBySets.
Context `{LowerCase}.
Implicit Types a b c e : jsstring.

Lemma Qdiv_same_pos (n : Z) : (0 < n)%Z → (inject_Z n / inject_Z n == 1)%Q.
Proof.
  intros Hn. unfold Qdiv. apply Qmult_inv_r.
  unfold Qeq. simpl. lia.
Qed.

Lemma list_to_set_nonempty (l : list N) :
  l ≠ [] → (0 < size (list_to_set l : gset N))%nat.
Proof.
  destruct l as [|x l]; [done|]. intros _.
  destruct (decide (size (list_to_set (x :: l) : gset N) = 0)) as [E|]; [|lia].
  apply size_empty_inv in E. set_solver.
Qed.

(** The score written with finite sets also covers the case of equal
    lowercased strings, as long as they are not empty. *)
Lemma calculateSimilarity_sets a b :
  toLowerCase a ≠ [] ∨ toLowerCase b ≠ [] →
  (calculateSimilarity a b ==
     inject_Z (Z.of_nat (size ((list_to_set (toLowerCase a) : gset N)
                                ∩ list_to_set (toLowerCase b))))
     / inject_Z (Z.of_nat (size (list_to_set (toLowerCase a) : gset N)
                           `max` size (list_to_set (toLowerCase b) : gset N))))%Q.
Proof.
  intros Hne. rewrite calculateSimilarity_spec. unfold similarity_spec.
  case_decide as E; [|reflexivity].
  rewrite <- E in *.
  assert (toLowerCase a ≠ []) as Ha by (by destruct Hne).
  pose proof (list_to_set_nonempty _ Ha) as Hpos.
  replace (list_to_set (toLowerCase a) ∩ list_to_set (toLowerCase a))
    with (list_to_set (toLowerCase a) : gset N) by set_solver.
  rewrite Nat.max_id. symmetry. apply Qdiv_same_pos. lia.
Qed.

Lemma same_characters_sets a a' :
  (∀ u, u ∈ toLowerCase a ↔ u ∈ toLowerCase a') →
  (list_to_set (toLowerCase a) : gset N) = list_to_set (toLowerCase a').
Proof.
  intros Hsame. apply set_eq. intros u.
  rewrite !elem_of_list_to_set. apply Hsame.
Qed.

Lemma same_characters_empty a a' :
  (∀ u, u ∈ toLowerCase a ↔ u ∈ toLowerCase a') →
  toLowerCase a = [] → toLowerCase a' = [].
Proof.
  intros Hsame Ea. destruct (toLowerCase a') as [|u l]; [done|].
  exfalso. assert (u ∈ toLowerCase a) as Hu by (apply Hsame; left).
  rewrite Ea in Hu. by apply elem_of_nil in Hu.
Qed.
End SimilarityBySets.

(** X1.  The score only looks at which characters occur: replacing a
    string by one whose lowercased form has the same set of characters
    (an anagram, or the same letters repeated) leaves every score
    unchanged, and two such strings score 1 against each other.  So a
    candidate is replaced by a non-empty existing tag with the same
    characters when that is the only existing tag. *)
Theorem calculateSimilarity_same_characters `{LowerCase} (a a' : jsstring) :
  (∀ u, u ∈ toLowerCase a ↔ u ∈ toLowerCase a') →
  (∀ b, (calculateSimilarity a b == calculateSimilarity a' b)%Q) ∧
  (calculateSimilarity a a' == 1)%Q ∧
  (a' ≠ [] → reconcile (Some [a']) [a] = [a']).
Proof.
  intros Hsame.
  pose proof (same_characters_sets a a' Hsame) as Hsets.
  assert (calculateSimilarity a a' == 1)%Q as Hone.
  { destruct (decide (toLowerCase a = [])) as [Ea|Ha].
    - rewrite calculateSimilarity_eq, Ea.
      by rewrite (same_characters_empty a a' Hsame Ea).
    - rewrite calculateSimilarity_sets by (by left). rewrite <- Hsets.
      replace (list_to_set (toLowerCase a) ∩ list_to_set (toLowerCase a))
        with (list_to_set (toLowerCase a) : gset N) by set_solver.
      rewrite Nat.max_id. apply Qdiv_same_pos.
      pose proof (list_to_set_nonempty _ Ha). lia. }
  split_and!; [|done|].
  - intros b. destruct (decide (toLowerCase a = [])) as [Ea|Ha].
    + pose proof (same_characters_empty a a' Hsame Ea) as Ea'.
      rewrite !calculateSimilarity_eq, Ea, Ea'. reflexivity.
    + assert (toLowerCase a' ≠ []) as Ha'.
      { intros Ea'. apply Ha.
        apply (same_characters_empty a' a); [|done]. intros u. by rewrite Hsame. }
      rewrite !calculateSimilarity_sets by (by left). by rewrite Hsets.
  - intros Hne.
    assert (similarityThreshold < calculateSimilarity a a')%Q as Hthr.
    { rewrite Hone. reflexivity. }
    destruct (findSimilarExistingTag_Some a [a'] a') as (i & e & Hfound & Hi & _);
      [left|done|].
    apply list_elem_of_lookup_2, list_elem_of_singleton in Hi as ->.
    unfold reconcile. cbn [map]. rewrite Hfound. by destruct a'.
Qed.

Lemma calculateSimilarity_same_characters_witness :
  (calculateSimilarity (H := ascii_lower) (js "Silent") (js "listen") == 1)%Q ∧
  reconcile (H := ascii_lower) (Some [js "listen"]) [js "Silent"] = [js "listen"].
Proof.
  destruct (calculateSimilarity_same_characters (H := ascii_lower)
              (js "Silent") (js "listen")) as (_ & Hone & Hrec).
  - intros u. cbn. rewrite !elem_of_cons, !elem_of_nil. tauto.
  - split; [exact Hone|]. apply Hrec. discriminate.
Defined.

(** X2.  Two strings score 0 exactly when their lowercased forms differ
    and have no character in common. *)
Theorem calculateSimilarity_zero_iff_disjoint `{LowerCase} (a b : jsstring) :
  (calculateSimilarity a b == 0)%Q ↔
  toLowerCase a ≠ toLowerCase b ∧
  ∀ u, ¬ (u ∈ toLowerCase a ∧ u ∈ toLowerCase b).
Proof.
  rewrite calculateSimilarity_eq. case_bool_decide as E.
  - split; [intros Hq; by compute in Hq|]. by intros [? _].
  - pose proof (calculateSimilarity_divisor_pos a b E) as Hpos.
    set (m := Z.max _ _) in *.
    rewrite inter_size_gset.
    set (S := list_to_set (toLowerCase a) ∩ list_to_set (toLowerCase b) : gset N).
    assert ((inject_Z (Z.of_nat (size S)) / inject_Z m == 0)%Q ↔ size S = 0) as ->.
    { split.
      - intros Hq. unfold Qdiv in Hq.
        apply Qmult_integral in Hq as [Hq|Hq].
        + unfold Qeq in Hq. simpl in Hq. lia.
        + exfalso. destruct m as [|p|p]; try lia.
          unfold Qeq in Hq. simpl in Hq. lia.
      - intros ->. reflexivity. }
    rewrite size_empty_iff. unfold S. split.
    + intros Hempty. split; [done|]. intros u [Ha Hb].
      assert (u ∈ (list_to_set (toLowerCase a) ∩ list_to_set (toLowerCase b)
                   : gset N)) as Hu
        by (by rewrite elem_of_intersection, !elem_of_list_to_set).
      apply Hempty in Hu. by apply not_elem_of_empty in Hu.
    + intros [_ Hdis] u.
      rewrite elem_of_intersection, !elem_of_list_to_set.
      split; [intros ?; exfalso; by apply (Hdis u)|].
      intros Hu. by apply not_elem_of_empty in Hu.
Qed.

Section MoreExecutorFacts.
Implicit Types w : world.
Implicit Types net : network.

Lemma fetch_settled net req w latency result :
  net (length (calls w)) req = Settles latency result →
  (latency < TIMEOUT)%N →
  fetch net req w =
    (result, {| now := (now w + latency)%N; calls := calls w ++ [req];
                slept := slept w |}).
Proof.
  intros Hnet Hlat. unfold fetch. rewrite Hnet.
  by rewrite (proj2 (N.ltb_lt latency TIMEOUT) Hlat).
Qed.

Lemma retryRequest_not_transient {W} `{Sleep W} (fn : async W Response) (s : W) :
  transient (fst (fn s)) = false → retryRequest fn s = fn s.
Proof.
  unfold retryRequest, MAX_RETRIES. cbn [retry_loop].
  destruct (fn s) as [[r|e] s']; cbn [fst transient]; [done|].
  by intros ->.
Qed.
End MoreExecutorFacts.

(** X3.  A response with a status outside 200-299 whose body is JSON
    other than [null] makes [makeRequest] fail with a [RequestError] that
    carries that status, and as message the value at [error.message] of
    the body when there is a truthy one, the text "请求失败" otherwise;
    [generateTags] passes the error on without reading the tags. *)
Theorem makeRequest_error_status `{LowerCase}
    (net : network) (req : request) (w : world)
    (latency : N) (response : Response) (payload : json) :
  net (length (calls w)) req = Settles latency (Ok response) →
  (latency < TIMEOUT)%N →
  ok response = false →
  json_body response = Ok payload →
  payload ≠ JNull →
  let found := json_at [Field (js "error"); Field (js "message")] payload in
  let message := match found with
                 | Some m => if truthy found then m else JStr msg_request_failed
                 | None => JStr msg_request_failed
                 end in
  (∀ m, message = m → m = JStr msg_request_failed ∨ (found = Some m ∧ truthy found = true)) ∧
  fst (makeRequest net req w) = Throw (RequestError message (status response)) ∧
  ∀ config content, req = buildRequest config content →
    fst (generateTags net config content w)
      = Throw (RequestError message (status response)).
Proof.
  intros Hnet Hlat Hok Hbody Hpayload. cbv zeta.
  assert (fst (makeRequest net req w)
          = Throw (RequestError
                     match json_at [Field (js "error"); Field (js "message")] payload with
                     | Some m =>
                         if truthy (json_at [Field (js "error"); Field (js "message")]
                                      payload)
                         then m else JStr msg_request_failed
                     | None => JStr msg_request_failed
                     end (status response))) as Hmake.
  { unfold makeRequest. rewrite (fetch_settled net req w latency _ Hnet Hlat).
    unfold check_response. rewrite Hok, Hbody.
    assert (member payload (js "error") = Ok (get_named payload (js "error")))
      as -> by by destruct payload.
    rewrite opt_named_get. cbn [json_at].
    destruct (get_named payload (js "error")) as [err|]; [|done].
    destruct (get_named err (js "message")) as [m|]; done. }
  split_and!.
  - intros m <-.
    destruct (json_at _ payload) as [m|]; [|by left].
    destruct (truthy (Some m)) eqn:E; [right|left]; done.
  - exact Hmake.
  - intros config content ->. unfold generateTags.
    destruct (makeRequest net _ w) as [[r|e] w']; simpl in Hmake; [done|].
    simpl. congruence.
Qed.

Lemma makeRequest_error_status_witness :
  fst (makeRequest net_404 sample_request initial_world)
  = Throw (RequestError (JStr (js "upstream unavailable")) 404).
Proof.
  apply (makeRequest_error_status (H := ascii_lower) net_404 sample_request
           initial_world 120 (error_response 404)
           (JObj [ (js "error",
                    JObj [ (js "message", JStr (js "upstream unavailable")) ]) ])).
  - reflexivity.
  - reflexivity.
  - reflexivity.
  - reflexivity.
  - discriminate.
Defined.

(** X4.  When the body of an error response is not JSON, the failure of
    [response.json()] is what [makeRequest] throws, whatever the status:
    no [RequestError] is built, so [retryRequest] around it does not try
    again even for a 5xx status. *)
Theorem makeRequest_error_body_not_json
    (net : network) (req : request) (w : world)
    (latency : N) (response : Response) :
  net (length (calls w)) req = Settles latency (Ok response) →
  (latency < TIMEOUT)%N →
  ok response = false →
  json_body response = Throw SyntaxError →
  let after := {| now := (now w + latency)%N; calls := calls w ++ [req];
                  slept := slept w |} in
  makeRequest net req w = (Throw SyntaxError, after) ∧
  retryRequest (makeRequest net req) w = (Throw SyntaxError, after).
Proof.
  intros Hnet Hlat Hok Hbody. cbv zeta.
  assert (makeRequest net req w
          = (Throw SyntaxError,
             {| now := (now w + latency)%N; calls := calls w ++ [req];
                slept := slept w |})) as Hmake.
  { unfold makeRequest. rewrite (fetch_settled net req w latency _ Hnet Hlat).
    unfold check_response. by rewrite Hok, Hbody. }
  split; [done|].
  rewrite retryRequest_not_transient; [done|]. by rewrite Hmake.
Qed.

Lemma makeRequest_error_body_not_json_witness :
  retryRequest
    (makeRequest (λ _ _, Settles 80 (Ok {| status := 502; json_body := Throw SyntaxError |}))
       sample_request) initial_world
  = (Throw SyntaxError, {| now := 80; calls := [sample_request]; slept := [] |}).
Proof.
  apply (makeRequest_error_body_not_json
           (λ _ _, Settles 80 (Ok {| status := 502; json_body := Throw SyntaxError |}))
           sample_request initial_world 80
           {| status := 502; json_body := Throw SyntaxError |});
    reflexivity.
Defined.

(** X5.  When all three attempts fail with a retryable error,
    [retryRequest] throws the error of the third attempt, and it does so
    only after a third pause, of 4000 ms, that no attempt follows. *)
Theorem retryRequest_exhausted (script : nat → outcome Response) :
  (∀ k, k < 3 → transient (script k) = true) →
  retryRequest (scripted script) fresh_trial
  = (script 2, {| attempts := 3; delays := [1000; 2000; 4000]%N |}).
Proof.
  intros Hall.
  pose proof (Hall 0 ltac:(lia)) as H0.
  pose proof (Hall 1 ltac:(lia)) as H1.
  pose proof (Hall 2 ltac:(lia)) as H2.
  unfold retryRequest, MAX_RETRIES, scripted, fresh_trial.
  cbn [retry_loop attempts delays].
  unfold sleep, trial_sleep. cbn [attempts delays app].
  destruct (script 0) as [|e0]; [done|]. cbn [transient] in H0. rewrite H0.
  destruct (script 1) as [|e1]; [done|]. cbn [transient] in H1. rewrite H1.
  destruct (script 2) as [|e2]; [done|]. cbn [transient] in H2. rewrite H2.
  reflexivity.
Qed.

Lemma retryRequest_exhausted_witness :
  retryRequest (scripted (λ _, Throw (unavailable 503))) fresh_trial
  = (Throw (unavailable 503), {| attempts := 3; delays := [1000; 2000; 4000]%N |}).
Proof.
  apply (retryRequest_exhausted (λ _, Throw (unavailable 503))).
  intros k _. reflexivity.
Defined.

Lemma makeRequest_step (net : network) (req : request) (w : world) :
  ∃ res w', makeRequest net req w = (res, w') ∧
    calls w' = calls w ++ [req] ∧ slept w' = slept w ∧
    (now w' ≤ now w + TIMEOUT)%N.
Proof.
  pose proof (makeRequest_world net req w) as Hw.
  destruct (fetch_world net req w) as (Hc & Hs & _ & Hn).
  destruct (makeRequest net req w) as [res w']. simpl in Hw. subst w'.
  by exists res, (snd (fetch net req w)).
Qed.

(** X6.  [retryRequest] around [makeRequest] sends the same request one,
    two or three times and nothing else, and it returns within
    3 x 30 000 ms of waiting for the network plus 7000 ms of pauses. *)
Theorem retryRequest_makeRequest_bounded (net : network) (req : request) (w : world) :
  let w' := snd (retryRequest (makeRequest net req) w) in
  (∃ n, 1 ≤ n ≤ 3 ∧ calls w' = calls w ++ replicate n req) ∧
  (now w' ≤ now w + 97000)%N.
Proof.
  cbv zeta. unfold retryRequest, MAX_RETRIES. cbn [retry_loop].
  destruct (makeRequest_step net req w) as (r1 & w1 & -> & Hc1 & Hs1 & Hn1).
  unfold TIMEOUT in *.
  destruct r1 as [|e1]; [|destruct (retryable e1)]; cbn [snd];
    try (split; [exists 1; split; [lia|done]|lia]).
  destruct (makeRequest_step net req (sleep (2 ^ 0 * 1000)%N w1))
    as (r2 & w2 & -> & Hc2 & Hs2 & Hn2).
  unfold sleep, world_sleep in Hc2, Hs2, Hn2. cbn [calls slept now] in Hc2, Hs2, Hn2.
  unfold TIMEOUT in *.
  destruct r2 as [|e2]; [|destruct (retryable e2)]; cbn [snd];
    try (split; [exists 2; split; [lia|]; rewrite Hc2, Hc1, <- app_assoc; done|lia]).
  destruct (makeRequest_step net req (sleep (2 ^ (0 + 1) * 1000)%N w2))
    as (r3 & w3 & -> & Hc3 & Hs3 & Hn3).
  unfold sleep, world_sleep in Hc3, Hs3, Hn3. cbn [calls slept now] in Hc3, Hs3, Hn3.
  unfold TIMEOUT in *.
  destruct r3 as [|e3]; [|destruct (retryable e3)]; cbn [snd];
    unfold sleep, world_sleep; cbn [calls now];
    (split; [exists 3; split; [lia|]; rewrite Hc3, Hc2, Hc1, <- !app_assoc; done|lia]).
Qed.

(** X7.  With a key configured, a response of status 200-299 whose body
    holds a string at the provider's extraction path makes [analyzeTags]
    return exactly the tags parsed from that string: it passes no
    existing tags to the service, so no tag is substituted.  One request
    is sent and no pause is taken. *)
Theorem analyzeTags_returns_parsed_tags `{LowerCase}
    (net : network) (settings : AutoTaggerSettings) (content : jsstring) (w : world)
    (pc : ProviderSettings) (latency : N) (response : Response)
    (data : json) (text : jsstring) :
  let config := {| apiKey := ps_apiKey pc; apiUrl := ps_apiUrl pc;
                   model := ps_model pc; existingTags := None |} in
  providerSettings settings !! provider settings = Some pc →
  ps_apiKey pc ≠ [] →
  net (length (calls w)) (buildRequest config content) = Settles latency (Ok response) →
  (latency < TIMEOUT)%N →
  ok response = true →
  json_body response = Ok data →
  json_at (expected_path (getProviderFromUrl config)) data = Some (JStr text) →
  analyzeTags net settings content w
  = (Ok (split_tags text),
     {| now := (now w + latency)%N;
        calls := calls w ++ [buildRequest config content];
        slept := slept w |}).
Proof.
  cbv zeta. intros Hpc Hkey Hnet Hlat Hok Hbody Hat.
  unfold analyzeTags. rewrite Hpc.
  assert (truthy_string (ps_apiKey pc) = true) as ->
    by (by destruct (ps_apiKey pc)).
  cbn [negb]. unfold generateTags, makeRequest.
  rewrite (fetch_settled net _ w latency _ Hnet Hlat).
  unfold check_response. rewrite Hok, Hbody.
  rewrite (parseResponse_string _ _ _ Hat).
  unfold reconcile, findSimilarExistingTag. cbn [existingTags or_tag].
  by rewrite map_id.
Qed.

Lemma analyzeTags_returns_parsed_tags_witness :
  analyzeTags (H := ascii_lower) (λ _ _, Settles 250 (Ok good_response))
    volcano_settings (js "notes") initial_world
  = (Ok [js "ai"; js "tags"],
     {| now := 250;
        calls := [buildRequest
                    {| apiKey := js "ak-1";
                       apiUrl := js "https://ark.cn-beijing.volces.com/api/v3/chat/completions";
                       model := []; existingTags := None |} (js "notes")];
        slept := [] |}).
Proof.
  apply (analyzeTags_returns_parsed_tags (H := ascii_lower)
           (λ _ _, Settles 250 (Ok good_response)) volcano_settings (js "notes")
           initial_world
           {| ps_apiKey := js "ak-1";
              ps_apiUrl := js "https://ark.cn-beijing.volces.com/api/v3/chat/completions";
              ps_model := [] |}
           250 good_response (openai_body (js "ai, tags")) (js "ai, tags")).
  - by vm_compute.
  - discriminate.
  - reflexivity.
  - reflexivity.
  - reflexivity.
  - reflexivity.
  - by vm_compute.
Defined.

(* ------------------------------------------------------------------ *)
(** ** The tag selection dialog *)

Section ModalFacts.
Import Modal.

Lemma mirrors_open tags : mirrors (Modal.open tags).
Proof.
  unfold mirrors, Modal.open. cbn [selectedTags rows].
  induction tags as [|t tags IH]; [done|]. simpl. by f_equal.
Qed.

Lemma mirrors_handle m ev : mirrors m → mirrors (handle m ev).
Proof.
  unfold mirrors. intros Hm.
  destruct ev as [index|index text]; cbn [handle];
    unfold on_change, on_input; cbn [rows selectedTags tags].
  - rewrite list_lookup_alter_eq.
    destruct (rows m !! index) as [r|] eqn:Hr; cbn [fmap option_fmap option_map];
      cbn [rows selectedTags checked value].
    + rewrite Hm. apply list_eq. intros i.
      destruct (decide (i = index)) as [->|Hne].
      * rewrite list_lookup_insert_eq
          by (rewrite length_map; by eapply lookup_lt_Some).
        by rewrite list_lookup_fmap, list_lookup_alter_eq, Hr.
      * rewrite list_lookup_insert_ne by done.
        by rewrite !list_lookup_fmap, list_lookup_alter_ne.
    + cbn [rows selectedTags]. rewrite Hm. f_equal. apply list_eq. intros i.
      destruct (decide (i = index)) as [->|Hne].
      * by rewrite list_lookup_alter_eq, Hr.
      * by rewrite list_lookup_alter_ne.
  - rewrite list_lookup_alter_eq.
    destruct (rows m !! index) as [r|] eqn:Hr; cbn [fmap option_fmap option_map];
      cbn [checked].
    + destruct (checked r) eqn:Hc; cbn [rows selectedTags value].
      * rewrite Hm. apply list_eq. intros i.
        destruct (decide (i = index)) as [->|Hne].
        -- rewrite list_lookup_insert_eq
             by (rewrite length_map; by eapply lookup_lt_Some).
           rewrite list_lookup_fmap, list_lookup_alter_eq, Hr. simpl.
           by rewrite Hc.
        -- rewrite list_lookup_insert_ne by done.
           by rewrite !list_lookup_fmap, list_lookup_alter_ne.
      * rewrite Hm. apply list_eq. intros i.
        destruct (decide (i = index)) as [->|Hne].
        -- rewrite !list_lookup_fmap, list_lookup_alter_eq, Hr. simpl.
           by rewrite Hc.
        -- by rewrite !list_lookup_fmap, list_lookup_alter_ne.
    + cbn [rows selectedTags]. rewrite Hm. f_equal. apply list_eq. intros i.
      destruct (decide (i = index)) as [->|Hne].
      * by rewrite list_lookup_alter_eq, Hr.
      * by rewrite list_lookup_alter_ne.
Qed.

Lemma rows_length_handle m ev : length (rows (handle m ev)) = length (rows m).
Proof.
  destruct ev as [index|index text]; cbn [handle];
    unfold on_change, on_input; cbn [rows];
    repeat match goal with
           | |- context [match ?x with _ => _ end] => destruct x
           end; cbn [rows]; by rewrite length_alter.
Qed.

Lemma submit_mirrors m :
  mirrors m →
  submit m = map value (filter (λ r, checked r = true) (rows m)).
Proof.
  unfold mirrors, submit. intros ->.
  induction (rows m) as [|r l IH]; [done|].
  cbn [map omap list_omap]. destruct (checked r) eqn:Hc; simpl.
  - rewrite filter_cons_True by done. simpl. by f_equal.
  - rewrite filter_cons_False by congruence. done.
Qed.
End ModalFacts.

(** X8.  Whatever the user clicks and types in the dialog, the tags handed
    to [onSubmit] are the current texts of the rows whose checkbox is
    checked, in the order of the rows, and the dialog keeps one row per
    tag; untouched, the dialog submits the tags it was opened with. *)
Theorem modal_submits_checked_rows (tags : list jsstring) (events : list Modal.event) :
  let m := foldl Modal.handle (Modal.open tags) events in
  Modal.submit m
    = map Modal.value (filter (λ r, Modal.checked r = true) (Modal.rows m)) ∧
  length (Modal.rows m) = length tags ∧
  length (Modal.selectedTags m) = length tags ∧
  Modal.submit (Modal.open tags) = tags.
Proof.
  cbv zeta.
  assert (Modal.mirrors (foldl Modal.handle (Modal.open tags) events) ∧
          length (Modal.rows (foldl Modal.handle (Modal.open tags) events))
          = length tags) as [Hm Hlen].
  { induction events as [|ev events IH] using rev_ind.
    - split; [apply mirrors_open|]. simpl. by rewrite length_map.
    - rewrite foldl_app. simpl. destruct IH as [IHm IHlen]. split.
      + by apply mirrors_handle.
      + by rewrite rows_length_handle. }
  split_and!.
  - by apply submit_mirrors.
  - done.
  - rewrite Hm, length_map. done.
  - rewrite (submit_mirrors _ (mirrors_open tags)). unfold Modal.open.
    cbn [Modal.rows]. clear Hm Hlen. induction tags as [|t tags IH]; [done|].
    cbn [map]. rewrite filter_cons_True by done. cbn [map Modal.value].
    by f_equal.
Qed.

(* ------------------------------------------------------------------ *)
(** ** Writing the tags into the front matter *)

Section FrontMatterBasics.
Implicit Types s t needle hay template g a b m ws rest : jsstring.
Implicit Types l : list jsstring.

Lemma starts_with_app needle s : starts_with needle (needle ++ s) = true.
Proof. apply starts_with_spec. by exists s. Qed.

Lemma starts_with_drop needle hay :
  starts_with needle hay = true → hay = needle ++ drop (length needle) hay.
Proof.
  intros [post ->]%starts_with_spec. by rewrite drop_app_length.
Qed.

Lemma find_first_Some needle hay before after :
  find_first needle hay = Some (before, after) →
  hay = before ++ needle ++ after.
Proof.
  revert before after. induction hay as [|c h IH]; intros before after.
  - cbn [find_first]. destruct (starts_with needle []) eqn:E; [|done].
    intros [= <- <-]. by apply starts_with_drop in E.
  - cbn [find_first]. destruct (starts_with needle (c :: h)) eqn:E.
    + intros [= <- <-]. by apply starts_with_drop in E.
    + destruct (find_first needle h) as [[b a]|]; [|done].
      intros [= <- <-]. by rewrite (IH b a eq_refl).
Qed.

(** No occurrence of the needle starts inside the text before the first
    one. *)
Lemma find_first_minimal needle hay before after :
  find_first needle hay = Some (before, after) →
  ∀ k, k < length before → starts_with needle (drop k hay) = false.
Proof.
  revert before after. induction hay as [|c h IH]; intros before after.
  - cbn [find_first]. destruct (starts_with needle []) eqn:E; [|done].
    intros [= <- <-] k. simpl. lia.
  - cbn [find_first]. destruct (starts_with needle (c :: h)) eqn:E.
    + intros [= <- <-] k. simpl. lia.
    + destruct (find_first needle h) as [[b a]|] eqn:Eh; [|done].
      intros [= <- <-] k Hk. destruct k as [|k]; [done|].
      simpl. apply (IH b a eq_refl). simpl in Hk. lia.
Qed.

Lemma find_first_None needle hay :
  find_first needle hay = None → ∀ k, starts_with needle (drop k hay) = false.
Proof.
  induction hay as [|c h IH].
  - cbn [find_first]. destruct (starts_with needle []) eqn:E; [done|].
    intros _ k. by rewrite drop_nil.
  - cbn [find_first]. destruct (starts_with needle (c :: h)) eqn:E; [done|].
    destruct (find_first needle h) as [[b a]|] eqn:Eh; [done|].
    intros _ k. destruct k as [|k]; [done|]. by apply IH.
Qed.

Lemma match_yaml_Some content yaml after :
  match_yaml content = Some (yaml, after) →
  content = yaml_open ++ yaml ++ yaml_close ++ after.
Proof.
  unfold match_yaml. destruct (starts_with yaml_open content) eqn:E; [|done].
  intros Hfind%find_first_Some. rewrite <- Hfind.
  by apply starts_with_drop.
Qed.

Lemma GetSubstitution_no_dollar matched before after group template :
  36%N ∉ template →
  GetSubstitution matched before after group template = template.
Proof.
  induction template as [|c r IH]; [done|].
  intros [Hc Hr]%not_elem_of_cons. cbn [GetSubstitution].
  rewrite bool_decide_eq_false_2 by done. by rewrite IH.
Qed.

Lemma not_elem_of_join (x : N) sep l :
  x ∉ sep → (∀ t, t ∈ l → x ∉ t) → x ∉ join sep l.
Proof.
  intros Hsep. induction l as [|t l IH]; intros Hl; [apply not_elem_of_nil|].
  cbn [join]. destruct l as [|t' l'].
  - apply Hl. left.
  - rewrite !not_elem_of_app. split_and!; [apply Hl; left|done|].
    apply IH. intros u Hu. apply Hl. by right.
Qed.

Lemma not_elem_of_tags_line (x : N) l :
  x ∉ js "tags: [], " → (∀ t, t ∈ l → x ∉ t) → x ∉ tags_line l.
Proof.
  intros Hx Hl. unfold tags_line. rewrite !not_elem_of_app. split_and!.
  - intros Hin. apply Hx. cbn in *. set_solver.
  - apply not_elem_of_join; [|done]. intros Hin. apply Hx. cbn in *. set_solver.
  - intros Hin. apply Hx. cbn in *. set_solver.
Qed.

(** The set of strings: same elements, no repetition, first
    occurrences in order. *)
Lemma elem_of_foldl_StringSet_add l : ∀ acc x,
  x ∈ foldl StringSet_add acc l ↔ x ∈ acc ∨ x ∈ l.
Proof.
  induction l as [|y l IH]; intros acc x; simpl.
  - rewrite elem_of_nil. tauto.
  - rewrite IH, elem_of_cons. unfold StringSet_add.
    case_bool_decide as E.
    + split; [tauto|]. intros [?|[->|?]]; auto.
    + rewrite elem_of_app, list_elem_of_singleton. tauto.
Qed.

Lemma NoDup_foldl_StringSet_add l : ∀ acc,
  NoDup acc → NoDup (foldl StringSet_add acc l).
Proof.
  induction l as [|y l IH]; intros acc Hacc; simpl; [done|].
  apply IH. unfold StringSet_add. case_bool_decide as E; [done|].
  apply NoDup_app. split_and!; [done| |apply NoDup_singleton].
  intros x Hx ->%list_elem_of_singleton. done.
Qed.

Lemma foldl_StringSet_add_prefix l : ∀ acc,
  ∃ more, foldl StringSet_add acc l = acc ++ more.
Proof.
  induction l as [|y l IH]; intros acc; simpl.
  - exists []. by rewrite app_nil_r.
  - destruct (IH (StringSet_add acc y)) as [more ->].
    unfold StringSet_add. case_bool_decide.
    + by exists more.
    + exists ([y] ++ more). by rewrite app_assoc.
Qed.

Lemma foldl_StringSet_add_id l : ∀ acc,
  (∀ x, x ∈ l → x ∈ acc) → foldl StringSet_add acc l = acc.
Proof.
  induction l as [|y l IH]; intros acc Hin; simpl; [done|].
  unfold StringSet_add. rewrite bool_decide_eq_true_2 by (apply Hin; left).
  apply IH. intros x Hx. apply Hin. by right.
Qed.

Lemma foldl_StringSet_add_NoDup l : ∀ acc,
  NoDup (acc ++ l) → foldl StringSet_add acc l = acc ++ l.
Proof.
  induction l as [|y l IH]; intros acc Hnd; simpl.
  - by rewrite app_nil_r.
  - assert (y ∉ acc) as Hy.
    { apply NoDup_app in Hnd as (_ & Hdis & _). intros Hin.
      apply (Hdis y Hin). left. }
    unfold StringSet_add. rewrite bool_decide_eq_false_2 by done.
    rewrite IH; rewrite <- app_assoc; done.
Qed.

Lemma new_StringSet_NoDup_id l : NoDup l → new_StringSet l = l.
Proof. intros Hnd. unfold new_StringSet. by rewrite foldl_StringSet_add_NoDup. Qed.

Lemma elem_of_new_StringSet l x : x ∈ new_StringSet l ↔ x ∈ l.
Proof.
  unfold new_StringSet. rewrite elem_of_foldl_StringSet_add, elem_of_nil. tauto.
Qed.

Lemma NoDup_new_StringSet l : NoDup (new_StringSet l).
Proof. apply NoDup_foldl_StringSet_add, NoDup_nil_2. Qed.

(** Merging again what was merged changes nothing. *)
Lemma new_StringSet_absorb l1 l2 :
  new_StringSet (new_StringSet (l1 ++ l2) ++ l2) = new_StringSet (l1 ++ l2).
Proof.
  unfold new_StringSet at 1. rewrite foldl_app.
  fold (new_StringSet (new_StringSet (l1 ++ l2))).
  rewrite (new_StringSet_NoDup_id _ (NoDup_new_StringSet _)).
  apply foldl_StringSet_add_id. intros x Hx.
  apply elem_of_new_StringSet, elem_of_app. by right.
Qed.

(** The tags already in the set come first, in their order. *)
Lemma new_StringSet_app l1 l2 :
  ∃ more, new_StringSet (l1 ++ l2) = new_StringSet l1 ++ more.
Proof.
  unfold new_StringSet. rewrite foldl_app. apply foldl_StringSet_add_prefix.
Qed.

Lemma split_app_sep sep s t :
  sep ∉ s → split sep (s ++ sep :: t) = s :: split sep t.
Proof.
  induction s as [|c s IH]; intros Hs.
  - simpl. by rewrite bool_decide_eq_true_2.
  - apply not_elem_of_cons in Hs as [Hc Hs]. simpl.
    rewrite bool_decide_eq_false_2 by done. by rewrite IH.
Qed.

Lemma split_no_sep_id sep s : sep ∉ s → split sep s = [s].
Proof.
  induction s as [|c s IH]; intros Hs; [done|].
  apply not_elem_of_cons in Hs as [Hc Hs]. simpl.
  rewrite bool_decide_eq_false_2 by done. by rewrite IH.
Qed.

Lemma map_trim_split_join l :
  l ≠ [] → (∀ t, t ∈ l → trim t = t ∧ comma ∉ t) →
  map trim (split comma (join (js ", ") l)) = l.
Proof.
  induction l as [|t l IH]; [done|]. intros _ Hl.
  destruct (Hl t ltac:(left)) as [Htrim Hcomma].
  cbn [join]. destruct l as [|t' l'].
  - rewrite split_no_sep_id by done. simpl. by rewrite Htrim.
  - change (js ", ") with (comma :: [32%N]).
    change ((comma :: [32%N]) ++ ?x) with (comma :: 32%N :: x).
    rewrite split_app_sep by done. cbn [map]. rewrite Htrim. f_equal.
    rewrite map_trim_split_cons_space by done.
    apply IH; [done|]. intros u Hu. apply Hl. by right.
Qed.

(** Reading back a written tag list. *)
Lemma parse_tag_list_join l :
  (∀ t, t ∈ l → t ≠ [] ∧ trim t = t ∧ comma ∉ t) →
  parse_tag_list (join (js ", ") l) = l.
Proof.
  intros Hl. unfold parse_tag_list. destruct l as [|t l]; [done|].
  rewrite map_trim_split_join; [|done|intros u Hu; by destruct (Hl u Hu) as (_ & ? & ?)].
  induction (t :: l) as [|u k IH]; [done|].
  rewrite filter_cons_True by (by destruct (Hl u ltac:(left))).
  f_equal. apply IH. intros v Hv. apply Hl. by right.
Qed.

Lemma trimStart_length s : length (trimStart s) ≤ length s.
Proof.
  induction s as [|c s IH]; simpl; [done|].
  destruct (is_space c); simpl; lia.
Qed.

Lemma trimStart_suffix s : ∃ pre, s = pre ++ trimStart s.
Proof.
  induction s as [|c s [pre IH]]; [by exists []|]. simpl.
  destruct (is_space c).
  - exists (c :: pre). simpl. by f_equal.
  - by exists [].
Qed.

Lemma trimStart_fixed s :
  trimStart s = s ↔ s = [] ∨ ∃ c r, s = c :: r ∧ is_space c = false.
Proof.
  destruct s as [|c r]; simpl.
  - split; [by left|done].
  - destruct (is_space c) eqn:E.
    + split.
      * intros Heq. pose proof (trimStart_length r) as Hlen.
        rewrite Heq in Hlen. simpl in Hlen. lia.
      * intros [|(c' & r' & [= <- <-] & ?)]; congruence.
    + split; [|done]. intros _. right. by exists c, r.
Qed.

Lemma trimStart_idemp s : trimStart (trimStart s) = trimStart s.
Proof.
  apply trimStart_fixed. destruct (trimStart_head s) as [->|(c & r & -> & ?)].
  - by left.
  - right. by exists c, r.
Qed.

(** A prefix of a string without leading white space has none. *)
Lemma trimStart_fixed_prefix s t :
  trimStart (s ++ t) = s ++ t → trimStart s = s.
Proof.
  rewrite !trimStart_fixed. destruct s as [|c r]; [by left|].
  intros [|(c' & r' & [= <- <-] & ?)]; [done|]. right. by exists c, r.
Qed.

Lemma trimEnd_trimEnd s : trimEnd (trimEnd s) = trimEnd s.
Proof.
  unfold trimEnd. by rewrite reverse_involutive, trimStart_idemp.
Qed.

Lemma trimEnd_trimStart_fixed s :
  trimEnd s = s → trimEnd (trimStart s) = trimStart s.
Proof.
  unfold trimEnd. intros Hs.
  assert (trimStart (reverse s) = reverse s) as Hrev.
  { rewrite <- Hs at 2. by rewrite reverse_involutive. }
  assert (∀ pre y, trimStart (reverse (pre ++ y)) = reverse (pre ++ y) →
                   trimStart (reverse y) = reverse y) as Hprefix.
  { intros pre y. rewrite reverse_app. apply trimStart_fixed_prefix. }
  destruct (trimStart_suffix s) as [pre Hpre].
  rewrite (Hprefix pre (trimStart s)).
  - apply reverse_involutive.
  - by rewrite <- Hpre.
Qed.

Lemma trim_idemp s : trim (trim s) = trim s.
Proof.
  unfold trim.
  rewrite (trimEnd_trimStart_fixed (trimEnd s)) by apply trimEnd_trimEnd.
  apply trimStart_idemp.
Qed.

Lemma split_elem sep s p c : p ∈ split sep s → c ∈ p → c ∈ s.
Proof.
  revert p. induction s as [|d s IH]; intros p; simpl.
  - by intros ->%list_elem_of_singleton.
  - case_bool_decide as Hd.
    + intros [->|Hin]%elem_of_cons Hc; [by apply elem_of_nil in Hc|].
      right. by eapply IH.
    + destruct (split sep s) as [|q qs].
      * intros ->%list_elem_of_singleton Hc. apply list_elem_of_singleton in Hc as ->.
        left.
      * intros [->|Hin]%elem_of_cons Hc.
        -- apply elem_of_cons in Hc as [->|Hc]; [left|right].
           apply (IH q); [left|done].
        -- right. apply (IH p); [by right|done].
Qed.

(** What the parser returns is trimmed, not empty, free of commas, and
    made of characters of the text. *)
Lemma parse_tag_list_elem s t :
  t ∈ parse_tag_list s →
  t ≠ [] ∧ trim t = t ∧ (comma ∉ t) ∧ ∀ c, c ∈ t → c ∈ s.
Proof.
  unfold parse_tag_list. intros [Hne Hin]%list_elem_of_filter.
  apply list_elem_of_fmap in Hin as (p & -> & Hp).
  split_and!; [done|apply trim_idemp| |].
  - intros Hc. by apply (split_no_sep comma s p Hp), trim_elem.
  - intros c Hc%trim_elem. by eapply split_elem.
Qed.
Lemma is_space_line_terminator c : is_line_terminator c = true → is_space c = true.
Proof.
  unfold is_line_terminator, is_space. intros Hc%bool_decide_eq_true.
  rewrite !elem_of_cons, elem_of_nil in Hc.
  destruct Hc as [->|[->|[->|[->|[]]]]]; reflexivity.
Qed.

Lemma starts_with_app_other needle s x t :
  x ∉ needle →
  starts_with needle (s ++ x :: t) = starts_with needle s.
Proof.
  revert s. induction needle as [|a n IH]; intros s Hx; [by destruct s|].
  apply not_elem_of_cons in Hx as [Hxa Hxn].
  destruct s as [|b s]; simpl.
  - rewrite bool_decide_eq_false_2; [done|congruence].
  - by rewrite IH.
Qed.

Lemma starts_with_length needle s :
  starts_with needle s = true → length needle ≤ length s.
Proof.
  intros [post ->]%starts_with_spec. rewrite length_app. lia.
Qed.

Lemma trimStart_not_all_space s :
  forallb is_space s = false → trimStart s ≠ [].
Proof.
  induction s as [|c s IH]; simpl; [done|].
  destruct (is_space c); simpl; [exact IH|done].
Qed.

Lemma first_line_app_terminator s x t :
  is_line_terminator x = true → first_line (s ++ x :: t) = first_line s.
Proof.
  intros Hx. induction s as [|c s IH]; simpl; [by rewrite Hx|].
  destruct (is_line_terminator c); [done|]. by rewrite IH.
Qed.

Lemma first_line_length s : length (first_line s) ≤ length s.
Proof.
  induction s as [|c s IH]; simpl; [done|].
  destruct (is_line_terminator c); simpl; lia.
Qed.

Lemma first_line_app_plain g t :
  (∀ c, c ∈ g → is_line_terminator c = false) →
  first_line (g ++ t) = g ++ first_line t.
Proof.
  induction g as [|c g IH]; intros Hg; [done|]. simpl.
  rewrite (Hg c) by left. f_equal. apply IH. intros d Hd. apply Hg. by right.
Qed.

Lemma first_line_plain s c : c ∈ first_line s → is_line_terminator c = false.
Proof.
  induction s as [|d s IH]; simpl; [by intros ?%elem_of_nil|].
  destruct (is_line_terminator d) eqn:E; [by intros ?%elem_of_nil|].
  intros [->|Hin]%elem_of_cons; [done|by apply IH].
Qed.

Lemma first_line_take s k :
  k ≤ length (first_line s) → take k s = take k (first_line s).
Proof.
  revert k. induction s as [|c s IH]; intros k; simpl; [done|].
  destruct (is_line_terminator c); simpl.
  - intros Hk. by replace k with 0 by lia.
  - destruct k as [|k]; [done|]. simpl. intros Hk. f_equal. apply IH. lia.
Qed.

Lemma last_index_of_lt x s k : last_index_of x s = Some k → k < length s.
Proof.
  revert k. induction s as [|c s IH]; intros k; simpl; [done|].
  destruct (last_index_of x s) as [j|].
  - intros [= <-]. specialize (IH j eq_refl). lia.
  - case_bool_decide; [|done]. intros [= <-]. lia.
Qed.

Lemma last_index_of_None x s : last_index_of x s = None ↔ x ∉ s.
Proof.
  induction s as [|c s IH]; simpl.
  - split; [intros _; apply not_elem_of_nil|done].
  - destruct (last_index_of x s) as [j|].
    + split; [done|]. intros Hx. apply not_elem_of_cons in Hx as [_ Hx].
      by apply IH in Hx.
    + rewrite not_elem_of_cons. case_bool_decide as E.
      * split; [done|]. intros [? _]. congruence.
      * split; [|done]. intros _. split; [congruence|]. by apply IH.
Qed.

Lemma last_index_of_app_last x g t :
  x ∉ t → last_index_of x (g ++ x :: t) = Some (length g).
Proof.
  intros Ht. induction g as [|c g IH]; simpl.
  - rewrite (proj2 (last_index_of_None x t) Ht).
    by rewrite bool_decide_eq_true_2.
  - by rewrite IH.
Qed.

(** After the last occurrence there is none. *)
Lemma last_index_of_after x s k :
  last_index_of x s = Some k → x ∉ drop (S k) s.
Proof.
  revert k. induction s as [|c s IH]; intros k; simpl; [done|].
  destruct (last_index_of x s) as [j|] eqn:E.
  - intros [= <-]. by apply IH.
  - case_bool_decide; [|done]. intros [= <-]. simpl.
    rewrite drop_0. by apply last_index_of_None.
Qed.

Lemma first_line_drop s k :
  k ≤ length (first_line s) → first_line (drop k s) = drop k (first_line s).
Proof.
  revert k. induction s as [|c s IH]; intros k; simpl.
  - by rewrite !drop_nil.
  - destruct (is_line_terminator c) eqn:E; simpl.
    + intros Hk. replace k with 0 by lia. simpl. by rewrite E.
    + destruct k as [|k]; simpl; [by rewrite E|]. intros Hk. apply IH. lia.
Qed.

Lemma last_index_of_split x s k :
  last_index_of x s = Some k → s = take k s ++ x :: drop (S k) s.
Proof.
  revert k. induction s as [|c s IH]; intros k; simpl; [done|].
  destruct (last_index_of x s) as [j|] eqn:E.
  - intros [= <-]. simpl. f_equal. by apply IH.
  - case_bool_decide as Ec; [|done]. intros [= <-]. simpl. by rewrite drop_0, Ec.
Qed.

Lemma first_line_prefix s : ∃ t, s = first_line s ++ t.
Proof.
  induction s as [|c s [t IH]]; [by exists []|]. simpl.
  destruct (is_line_terminator c).
  - by exists (c :: s).
  - exists t. simpl. by f_equal.
Qed.

(** The shape of a match of the tags pattern. *)
Lemma match_tags_here_Some s g a :
  match_tags_here s = Some (g, a) →
  ∃ ws, s = js "tags:" ++ ws ++ [91%N] ++ g ++ [93%N] ++ a ∧
        (∀ c, c ∈ g → is_line_terminator c = false) ∧
        (93%N ∉ first_line a).
Proof.
  unfold match_tags_here.
  destruct (starts_with (js "tags:") s) eqn:Estart; [|done].
  apply starts_with_drop in Estart.
  change (length (js "tags:")) with 5 in Estart.
  destruct (trimStart_suffix (drop 5 s)) as [ws Hws].
  destruct (trimStart (drop 5 s)) as [|c rest]; [done|].
  case_bool_decide as Ec; [subst c|done].
  destruct (last_index_of 93%N (first_line rest)) as [k|] eqn:Ek; [|done].
  intros [= <- <-]. exists ws.
  pose proof (last_index_of_lt _ _ _ Ek) as Hk.
  split_and!.
  - rewrite Estart at 1. f_equal. rewrite Hws. f_equal. simpl. f_equal.
    destruct (first_line_prefix rest) as [t Ht].
    pose proof (last_index_of_split _ _ _ Ek) as Hsplit.
    rewrite Ht at 1. rewrite Hsplit at 1.
    rewrite <- app_assoc. simpl.
    rewrite (first_line_take rest k) by lia. f_equal. f_equal.
    rewrite Ht at 2. rewrite drop_app_le; [done|lia].
  - intros c Hc. rewrite first_line_take in Hc by lia.
    apply (first_line_plain rest).
    apply elem_of_take in Hc as (i & Hi & _). by eapply list_elem_of_lookup_2.
  - rewrite first_line_drop by lia. by apply last_index_of_after.
Qed.

(** Text of that shape is matched, with that group. *)
Lemma match_tags_here_intro ws g a :
  forallb is_space ws = true →
  (∀ c, c ∈ g → is_line_terminator c = false) →
  93%N ∉ first_line a →
  match_tags_here (js "tags:" ++ ws ++ [91%N] ++ g ++ [93%N] ++ a) = Some (g, a).
Proof.
  intros Hws Hg Ha. unfold match_tags_here.
  rewrite starts_with_app.
  change (drop 5 (js "tags:" ++ ?x)) with x.
  rewrite trimStart_app, Hws. cbn [app trimStart].
  change (is_space 91) with false. cbv iota.
  rewrite bool_decide_eq_true_2 by done.
  rewrite first_line_app_plain by done. cbn [first_line].
  change (is_line_terminator 93) with false. cbv iota.
  rewrite last_index_of_app_last by done.
  rewrite take_app_length.
  replace (S (length g)) with (length (g ++ [93%N])) by (rewrite length_app; simpl; lia).
  rewrite (cons_middle 93%N g a), (app_assoc g [93%N] a), drop_app_length. done.
Qed.
Lemma tags_prefix_no_terminator x :
  is_line_terminator x = true → x ∉ js "tags:".
Proof.
  intros Hx Hin. cbn in Hin. rewrite !elem_of_cons, elem_of_nil in Hin.
  destruct Hin as [->|[->|[->|[->|[->|[]]]]]]; by vm_compute in Hx.
Qed.

Lemma match_tags_here_after_length s g a :
  match_tags_here s = Some (g, a) → length a < length s.
Proof.
  intros (ws & -> & _)%match_tags_here_Some. rewrite !length_app. simpl. lia.
Qed.

(** A match attempt does not look past a line break that is followed
    by something other than white space or an opening bracket. *)
Lemma match_tags_here_app s lt c rest :
  is_line_terminator lt = true → is_space c = false → c ≠ 91%N →
  match_tags_here (s ++ lt :: c :: rest)
  = match match_tags_here s with
    | Some (g, a) => Some (g, a ++ lt :: c :: rest)
    | None => None
    end.
Proof.
  intros Hlt Hc Hc91. unfold match_tags_here.
  rewrite starts_with_app_other by (by apply tags_prefix_no_terminator).
  destruct (starts_with (js "tags:") s) eqn:Estart; [|done].
  apply starts_with_length in Estart. change (length (js "tags:")) with 5 in Estart.
  rewrite drop_app_le by done. rewrite trimStart_app.
  destruct (forallb is_space (drop 5 s)) eqn:Espace.
  - rewrite (trimStart_all_space _ Espace). cbn [trimStart].
    rewrite (is_space_line_terminator _ Hlt), Hc.
    by rewrite bool_decide_eq_false_2.
  - pose proof (trimStart_not_all_space _ Espace) as Hne.
    destruct (trimStart (drop 5 s)) as [|d r1]; [done|]. cbn [app].
    case_bool_decide; [|done].
    rewrite first_line_app_terminator by done.
    destruct (last_index_of 93%N (first_line r1)) as [k|] eqn:Ek; [|done].
    pose proof (last_index_of_lt _ _ _ Ek) as Hk.
    pose proof (first_line_length r1) as Hlen.
    rewrite take_app_le by lia. rewrite drop_app_le by lia. done.
Qed.

Lemma search_tags_nil flag : search_tags flag [] = None.
Proof. by destruct flag. Qed.

Lemma search_tags_cons flag c r :
  search_tags flag (c :: r)
  = match (if flag then match_tags_here (c :: r) else None) with
    | Some (group, after) =>
        Some ([], take (length (c :: r) - length after) (c :: r), group, after)
    | None =>
        match search_tags (is_line_terminator c) r with
        | Some (before, matched, group, after) =>
            Some (c :: before, matched, group, after)
        | None => None
        end
    end.
Proof. reflexivity. Qed.

Lemma take_matched (m a : jsstring) :
  take (length (m ++ a) - length a) (m ++ a) = m.
Proof.
  rewrite length_app. replace (length m + length a - length a) with (length m) by lia.
  apply take_app_length.
Qed.

Lemma match_tags_here_suffix s g a :
  match_tags_here s = Some (g, a) → ∃ m, s = m ++ a ∧ head m = Some 116%N.
Proof.
  intros (ws & -> & _)%match_tags_here_Some.
  exists (js "tags:" ++ ws ++ [91%N] ++ g ++ [93%N]). split; [|done].
  by rewrite <- !app_assoc.
Qed.

(** What a successful search returns. *)
Lemma search_tags_Some flag s b m g a :
  search_tags flag s = Some (b, m, g, a) →
  s = b ++ m ++ a ∧ match_tags_here (m ++ a) = Some (g, a) ∧
  head m = Some 116%N.
Proof.
  revert flag b. induction s as [|c r IH]; intros flag b.
  - by rewrite search_tags_nil.
  - rewrite search_tags_cons.
    destruct (if flag then match_tags_here (c :: r) else None)
      as [[g0 a0]|] eqn:Ehere.
    + intros [= <- <- <- <-].
      destruct flag; [|done].
      destruct (match_tags_here_suffix _ _ _ Ehere) as (m0 & Hs & Hhead).
      assert (take (length (c :: r) - length a0) (c :: r) = m0) as Htake
        by (rewrite Hs; apply take_matched).
      cbn [length] in Htake |- *. rewrite Htake. rewrite Hs in Ehere. done.
    + destruct (search_tags (is_line_terminator c) r) as [[[[b1 m1] g1] a1]|] eqn:Er;
        [|done].
      intros [= <- <- <- <-].
      destruct (IH _ _ Er) as (-> & ? & ?). done.
Qed.

(** The text before the first match ends with a line terminator (or is
    empty, at a line start). *)
Lemma search_tags_before flag s b m g a :
  search_tags flag s = Some (b, m, g, a) →
  (b = [] ∧ flag = true) ∨ ∃ d lt, b = d ++ [lt] ∧ is_line_terminator lt = true.
Proof.
  revert flag b. induction s as [|c r IH]; intros flag b.
  - by rewrite search_tags_nil.
  - rewrite search_tags_cons.
    destruct (if flag then match_tags_here (c :: r) else None)
      as [[g0 a0]|] eqn:Ehere.
    + intros [= <- <- <- <-]. left. by destruct flag.
    + destruct (search_tags (is_line_terminator c) r) as [[[[b1 m1] g1] a1]|] eqn:Er;
        [|done].
      intros [= <- <- <- <-]. right.
      destruct (IH _ _ Er) as [[-> Hc]|(d & lt & -> & Hlt)].
      * by exists [], c.
      * by exists (c :: d), lt.
Qed.

End FrontMatterBasics.


Section FrontMatterSearch.
Implicit Types s t b m g a d tail rest X : jsstring.

(** A match found in a text is still the first match when the text is
    followed by a line break and a character that is neither white
    space nor an opening bracket. *)
Lemma search_tags_app_Some flag s b m g a lt c rest :
  is_line_terminator lt = true → is_space c = false → c ≠ 91%N →
  search_tags flag s = Some (b, m, g, a) →
  search_tags flag (s ++ lt :: c :: rest) = Some (b, m, g, a ++ lt :: c :: rest).
Proof.
  intros Hlt Hc Hc91. revert flag b.
  induction s as [|x r IH]; intros flag b.
  - by rewrite search_tags_nil.
  - rewrite search_tags_cons. cbn [app]. rewrite search_tags_cons.
    change (x :: r ++ lt :: c :: rest) with ((x :: r) ++ lt :: c :: rest).
    destruct flag.
    + rewrite match_tags_here_app by done.
      destruct (match_tags_here (x :: r)) as [[g0 a0]|] eqn:Ehere.
      * intros [= <- <- <- <-].
        pose proof (match_tags_here_after_length _ _ _ Ehere) as Hlen.
        replace (length ((x :: r) ++ lt :: c :: rest)
                 - length (a0 ++ lt :: c :: rest))
          with (S (length r) - length a0)
          by (rewrite !length_app; simpl; lia).
        rewrite take_app_le by (simpl in *; lia). done.
      * destruct (search_tags (is_line_terminator x) r)
          as [[[[b1 m1] g1] a1]|] eqn:Er; [|done].
        intros [= <- <- <- <-]. by rewrite (IH _ _ Er).
    + destruct (search_tags (is_line_terminator x) r)
        as [[[[b1 m1] g1] a1]|] eqn:Er; [|done].
      intros [= <- <- <- <-]. by rewrite (IH _ _ Er).
Qed.

(** Without a match in the text, the search goes on after it. *)
Lemma search_tags_app_None flag s lt c rest :
  is_line_terminator lt = true → is_space c = false → c ≠ 91%N →
  search_tags flag s = None →
  search_tags flag (s ++ lt :: c :: rest)
  = match search_tags (match last s with
                       | Some x => is_line_terminator x
                       | None => flag
                       end) (lt :: c :: rest) with
    | Some (b, m, g, a) => Some (s ++ b, m, g, a)
    | None => None
    end.
Proof.
  intros Hlt Hc Hc91. revert flag.
  induction s as [|x r IH]; intros flag.
  - intros _. cbn [app last].
    by destruct (search_tags flag (lt :: c :: rest)) as [[[[? ?] ?] ?]|].
  - rewrite search_tags_cons. cbn [app]. rewrite search_tags_cons.
    change (x :: r ++ lt :: c :: rest) with ((x :: r) ++ lt :: c :: rest).
    intros Hnone.
    assert ((if flag then match_tags_here ((x :: r) ++ lt :: c :: rest) else None)
            = None) as ->.
    { destruct flag; [|done]. rewrite match_tags_here_app by done.
      by destruct (match_tags_here (x :: r)) as [[? ?]|]. }
    assert (search_tags (is_line_terminator x) r = None) as Hr.
    { destruct (if flag then match_tags_here (x :: r) else None) as [[? ?]|];
        [done|].
      by destruct (search_tags (is_line_terminator x) r) as [[[[? ?] ?] ?]|]. }
    rewrite (IH _ Hr).
    assert (match last (x :: r) with
            | Some y => is_line_terminator y
            | None => flag
            end
            = match last r with
              | Some y => is_line_terminator y
              | None => is_line_terminator x
              end) as ->.
    { destruct r as [|y r']; [done|]. cbn [last].
      destruct (last (y :: r')) eqn:El; [done|].
      by apply last_None in El. }
    by destruct (search_tags _ (lt :: c :: rest)) as [[[[? ?] ?] ?]|].
Qed.

(** The opening line of the front matter is no match, and the text
    after it starts a line. *)
Lemma search_tags_yaml_open X :
  search_tags true (yaml_open ++ X)
  = match search_tags true X with
    | Some (b, m, g, a) => Some (yaml_open ++ b, m, g, a)
    | None => None
    end.
Proof.
  assert (∀ (flag : bool) (c : N) (r : jsstring),
            (if flag then match_tags_here (c :: r) else None) = None →
            search_tags flag (c :: r)
            = match search_tags (is_line_terminator c) r with
              | Some (before, matched, group, after) =>
                  Some (c :: before, matched, group, after)
              | None => None
              end) as Hskip.
  { intros flag c r Hnone. by rewrite search_tags_cons, Hnone. }
  change (yaml_open ++ X) with (45 :: 45 :: 45 :: 10 :: X)%N.
  rewrite Hskip by reflexivity. change (is_line_terminator 45) with false.
  rewrite Hskip by reflexivity. change (is_line_terminator 45) with false.
  rewrite Hskip by reflexivity. change (is_line_terminator 45) with false.
  rewrite Hskip by reflexivity. change (is_line_terminator 10) with true.
  by destruct (search_tags true X) as [[[[? ?] ?] ?]|].
Qed.

(** Replacing the first match by another text that starts with "t" and
    is itself matched leaves the match where it was. *)
Lemma search_tags_replace flag b X :
  ∀ m g a X1 g' a',
  search_tags flag (b ++ X) = Some (b, m, g, a) →
  match_tags_here (116%N :: X1) = Some (g', a') →
  search_tags flag (b ++ 116%N :: X1)
  = Some (b, take (length (116%N :: X1) - length a') (116%N :: X1), g', a').
Proof.
  revert flag. induction b as [|x b IH]; intros flag m g a X1 g' a' Hsearch Hnew.
  - cbn [app] in *. rewrite search_tags_cons.
    assert (flag = true) as ->.
    { by destruct (search_tags_before _ _ _ _ _ _ Hsearch)
        as [[_ ?]|(d & lt & ? & _)]; [|destruct d]. }
    by rewrite Hnew.
  - pose proof Hsearch as Hshape. apply search_tags_Some in Hshape as (_ & _ & Hm).
    destruct m as [|m0 m1]; [done|]. injection Hm as ->.
    pose proof Hsearch as Hsearch0.
    cbn [app] in Hsearch |- *. rewrite search_tags_cons in Hsearch |- *.
    destruct (search_tags_before _ _ _ _ _ _ Hsearch0)
      as [[? _]|(d & lt & Hd & Hlt)]; [done|].
    assert (X = 116%N :: drop 1 X) as HX.
    { apply search_tags_Some in Hsearch0 as (Hs & _ & _).
      apply app_inv_head in Hs. by rewrite Hs. }
    assert ((if flag then match_tags_here (x :: b ++ 116%N :: X1) else None) = None)
      as ->.
    { destruct flag; [|done].
      change (x :: b ++ 116%N :: X1) with ((x :: b) ++ 116%N :: X1).
      rewrite Hd, <- app_assoc. cbn [app].
      rewrite match_tags_here_app by done.
      destruct (match_tags_here (x :: b ++ X)) as [[? ?]|] eqn:Eold; [done|].
      change (x :: b ++ X) with ((x :: b) ++ X) in Eold.
      rewrite Hd, <- app_assoc, HX in Eold. cbn [app] in Eold.
      rewrite match_tags_here_app in Eold by done.
      by destruct (match_tags_here d) as [[? ?]|]. }
    destruct (if flag then match_tags_here (x :: b ++ X) else None) as [[? ?]|];
      [done|].
    destruct (search_tags (is_line_terminator x) (b ++ X))
      as [[[[b1 m2] g1] a1]|] eqn:Er; [|done].
    injection Hsearch as -> -> -> ->.
    by rewrite (IH _ _ _ _ _ _ _ Er Hnew).
Qed.
End FrontMatterSearch.

Section FrontMatterClose.
Implicit Types s t b a d p X R : jsstring.

Lemma find_first_intro needle b a :
  (∀ k, k < length b → starts_with needle (drop k (b ++ needle ++ a)) = false) →
  find_first needle (b ++ needle ++ a) = Some (b, a).
Proof.
  induction b as [|c b IH]; intros Hclear.
  - cbn [app]. destruct (needle ++ a) as [|x r] eqn:E.
    + cbn [find_first]. destruct needle; [|done]. simpl in E. subst a. done.
    + cbn [find_first]. rewrite <- E, starts_with_app. by rewrite drop_app_length.
  - cbn [app find_first].
    pose proof (Hclear 0 ltac:(simpl; lia)) as H0. cbn [drop app] in H0.
    rewrite H0. rewrite IH; [done|].
    intros k Hk. apply (Hclear (S k)). simpl. lia.
Qed.

Lemma no_close_before_app p n X :
  no_close_before (length p) (p ++ X) → no_close_before n X →
  no_close_before (length p + n) (p ++ X).
Proof.
  intros Hp HX k Hk. destruct (decide (k < length p)) as [Hlt|Hge].
  - by apply Hp.
  - rewrite drop_app_ge by lia. apply HX. lia.
Qed.

Lemma no_close_before_app_inv p n X :
  no_close_before (length p + n) (p ++ X) →
  no_close_before (length p) (p ++ X) ∧ no_close_before n X.
Proof.
  intros H. split.
  - intros k Hk. apply H. lia.
  - intros k Hk. specialize (H (length p + k) ltac:(lia)).
    rewrite drop_app_ge in H by lia.
    by replace (length p + k - length p) with k in H by lia.
Qed.

Lemma starts_with_close_head c R :
  c ≠ 10%N → starts_with yaml_close (c :: R) = false.
Proof.
  intros Hc. unfold yaml_close. cbn.
  by rewrite bool_decide_eq_false_2 by congruence.
Qed.

(** A text without line feed contains no closing line. *)
Lemma no_close_before_plain p X :
  10%N ∉ p → no_close_before (length p) (p ++ X).
Proof.
  intros Hp k Hk. rewrite drop_app_le by lia.
  destruct (drop k p) as [|c r] eqn:E.
  - apply (f_equal length) in E. rewrite length_drop in E. simpl in E. lia.
  - cbn [app]. apply starts_with_close_head. intros ->. apply Hp.
    rewrite <- (take_drop k p), E. apply elem_of_app. right. left.
Qed.

(** Whether a closing line starts in a non-empty text followed by a
    "t" does not depend on what follows the "t". *)
Lemma starts_with_close_before_t d R R' :
  d ≠ [] →
  starts_with yaml_close (d ++ 116%N :: R) = starts_with yaml_close (d ++ 116%N :: R').
Proof.
  intros Hd. destruct d as [|d1 [|d2 [|d3 [|d4 d5]]]]; try done; reflexivity.
Qed.

Lemma no_close_before_t b R R' :
  no_close_before (length b) (b ++ 116%N :: R) →
  no_close_before (length b) (b ++ 116%N :: R').
Proof.
  intros H k Hk. specialize (H k Hk).
  rewrite drop_app_le in H |- * by lia.
  rewrite (starts_with_close_before_t _ R' R); [done|].
  intros E. apply (f_equal length) in E. rewrite length_drop in E. simpl in E. lia.
Qed.

(** The same for a line feed followed by a "t" in place of the closing
    line. *)
Lemma starts_with_close_before_nl d R R' :
  d ≠ [] →
  starts_with yaml_close (d ++ 10%N :: 45%N :: 45%N :: 45%N :: R) = false →
  starts_with yaml_close (d ++ 10%N :: 116%N :: R') = false.
Proof.
  intros Hd. destruct d as [|d1 [|d2 [|d3 [|d4 d5]]]]; try done;
    cbn; intros _; by rewrite ?andb_false_r.
Qed.

Lemma no_close_before_nl b R R' :
  no_close_before (length b) (b ++ yaml_close ++ R) →
  no_close_before (length b) (b ++ 10%N :: 116%N :: R').
Proof.
  intros H k Hk. specialize (H k Hk).
  rewrite drop_app_le in H |- * by lia.
  apply (starts_with_close_before_nl _ R); [|done].
  intros E. apply (f_equal length) in E. rewrite length_drop in E. simpl in E. lia.
Qed.

Lemma match_yaml_intro yaml after :
  no_close_before (length yaml) (yaml ++ yaml_close ++ after) →
  match_yaml (yaml_open ++ yaml ++ yaml_close ++ after) = Some (yaml, after).
Proof.
  intros Hclear. unfold match_yaml. rewrite starts_with_app, drop_app_length.
  by apply find_first_intro.
Qed.

Lemma match_yaml_no_close content yaml after :
  match_yaml content = Some (yaml, after) →
  no_close_before (length yaml) (yaml ++ yaml_close ++ after).
Proof.
  unfold match_yaml. destruct (starts_with yaml_open content); [|done].
  intros Hfind k Hk.
  rewrite <- (find_first_Some _ _ _ _ Hfind).
  by apply (find_first_minimal _ _ _ _ Hfind).
Qed.
End FrontMatterClose.

Section FrontMatterUpdate.
Implicit Types s t b a g m yb ya yaml after content : jsstring.
Implicit Types M newTags : list jsstring.

Lemma tags_line_shape M :
  tags_line M = js "tags:" ++ [32%N] ++ [91%N] ++ join (js ", ") M ++ [93%N].
Proof. reflexivity. Qed.

Lemma tags_line_head M : ∃ T1, tags_line M = 116%N :: T1.
Proof. by eexists. Qed.

Lemma plain_join_no_terminator M c :
  (∀ t, t ∈ M → plain_tag t) → c ∈ join (js ", ") M →
  is_line_terminator c = false.
Proof.
  intros HM. induction M as [|t M IH]; [by intros ?%elem_of_nil|].
  cbn [join]. destruct M as [|t' M'].
  - apply HM. left.
  - rewrite !elem_of_app. intros [Hc|[Hc|Hc]].
    + destruct (HM t ltac:(left)) as (_ & _ & _ & _ & Hlt). by apply Hlt.
    + cbn in Hc. rewrite !elem_of_cons, elem_of_nil in Hc.
      by destruct Hc as [->|[->|[]]].
    + apply IH; [|done]. intros u Hu. apply HM. by right.
Qed.

Lemma plain_tags_line_no_terminator M c :
  (∀ t, t ∈ M → plain_tag t) → c ∈ tags_line M → is_line_terminator c = false.
Proof.
  intros HM. unfold tags_line. rewrite !elem_of_app. intros [Hc|[Hc|Hc]].
  - cbn in Hc. rewrite !elem_of_cons, elem_of_nil in Hc.
    by destruct Hc as [->|[->|[->|[->|[->|[->|[->|[]]]]]]]].
  - by eapply plain_join_no_terminator.
  - cbn in Hc. rewrite !elem_of_cons, elem_of_nil in Hc.
    by destruct Hc as [->|[]].
Qed.

Lemma plain_tags_line_no_nl M :
  (∀ t, t ∈ M → plain_tag t) → 10%N ∉ tags_line M.
Proof.
  intros HM Hin. by pose proof (plain_tags_line_no_terminator M _ HM Hin).
Qed.

Lemma plain_tags_line_no_dollar M :
  (∀ t, t ∈ M → (36 ∉ t)%N) → (36 ∉ tags_line M)%N.
Proof.
  intros HM. apply not_elem_of_tags_line; [|done].
  intros Hin. cbn in Hin. rewrite !elem_of_cons, elem_of_nil in Hin.
  by repeat destruct Hin as [?|Hin].
Qed.

Lemma match_tags_here_tags_line M a :
  (∀ t, t ∈ M → plain_tag t) → 93%N ∉ first_line a →
  match_tags_here (tags_line M ++ a) = Some (join (js ", ") M, a).
Proof.
  intros HM Ha. rewrite tags_line_shape, <- !app_assoc.
  apply match_tags_here_intro; [done| |done].
  intros c Hc. by eapply plain_join_no_terminator.
Qed.

Lemma search_tags_tags_line M :
  (∀ t, t ∈ M → plain_tag t) →
  search_tags true (tags_line M) = Some ([], tags_line M, join (js ", ") M, []).
Proof.
  intros HM. pose proof (match_tags_here_tags_line M [] HM) as Hhere.
  rewrite app_nil_r in Hhere. specialize (Hhere ltac:(apply not_elem_of_nil)).
  destruct (tags_line_head M) as [T1 HT]. rewrite HT in *.
  rewrite search_tags_cons, Hhere. by rewrite Nat.sub_0_r, firstn_all.
Qed.

Lemma plain_tag_parse M t :
  (∀ u, u ∈ M → plain_tag u) → t ∈ M → t ≠ [] ∧ trim t = t ∧ comma ∉ t.
Proof. intros HM Ht. by destruct (HM t Ht) as (? & ? & ? & _). Qed.

(** A front matter whose tags line was written by the update, with all
    the new tags in it, is left as it is by the update. *)
Lemma update_fixed yb ya after M newTags :
  match_yaml (yaml_open ++ (yb ++ tags_line M ++ ya) ++ yaml_close ++ after)
    = Some (yb ++ tags_line M ++ ya, after) →
  search_tags true (yb ++ tags_line M ++ ya)
    = Some (yb, tags_line M, join (js ", ") M, ya) →
  (∀ t, t ∈ M → plain_tag t) → NoDup M → (∀ t, t ∈ newTags → t ∈ M) →
  updateFileFrontMatter
    (yaml_open ++ (yb ++ tags_line M ++ ya) ++ yaml_close ++ after) newTags
  = yaml_open ++ (yb ++ tags_line M ++ ya) ++ yaml_close ++ after.
Proof.
  intros Hyaml Hsearch HM Hnd Hnew. unfold updateFileFrontMatter.
  rewrite Hyaml, Hsearch. cbv zeta.
  rewrite parse_tag_list_join by (intros t Ht; by apply (plain_tag_parse M)).
  assert (new_StringSet (M ++ newTags) = M) as ->.
  { unfold new_StringSet. rewrite foldl_app.
    fold (new_StringSet M). rewrite new_StringSet_NoDup_id by done.
    by apply foldl_StringSet_add_id. }
  unfold replace_tags. rewrite search_tags_yaml_open.
  change (yaml_close ++ after) with (10%N :: 45%N :: (45%N :: 45%N :: after)).
  rewrite (search_tags_app_Some true _ _ _ _ _ 10%N 45%N _ eq_refl eq_refl
             ltac:(done) Hsearch).
  rewrite GetSubstitution_no_dollar.
  - by rewrite <- !app_assoc.
  - apply plain_tags_line_no_dollar. intros t Ht.
    by destruct (HM t Ht) as (_ & _ & _ & ? & _).
Qed.
End FrontMatterUpdate.

Section FrontMatterBranches.
Implicit Types s t b a g m yb ya yaml after content : jsstring.
Implicit Types M newTags : list jsstring.

Lemma update_none content newTags :
  match_yaml content = None →
  updateFileFrontMatter content newTags
  = yaml_open ++ tags_line newTags ++ yaml_close ++ nl ++ nl ++ content.
Proof. intros Hnone. unfold updateFileFrontMatter. by rewrite Hnone. Qed.

Lemma update_append content yaml after newTags :
  match_yaml content = Some (yaml, after) →
  search_tags true yaml = None →
  (36 ∉ yaml)%N → (∀ t, t ∈ newTags → (36 ∉ t)%N) →
  updateFileFrontMatter content newTags
  = yaml_open ++ yaml ++ nl ++ tags_line newTags ++ yaml_close ++ after.
Proof.
  intros Hyaml Hsearch Hdollar Htags. unfold updateFileFrontMatter, replace_yaml.
  rewrite Hyaml, Hsearch. rewrite GetSubstitution_no_dollar.
  - unfold yaml_open, yaml_close. by rewrite <- !app_assoc.
  - rewrite !not_elem_of_app.
    split_and!;
      first [ done
            | by apply plain_tags_line_no_dollar
            | apply (bool_decide_unpack _); by vm_compute ].
Qed.

Lemma update_merge content yaml after yb m g ya newTags :
  match_yaml content = Some (yaml, after) →
  search_tags true yaml = Some (yb, m, g, ya) →
  (36 ∉ g)%N → (∀ t, t ∈ newTags → (36 ∉ t)%N) →
  content = yaml_open ++ yb ++ m ++ ya ++ yaml_close ++ after ∧
  updateFileFrontMatter content newTags
  = yaml_open ++ yb
    ++ tags_line (new_StringSet (parse_tag_list g ++ newTags))
    ++ ya ++ yaml_close ++ after.
Proof.
  intros Hyaml Hsearch Hdollar Htags.
  pose proof (match_yaml_Some _ _ _ Hyaml) as Hcontent.
  destruct (search_tags_Some _ _ _ _ _ _ Hsearch) as (Hy & _ & _).
  assert (content = yaml_open ++ yb ++ m ++ ya ++ yaml_close ++ after) as Hc.
  { rewrite Hcontent, Hy. by rewrite <- !app_assoc. }
  split; [done|].
  unfold updateFileFrontMatter, replace_tags. rewrite Hyaml, Hsearch. cbv zeta.
  rewrite Hcontent, search_tags_yaml_open.
  change (yaml_close ++ after) with (10%N :: 45%N :: (45%N :: 45%N :: after)).
  rewrite (search_tags_app_Some true _ _ _ _ _ 10%N 45%N _ eq_refl eq_refl
             ltac:(done) Hsearch).
  rewrite GetSubstitution_no_dollar.
  - by rewrite <- !app_assoc.
  - apply plain_tags_line_no_dollar. intros t Ht.
    apply elem_of_new_StringSet, elem_of_app in Ht as [Ht|Ht]; [|by apply Htags].
    apply parse_tag_list_elem in Ht as (_ & _ & _ & Hsub).
    intros Hin. by apply Hdollar, Hsub.
Qed.
End FrontMatterBranches.

(** X9.  For a file without front matter, the update puts a front matter
    that holds only the tags line in front of the old content, which is
    kept as it is after an empty line.  When the tags are plain (not
    empty, no white space around, no comma, line break or dollar sign),
    the new file has that front matter for the front matter pattern, and
    the tags line read back gives the tags that were written. *)
Theorem updateFileFrontMatter_creates_front_matter
    (content : jsstring) (newTags : list jsstring) :
  match_yaml content = None →
  let written := updateFileFrontMatter content newTags in
  written = js "---" ++ nl ++ tags_line newTags ++ nl ++ js "---" ++ nl ++ nl ++ content ∧
  ((∀ t, t ∈ newTags → plain_tag t) →
   match_yaml written = Some (tags_line newTags, nl ++ nl ++ content) ∧
   ∃ group, search_tags true (tags_line newTags)
              = Some ([], tags_line newTags, group, []) ∧
            parse_tag_list group = newTags).
Proof.
  intros Hnone. cbv zeta. rewrite (update_none _ _ Hnone).
  split; [unfold yaml_open, yaml_close; by rewrite <- !app_assoc|].
  intros Hplain. split.
  - apply match_yaml_intro, no_close_before_plain.
    by apply plain_tags_line_no_nl.
  - exists (join (js ", ") newTags). split.
    + by apply search_tags_tags_line.
    + apply parse_tag_list_join. intros t Ht. by apply (plain_tag_parse newTags).
Qed.

(** X10.  For a file whose front matter has no tags line, and with no
    dollar sign in the front matter or in the tags, the update appends
    the tags line as the last line of the front matter and changes
    nothing else: the lines of the front matter before it and the text
    after the closing line are kept. *)
Theorem updateFileFrontMatter_appends_tags_line
    (content yaml after : jsstring) (newTags : list jsstring) :
  match_yaml content = Some (yaml, after) →
  search_tags true yaml = None →
  (36 ∉ yaml)%N → (∀ t, t ∈ newTags → (36 ∉ t)%N) →
  content = js "---" ++ nl ++ yaml ++ nl ++ js "---" ++ after ∧
  updateFileFrontMatter content newTags
  = js "---" ++ nl ++ yaml ++ nl ++ tags_line newTags ++ nl ++ js "---" ++ after.
Proof.
  intros Hyaml Hsearch Hdollar Htags. split.
  - rewrite (match_yaml_Some _ _ _ Hyaml) at 1.
    unfold yaml_open, yaml_close. by rewrite <- !app_assoc.
  - rewrite (update_append _ _ _ _ Hyaml Hsearch Hdollar Htags).
    unfold yaml_open, yaml_close. by rewrite <- !app_assoc.
Qed.

(** X11.  For a file whose front matter has a tags line, and with no
    dollar sign in that line's list or in the tags, the update rewrites
    that one match and nothing else, to the list of the tags already
    there followed by the new ones: every tag occurs once, the tags that
    were there come first in their order, and every old and every new tag
    is in the list. *)
Theorem updateFileFrontMatter_merges_tags
    (content yaml after yb m g ya : jsstring) (newTags : list jsstring) :
  match_yaml content = Some (yaml, after) →
  search_tags true yaml = Some (yb, m, g, ya) →
  (36 ∉ g)%N → (∀ t, t ∈ newTags → (36 ∉ t)%N) →
  let merged := new_StringSet (parse_tag_list g ++ newTags) in
  content = js "---" ++ nl ++ yb ++ m ++ ya ++ nl ++ js "---" ++ after ∧
  updateFileFrontMatter content newTags
  = js "---" ++ nl ++ yb ++ tags_line merged ++ ya ++ nl ++ js "---" ++ after ∧
  NoDup merged ∧
  (∀ t, t ∈ merged ↔ t ∈ parse_tag_list g ∨ t ∈ newTags) ∧
  (∃ more, merged = new_StringSet (parse_tag_list g) ++ more).
Proof.
  intros Hyaml Hsearch Hdollar Htags. cbv zeta.
  destruct (update_merge _ _ _ _ _ _ _ _ Hyaml Hsearch Hdollar Htags) as [Hc Hu].
  split_and!.
  - rewrite Hc at 1. unfold yaml_open, yaml_close. by rewrite <- !app_assoc.
  - rewrite Hu. unfold yaml_open, yaml_close. by rewrite <- !app_assoc.
  - apply NoDup_new_StringSet.
  - intros t. by rewrite elem_of_new_StringSet, elem_of_app.
  - apply new_StringSet_app.
Qed.

Section FrontMatterIdempotence.
Implicit Types s t b a g m yb ya yaml after content : jsstring.
Implicit Types M newTags : list jsstring.

Lemma update_none_fixed content newTags :
  (∀ t, t ∈ newTags → plain_tag t) → NoDup newTags →
  updateFileFrontMatter
    (yaml_open ++ tags_line newTags ++ yaml_close ++ nl ++ nl ++ content) newTags
  = yaml_open ++ tags_line newTags ++ yaml_close ++ nl ++ nl ++ content.
Proof.
  intros Hplain Hnd.
  pose proof (update_fixed [] [] (nl ++ nl ++ content) newTags newTags) as Hfix.
  cbn [app] in Hfix. rewrite app_nil_r in Hfix. apply Hfix; try done.
  - apply match_yaml_intro, no_close_before_plain.
    by apply plain_tags_line_no_nl.
  - by apply search_tags_tags_line.
Qed.

Lemma update_append_fixed yaml after newTags :
  no_close_before (length yaml) (yaml ++ yaml_close ++ after) →
  search_tags true yaml = None →
  (∀ t, t ∈ newTags → plain_tag t) → NoDup newTags →
  updateFileFrontMatter
    (yaml_open ++ yaml ++ nl ++ tags_line newTags ++ yaml_close ++ after) newTags
  = yaml_open ++ yaml ++ nl ++ tags_line newTags ++ yaml_close ++ after.
Proof.
  intros Hclose Hsearch Hplain Hnd.
  pose proof (update_fixed (yaml ++ nl) [] after newTags newTags) as Hfix.
  rewrite app_nil_r, <- !app_assoc in Hfix. apply Hfix; try done.
  - destruct (tags_line_head newTags) as [T1 HT].
    pose proof (match_yaml_intro (yaml ++ nl ++ tags_line newTags) after) as Hintro.
    rewrite <- !app_assoc in Hintro. apply Hintro.
    rewrite length_app.
    apply (no_close_before_app yaml).
    + rewrite HT. by apply (no_close_before_nl yaml after).
    + rewrite length_app. apply (no_close_before_app nl).
      * intros k Hk. replace k with 0 by (simpl in Hk; lia).
        rewrite HT. reflexivity.
      * apply no_close_before_plain. by apply plain_tags_line_no_nl.
  - destruct (tags_line_head newTags) as [T1 HT].
    pose proof (search_tags_tags_line newTags Hplain) as Hline.
    rewrite HT in Hline |- *.
    change (yaml ++ nl ++ 116%N :: T1) with (yaml ++ 10%N :: 116%N :: T1).
    rewrite (search_tags_app_None true yaml 10%N 116%N T1 eq_refl eq_refl
               ltac:(done) Hsearch).
    rewrite search_tags_cons.
    assert ((if match last yaml with
                | Some x => is_line_terminator x
                | None => true
                end
             then match_tags_here (10%N :: 116%N :: T1) else None) = None) as ->
      by (by destruct (match last yaml with Some x => _ | None => _ end)).
    change (is_line_terminator 10) with true. by rewrite Hline.
Qed.

Lemma update_merge_fixed yb m g ya after M newTags :
  no_close_before (length (yb ++ m ++ ya)) ((yb ++ m ++ ya) ++ yaml_close ++ after) →
  search_tags true (yb ++ m ++ ya) = Some (yb, m, g, ya) →
  (∀ t, t ∈ M → plain_tag t) → NoDup M → (∀ t, t ∈ newTags → t ∈ M) →
  updateFileFrontMatter
    (yaml_open ++ yb ++ tags_line M ++ ya ++ yaml_close ++ after) newTags
  = yaml_open ++ yb ++ tags_line M ++ ya ++ yaml_close ++ after.
Proof.
  intros Hclose Hsearch Hplain Hnd Hnew.
  destruct (search_tags_Some _ _ _ _ _ _ Hsearch) as (_ & Hhere & Hm).
  destruct m as [|m0 m1]; [done|]. injection Hm as ->.
  destruct (match_tags_here_Some _ _ _ Hhere) as (ws & _ & _ & Hya).
  destruct (tags_line_head M) as [T1 HT].
  pose proof (update_fixed yb ya after M newTags) as Hfix.
  rewrite <- !app_assoc in Hfix. apply Hfix; try done.
  - pose proof (match_yaml_intro (yb ++ tags_line M ++ ya) after) as Hintro.
    rewrite <- !app_assoc in Hintro. apply Hintro.
    rewrite <- !app_assoc, !length_app in Hclose.
    apply no_close_before_app_inv in Hclose as [Hb Hrest].
    apply no_close_before_app_inv in Hrest as [_ Hya'].
    rewrite !length_app.
    apply (no_close_before_app yb).
    + rewrite HT. by apply (no_close_before_t yb (m1 ++ ya ++ yaml_close ++ after)).
    + apply (no_close_before_app (tags_line M)); [|done].
      apply no_close_before_plain. by apply plain_tags_line_no_nl.
  - pose proof (match_tags_here_tags_line M ya Hplain Hya) as Hnewhere.
    rewrite HT in Hnewhere |- *. cbn [app] in Hnewhere |- *.
    rewrite (search_tags_replace true yb ((116%N :: m1) ++ ya) _ _ _ (T1 ++ ya) _ _
               Hsearch Hnewhere).
    change (116%N :: T1 ++ ya) with ((116%N :: T1) ++ ya).
    by rewrite take_matched.
Qed.
End FrontMatterIdempotence.

(** X12.  Updating a file twice with the same tags gives the same file as
    updating it once, when the file contains no dollar sign and the tags
    are plain and pairwise different: the second update finds the tags
    line written by the first and rewrites it to itself. *)
Theorem updateFileFrontMatter_idempotent (content : jsstring) (newTags : list jsstring) :
  (36 ∉ content)%N →
  (∀ t, t ∈ newTags → plain_tag t) →
  NoDup newTags →
  updateFileFrontMatter (updateFileFrontMatter content newTags) newTags
  = updateFileFrontMatter content newTags.
Proof.
  intros Hdollar Hplain Hnd.
  assert (∀ t, t ∈ newTags → (36 ∉ t)%N) as Htags
    by (intros t Ht; by destruct (Hplain t Ht) as (_ & _ & _ & ? & _)).
  destruct (match_yaml content) as [[yaml after]|] eqn:Hyaml.
  - pose proof (match_yaml_Some _ _ _ Hyaml) as Hcontent.
    pose proof (match_yaml_no_close _ _ _ Hyaml) as Hclose.
    assert ((36 ∉ yaml)%N) as Hdy.
    { intros Hin. apply Hdollar. rewrite Hcontent, !elem_of_app. auto. }
    destruct (search_tags true yaml) as [[[[yb m] g] ya]|] eqn:Hsearch.
    + destruct (search_tags_Some _ _ _ _ _ _ Hsearch) as (Hy & Hhere & _).
      destruct (match_tags_here_Some _ _ _ Hhere) as (ws & Hm & Hg & _).
      assert ((36 ∉ g)%N) as Hdg.
      { intros Hin. apply Hdy. rewrite Hy. apply elem_of_app. right.
        rewrite Hm, !elem_of_app. auto. }
      destruct (update_merge _ _ _ _ _ _ _ newTags Hyaml Hsearch Hdg Htags) as [_ ->].
      rewrite Hy in Hclose, Hsearch.
      apply (update_merge_fixed yb m g ya after); try done.
      * intros t Ht. apply elem_of_new_StringSet, elem_of_app in Ht as [Ht|Ht];
          [|by apply Hplain].
        apply parse_tag_list_elem in Ht as (? & ? & ? & Hsub).
        split_and!; try done.
        -- intros Hin. by apply Hdg, Hsub.
        -- intros c Hc. by apply Hg, Hsub.
      * apply NoDup_new_StringSet.
      * intros t Ht. apply elem_of_new_StringSet, elem_of_app. by right.
    + rewrite (update_append _ _ _ _ Hyaml Hsearch Hdy Htags).
      by apply update_append_fixed.
  - rewrite (update_none _ _ Hyaml). by apply update_none_fixed.
Qed.

Ltac closed_membership := apply (bool_decide_unpack _); by vm_compute.

Ltac plain_tags :=
  let t := fresh "t" in
  let Ht := fresh "Ht" in
  intros t Ht; rewrite ?elem_of_cons, elem_of_nil in Ht;
  repeat destruct Ht as [->|Ht]; try done;
  unfold plain_tag; split_and!;
  first [ discriminate
        | by vm_compute
        | closed_membership
        | (let c := fresh "c" in
           let Hc := fresh "Hc" in
           intros c Hc; cbn in Hc; rewrite ?elem_of_cons, elem_of_nil in Hc;
           repeat destruct Hc as [->|Hc]; done) ].

Lemma updateFileFrontMatter_creates_front_matter_witness :
  updateFileFrontMatter note_plain [js "a"; js "b"]
  = js "---" ++ nl ++ js "tags: [a, b]" ++ nl ++ js "---" ++ nl ++ nl ++ js "hello" ∧
  match_yaml (updateFileFrontMatter note_plain [js "a"; js "b"])
  = Some (js "tags: [a, b]", nl ++ nl ++ js "hello").
Proof.
  destruct (updateFileFrontMatter_creates_front_matter note_plain [js "a"; js "b"])
    as [Hwritten Hread]; [by vm_compute|].
  split; [by rewrite Hwritten|].
  destruct Hread as [Hyaml _]; [plain_tags|exact Hyaml].
Defined.

Lemma updateFileFrontMatter_appends_tags_line_witness :
  updateFileFrontMatter note_with_title [js "a"; js "b"]
  = js "---" ++ nl ++ js "title: x" ++ nl ++ js "tags: [a, b]" ++ nl ++ js "---"
    ++ nl ++ js "body".
Proof.
  destruct (updateFileFrontMatter_appends_tags_line note_with_title
              (js "title: x") (nl ++ js "body") [js "a"; js "b"]) as [_ ->].
  - by vm_compute.
  - by vm_compute.
  - closed_membership.
  - intros t Ht. rewrite ?elem_of_cons, elem_of_nil in Ht.
    repeat destruct Ht as [->|Ht]; try done; closed_membership.
  - by vm_compute.
Defined.

Lemma updateFileFrontMatter_merges_tags_witness :
  updateFileFrontMatter note_with_tags [js "a"; js "b"]
  = js "---" ++ nl ++ js "title: x" ++ nl ++ js "tags: [x, a, b] # c" ++ nl
    ++ js "---" ++ nl ++ js "body".
Proof.
  destruct (updateFileFrontMatter_merges_tags note_with_tags
              (js "title: x" ++ nl ++ js "tags:  [x, a ] # c") (nl ++ js "body")
              (js "title: x" ++ nl) (js "tags:  [x, a ]") (js "x, a ") (js " # c")
              [js "a"; js "b"]) as (_ & -> & _).
  - by vm_compute.
  - by vm_compute.
  - closed_membership.
  - intros t Ht. rewrite ?elem_of_cons, elem_of_nil in Ht.
    repeat destruct Ht as [->|Ht]; try done; closed_membership.
  - by vm_compute.
Defined.

Lemma updateFileFrontMatter_idempotent_witness :
  updateFileFrontMatter (updateFileFrontMatter note_with_tags [js "a"; js "b"])
    [js "a"; js "b"]
  = updateFileFrontMatter note_with_tags [js "a"; js "b"].
Proof.
  apply updateFileFrontMatter_idempotent.
  - closed_membership.
  - plain_tags.
  - apply (bool_decide_unpack _). by vm_compute.
Defined.

(* ================================================================== *)
(** * Relevant existing tags *)
(* ================================================================== *)

Section RelevanceFacts.
Context `{LowerCase}.

Lemma includes_nil (s : jsstring) : includes s [] = true.
Proof. by destruct s. Qed.

Lemma relevant_empty_word contentLower words tag :
  [] ∈ words → relevant contentLower words tag = true.
Proof.
  intros Hin. unfold relevant. apply orb_true_iff. right.
  apply existsb_exists. exists []. split.
  - by apply list_elem_of_In.
  - apply includes_nil.
Qed.

Lemma relevant_loop_take contentLower words existingTags relevantTags :
  length relevantTags < 2 →
  relevant_loop contentLower words existingTags relevantTags
  = take 2 (relevantTags
            ++ filter (λ tag, relevant contentLower words tag = true) existingTags).
Proof.
  revert relevantTags.
  induction existingTags as [|tag rest IH]; intros acc Hacc.
  - cbn [relevant_loop]. rewrite filter_nil, app_nil_r.
    rewrite take_ge; [done|lia].
  - cbn [relevant_loop]. rewrite filter_cons.
    destruct (relevant contentLower words tag) eqn:Hrel.
    + rewrite decide_True by done.
      destruct (Nat.leb_spec 2 (length (acc ++ [tag]))) as [Hfull|Hroom].
      * rewrite length_app in Hfull. cbn [length] in Hfull.
        set (kept := filter _ rest).
        change (acc ++ tag :: kept) with (acc ++ [tag] ++ kept).
        rewrite app_assoc, take_app_length'; [done|].
        rewrite length_app. cbn [length]. lia.
      * rewrite IH by done. by rewrite <- app_assoc.
    + rewrite decide_False by done. by apply IH.
Qed.

Lemma split_words_ends_empty pre c :
  is_separator c = true →
  ∃ p ps, split_words (pre ++ [c]) = (p :: ps) ++ [[]].
Proof.
  intros Hc. induction pre as [|a pre IH].
  - exists [], []. cbn [app split_words]. by rewrite Hc.
  - destruct IH as (p & ps & IH).
    change ((a :: pre) ++ [c]) with (a :: (pre ++ [c])).
    cbn [split_words]. rewrite IH.
    destruct (is_separator a).
    + by exists [], (p :: ps).
    + by exists (a :: p), ps.
Qed.
End RelevanceFacts.

(** X13.  [findRelevantExistingTags] returns the first two of the
    existing tags that pass its test, in the order of the set, or all of
    them when fewer than two pass: never more than two tags, and only
    tags of the set. *)
Theorem findRelevantExistingTags_first_two `{LowerCase}
    (existingTags : list jsstring) (content : jsstring) :
  let passes tag :=
    relevant (toLowerCase content) (split_words (toLowerCase content)) tag = true in
  findRelevantExistingTags existingTags content = take 2 (filter passes existingTags) ∧
  length (findRelevantExistingTags existingTags content) ≤ 2 ∧
  findRelevantExistingTags existingTags content `sublist_of` existingTags.
Proof.
  cbv zeta.
  assert (findRelevantExistingTags existingTags content
          = take 2 (filter (λ tag, relevant (toLowerCase content)
                                     (split_words (toLowerCase content)) tag = true)
                      existingTags)) as ->.
  { unfold findRelevantExistingTags. cbv zeta.
    rewrite relevant_loop_take by (cbn; lia). done. }
  split_and!.
  - done.
  - rewrite length_take. lia.
  - etrans; [apply sublist_take|apply sublist_filter].
Qed.

(** X14.  When the document, in lower case, is empty or begins or ends
    with a separator (a file that ends with a line break, say), the
    empty string is among its words, every tag passes the test, and the
    result is the first two existing tags whatever the document says. *)
Theorem findRelevantExistingTags_empty_word `{LowerCase}
    (existingTags : list jsstring) (content : jsstring) :
  (toLowerCase content = [] ∨
   (∃ c rest, toLowerCase content = c :: rest ∧ is_separator c = true) ∨
   (∃ pre c, toLowerCase content = pre ++ [c] ∧ is_separator c = true)) →
  findRelevantExistingTags existingTags content = take 2 existingTags.
Proof.
  intros Hshape.
  assert ([] ∈ split_words (toLowerCase content)) as Hword.
  { destruct Hshape as [->|[(c & rest & -> & Hc)|(pre & c & -> & Hc)]].
    - cbn. set_solver.
    - cbn [split_words]. rewrite Hc. set_solver.
    - destruct (split_words_ends_empty pre c Hc) as (p & ps & ->).
      set_solver. }
  unfold findRelevantExistingTags. cbv zeta.
  rewrite relevant_loop_take by (cbn; lia). cbn [app]. f_equal.
  induction existingTags as [|tag rest IH]; [done|].
  rewrite filter_cons, decide_True by (by apply relevant_empty_word).
  by rewrite IH.
Qed.

Lemma findRelevantExistingTags_empty_word_witness :
  findRelevantExistingTags vault_tags (js "Bread and butter.")
  = [js "physics"; js "travel"].
Proof.
  rewrite (findRelevantExistingTags_empty_word vault_tags (js "Bread and butter.")).
  - reflexivity.
  - right. right. exists (js "bread and butter"), 46%N. split; by vm_compute.
Defined.

(* ================================================================== *)
(** * The settings tab *)
(* ================================================================== *)

Section SettingTabFacts.
Import SettingTab.

Lemma run_app (l1 l2 : list event) (s : AutoTaggerSettings) :
  run (l1 ++ l2) s
  = (fst (run l1 s) ++ fst (run l2 (snd (run l1 s))),
     snd (run l2 (snd (run l1 s)))).
Proof.
  revert s. induction l1 as [|e l1 IH]; intros s.
  - cbn. by destruct (run l2 s).
  - cbn [app run]. destruct (handle e s) as [result s1].
    rewrite IH. destruct (run l1 s1) as [errors1 s2]. cbn [fst snd].
    destruct (run l2 s2) as [errors2 s3]. cbn [fst snd].
    by destruct result.
Qed.

Lemma run_cons (e : event) (l : list event) (s : AutoTaggerSettings) :
  snd (run (e :: l) s) = snd (run l (snd (handle e s))).
Proof.
  cbn [run]. destruct (handle e s) as [result s1]. cbn [snd].
  by destruct (run l s1).
Qed.

Lemma update_current_provider f s :
  provider (snd (update_current f s)) = provider s.
Proof. unfold update_current. by destruct (providerSettings s !! provider s). Qed.

Lemma update_current_other f s q :
  q ≠ provider s →
  providerSettings (snd (update_current f s)) !! q = providerSettings s !! q.
Proof.
  intros Hq. unfold update_current.
  destruct (providerSettings s !! provider s); [|done].
  cbn. by rewrite lookup_insert_ne.
Qed.

Lemma update_current_ok f s :
  is_Some (providerSettings s !! provider s) →
  fst (update_current f s) = Ok () ∧
  is_Some (providerSettings (snd (update_current f s)) !! provider s).
Proof.
  intros [entry Hentry]. unfold update_current. rewrite Hentry. cbn.
  split; [done|]. rewrite lookup_insert_eq. by eexists.
Qed.

(** An edit touches the entry of the current provider only. *)
Lemma handle_edit (e : event) (s : AutoTaggerSettings) :
  is_select e = false →
  provider (snd (handle e s)) = provider s ∧
  ∀ q, q ≠ provider s →
       providerSettings (snd (handle e s)) !! q = providerSettings s !! q.
Proof.
  intros He. destruct e; try done; cbn [handle];
    try (split; [apply update_current_provider|
                 intros q Hq; by apply update_current_other]);
    try done.
  unfold reset_apiUrl. destruct (PROVIDER_CONFIGS !! provider s); [|done].
  split; [apply update_current_provider|
          intros q Hq; by apply update_current_other].
Qed.

Lemma run_edits (edits : list event) (s : AutoTaggerSettings) :
  Forall (λ e, is_select e = false) edits →
  provider (snd (run edits s)) = provider s ∧
  ∀ q, q ≠ provider s →
       providerSettings (snd (run edits s)) !! q = providerSettings s !! q.
Proof.
  intros Hedits. revert s.
  induction Hedits as [|e edits He _ IH]; intros s; [done|].
  rewrite run_cons.
  destruct (handle_edit e s He) as [Hp Hq].
  destruct (IH (snd (handle e s))) as [Hp' Hq'].
  split; [congruence|].
  intros q Hne. rewrite Hq' by congruence. by apply Hq.
Qed.

(** Selecting a provider leaves every entry that exists as it is. *)
Lemma select_provider_keeps (value : jsstring) (s : AutoTaggerSettings) :
  provider (snd (select_provider value s)) = value ∧
  ∀ q, q ≠ value ∨ is_Some (providerSettings s !! q) →
       providerSettings (snd (select_provider value s)) !! q
       = providerSettings s !! q.
Proof.
  unfold select_provider. cbn [set_provider providerSettings].
  destruct (providerSettings s !! value) eqn:Hentry; [done|].
  destruct (PROVIDER_CONFIGS !! value); [|done].
  split; [done|]. intros q [Hq|[entry Hq]]; cbn.
  - by rewrite lookup_insert_ne.
  - rewrite lookup_insert_ne; [done|]. intros ->. congruence.
Qed.

Lemma select_provider_ok (value : jsstring) (s : AutoTaggerSettings) :
  is_Some (PROVIDER_CONFIGS !! value) →
  fst (select_provider value s) = Ok () ∧
  is_Some (providerSettings (snd (select_provider value s)) !! value).
Proof.
  intros [config Hconfig]. unfold select_provider.
  cbn [set_provider providerSettings].
  destruct (providerSettings s !! value) eqn:Hentry.
  - cbn. rewrite Hentry. by split; [|eexists].
  - rewrite Hconfig. cbn. rewrite lookup_insert_eq. by split; [|eexists].
Qed.

Lemma handle_well_formed (e : event) (s : AutoTaggerSettings) :
  well_formed s → offered e = true →
  fst (handle e s) = Ok () ∧ well_formed (snd (handle e s)).
Proof.
  intros [Hconfig Hentry] He.
  assert (∀ f, fst (update_current f s) = Ok () ∧
               well_formed (snd (update_current f s))) as Hupdate.
  { intros f. destruct (update_current_ok f s Hentry) as [Hok Hsome].
    split; [done|]. unfold well_formed.
    by rewrite update_current_provider. }
  destruct e; cbn [handle]; try apply Hupdate; try done.
  - cbn [offered] in He. apply bool_decide_eq_true in He.
    destruct (select_provider_ok value s He) as [Hok Hsome].
    destruct (select_provider_keeps value s) as [Hp _].
    split; [done|]. unfold well_formed. by rewrite Hp.
  - unfold reset_apiUrl. destruct Hconfig as [config ->]. apply Hupdate.
Qed.
End SettingTabFacts.

(** X15.  The settings tab keeps the settings well-formed.  Starting
    from settings whose current provider is one of [PROVIDER_CONFIGS] and
    has an entry, after any sequence of choices among the providers
    offered, inputs and resets, the current provider again is one of
    [PROVIDER_CONFIGS] and has an entry, and every handler on the way
    found the entry and the defaults it reads: no access to the settings
    met [undefined].  This is about the settings only, not about what
    the handlers do to the page. *)
Theorem setting_tab_keeps_current_entry
    (events : list SettingTab.event) (s : AutoTaggerSettings) :
  is_Some (SettingTab.PROVIDER_CONFIGS !! provider s) →
  is_Some (providerSettings s !! provider s) →
  Forall (λ e, SettingTab.offered e = true) events →
  let s' := snd (SettingTab.run events s) in
  fst (SettingTab.run events s) = [] ∧
  is_Some (SettingTab.PROVIDER_CONFIGS !! provider s') ∧
  is_Some (providerSettings s' !! provider s').
Proof.
  intros Hconfig Hentry Hevents. cbv zeta.
  assert (SettingTab.well_formed s) as Hwf by done. clear Hconfig Hentry.
  revert s Hwf. induction Hevents as [|e events He _ IH]; intros s Hwf.
  - cbn. by destruct Hwf.
  - destruct (handle_well_formed e s Hwf He) as [Hok Hwf'].
    specialize (IH _ Hwf'). cbn [SettingTab.run].
    destruct (SettingTab.handle e s) as [result s1]. cbn [fst snd] in *.
    destruct (SettingTab.run events s1) as [errors s2]. cbn [fst snd] in *.
    by subst result.
Qed.

Lemma setting_tab_keeps_current_entry_witness :
  fst (SettingTab.run [SettingTab.SelectProvider (js "gemini");
                       SettingTab.InputApiKey (js "g-1");
                       SettingTab.ResetApiUrl] openai_settings_with_key) = [].
Proof.
  apply (setting_tab_keeps_current_entry
           [SettingTab.SelectProvider (js "gemini");
            SettingTab.InputApiKey (js "g-1");
            SettingTab.ResetApiUrl] openai_settings_with_key).
  - closed_membership.
  - closed_membership.
  - repeat constructor.
Defined.

(** X16.  Choosing another provider, editing its key, address and model
    there, and choosing the first provider again leaves the first
    provider selected with its entry as it was; only the entry of the
    provider visited can differ from before. *)
Theorem setting_tab_switch_and_back
    (other : jsstring) (edits : list SettingTab.event) (s : AutoTaggerSettings) :
  other ≠ provider s →
  is_Some (providerSettings s !! provider s) →
  Forall (λ e, SettingTab.is_select e = false) edits →
  let s' := snd (SettingTab.run (SettingTab.SelectProvider other :: edits
                                 ++ [SettingTab.SelectProvider (provider s)]) s) in
  provider s' = provider s ∧
  providerSettings s' !! provider s = providerSettings s !! provider s ∧
  ∀ q, q ≠ other → providerSettings s' !! q = providerSettings s !! q.
Proof.
  intros Hother Hentry Hedits. cbv zeta.
  rewrite run_cons. cbn [SettingTab.handle]. rewrite run_app. cbn [snd].
  rewrite run_cons. cbn [SettingTab.handle SettingTab.run snd].
  destruct (select_provider_keeps other s) as [Hp1 Hq1].
  set (s1 := snd (SettingTab.select_provider other s)) in *.
  destruct (run_edits edits s1 Hedits) as [Hp2 Hq2].
  set (s2 := snd (SettingTab.run edits s1)) in *.
  destruct (select_provider_keeps (provider s) s2) as [Hp3 Hq3].
  assert (∀ q, q ≠ other → providerSettings s2 !! q = providerSettings s !! q)
    as Hkept.
  { intros q Hq. rewrite Hq2 by congruence. apply Hq1. by left. }
  assert (∀ q, q ≠ other →
               providerSettings (snd (SettingTab.select_provider (provider s) s2)) !! q
               = providerSettings s !! q) as Hall.
  { intros q Hq. rewrite <- (Hkept q Hq). apply Hq3.
    destruct (decide (q = provider s)) as [->|Hne]; [|by left].
    right. by rewrite Hkept. }
  split_and!; [done| |done].
  apply Hall. congruence.
Qed.

Lemma setting_tab_switch_and_back_witness :
  providerSettings
    (snd (SettingTab.run [SettingTab.SelectProvider (js "gemini");
                          SettingTab.InputApiKey (js "g-1");
                          SettingTab.InputCustomModel (js " gemini-pro ");
                          SettingTab.SelectProvider (js "openai")]
            openai_settings_with_key)) !! js "openai"
  = providerSettings openai_settings_with_key !! js "openai".
Proof.
  destruct (setting_tab_switch_and_back (js "gemini")
              [SettingTab.InputApiKey (js "g-1");
               SettingTab.InputCustomModel (js " gemini-pro ")]
              openai_settings_with_key) as (_ & Hkept & _).
  - by vm_compute.
  - closed_membership.
  - repeat constructor.
  - exact Hkept.
Defined.

(* ================================================================== *)
(** * Tags with the same characters *)
(* ================================================================== *)

Section FullScore.
Context `{LowerCase}.
Implicit Types a b c e : jsstring.

(** Below 1 as soon as the sets of characters differ. *)
Lemma calculateSimilarity_lt_1 a b :
  ¬ (∀ u, u ∈ toLowerCase a ↔ u ∈ toLowerCase b) →
  (calculateSimilarity a b < 1)%Q.
Proof.
  intros Hdiff.
  assert (toLowerCase a ≠ toLowerCase b) as Hne.
  { intros E. apply Hdiff. intros u. by rewrite E. }
  rewrite calculateSimilarity_spec. unfold similarity_spec.
  rewrite decide_False by done.
  set (A := (list_to_set (toLowerCase a) : gset N)).
  set (B := (list_to_set (toLowerCase b) : gset N)).
  assert (size (A ∩ B) < size A `max` size B) as Hlt.
  { destruct (decide (size (A ∩ B) < size A `max` size B)) as [|Hge]; [done|].
    exfalso. apply Hdiff.
    pose proof (subseteq_size (A ∩ B) A ltac:(set_solver)) as HA.
    pose proof (subseteq_size (A ∩ B) B ltac:(set_solver)) as HB.
    assert (A ∩ B ≡ A) as EA.
    { apply set_subseteq_size_equiv; [set_solver|lia]. }
    assert (A ∩ B ≡ B) as EB.
    { apply set_subseteq_size_equiv; [set_solver|lia]. }
    intros u. unfold A, B in EA, EB.
    rewrite <- (elem_of_list_to_set (C := gset N) u (toLowerCase a)).
    rewrite <- (elem_of_list_to_set (C := gset N) u (toLowerCase b)).
    set_solver. }
  apply Qlt_shift_div_r.
  - unfold Qlt. simpl. lia.
  - rewrite Qmult_1_l. rewrite <- Zlt_Qlt. lia.
Qed.
End FullScore.

(** X17.  The first existing tag whose lowercased form has the same set
    of characters as the candidate is the tag returned for it, whatever
    comes later in the list.  In particular a candidate that is itself an
    existing tag is kept when no earlier tag has its characters, and is
    replaced by such an earlier tag when there is one. *)
Theorem findSimilarExistingTag_first_same_characters `{LowerCase}
    (pre post : list jsstring) (e t : jsstring) :
  (∀ u, u ∈ toLowerCase t ↔ u ∈ toLowerCase e) →
  (∀ e', e' ∈ pre → ¬ (∀ u, u ∈ toLowerCase t ↔ u ∈ toLowerCase e')) →
  findSimilarExistingTag (Some (pre ++ e :: post)) t = Some e.
Proof.
  intros Hsame Hpre.
  assert (calculateSimilarity t e == 1)%Q as Hone.
  { destruct (decide (toLowerCase t = [])) as [Et|Ht].
    - rewrite calculateSimilarity_eq, Et.
      by rewrite (same_characters_empty t e Hsame Et).
    - rewrite calculateSimilarity_sets by (by left).
      rewrite <- (same_characters_sets t e Hsame).
      replace (list_to_set (toLowerCase t) ∩ list_to_set (toLowerCase t))
        with (list_to_set (toLowerCase t) : gset N) by set_solver.
      rewrite Nat.max_id. apply Qdiv_same_pos.
      pose proof (list_to_set_nonempty _ Ht). lia. }
  assert (e ∈ pre ++ e :: post) as Hin by set_solver.
  destruct (findSimilarExistingTag_Some t (pre ++ e :: post) e Hin)
    as (i & e1 & Hfound & Hi & _ & Hbefore & Hmax).
  { rewrite Hone. reflexivity. }
  rewrite Hfound. f_equal.
  assert (calculateSimilarity t e1 == 1)%Q as Hone1.
  { apply Qle_antisym; [apply calculateSimilarity_range|].
    rewrite <- Hone. by apply Hmax. }
  destruct (Nat.lt_trichotomy i (length pre)) as [Hlt|[->|Hgt]].
  - exfalso. rewrite lookup_app_l in Hi by done.
    apply list_elem_of_lookup_2 in Hi.
    pose proof (calculateSimilarity_lt_1 t e1 (Hpre e1 Hi)) as Hbelow.
    rewrite Hone1 in Hbelow. by apply Qlt_irrefl in Hbelow.
  - rewrite list_lookup_middle in Hi by done. congruence.
  - exfalso.
    assert ((pre ++ e :: post) !! length pre = Some e) as He
      by by apply list_lookup_middle.
    pose proof (Hbefore _ _ Hgt He) as Hbelow.
    rewrite Hone, Hone1 in Hbelow. by apply Qlt_irrefl in Hbelow.
Qed.

Lemma findSimilarExistingTag_first_same_characters_witness :
  findSimilarExistingTag (H := ascii_lower)
    (Some ([js "travel"] ++ js "silent" :: [js "listen"])) (js "listen")
  = Some (js "silent").
Proof.
  apply (findSimilarExistingTag_first_same_characters (H := ascii_lower)
           [js "travel"] [js "listen"] (js "silent") (js "listen")).
  - intros u. cbn. rewrite !elem_of_cons, !elem_of_nil. tauto.
  - intros e' He' Hall. apply list_elem_of_singleton in He' as ->.
    specialize (Hall 105%N). cbn in Hall.
    rewrite !elem_of_cons, !elem_of_nil in Hall.
    destruct Hall as [Hall _]. destruct Hall as [?|[?|[?|[?|[?|[?|?]]]]]]; try done.
    tauto.
Defined.
